(** * Rasterizer2: the clipping, rasterisation and shading kernels

    A shallow embedding of the C++ renderer (geometry.h, gl.h/gl.cpp, the
    driver with its two shaders, the images of tgaimage.cpp and the texture
    lookups of model.cpp) and the properties of its specification.

    Numbers.  The kernels are modelled on two kinds of numbers.  In the
    first model a C++ [float] is the exact rational it denotes ([Q]):
    rounding, NaN and overflow to infinity are outside this model, and a
    division by zero yields 0 as in [Qdiv]; it carries the algebraic
    properties of the kernels.  In the second model (module [F32]) a
    [float] is an IEEE-754 binary32 datum ([spec_float]) and every
    operation is correctly rounded; it carries the properties that
    rounding, a NaN or the state of the shader object decides.  [unsigned]
    and [int] are 32 bits wide: they are modelled in [Z] with the
    wrap-around written out.

    Memory.  A raw buffer ([float*], [Vec3f*]) is a list; a read outside it
    yields a default and a write outside it is dropped, and the rasteriser
    records every index it uses so that the bounds can be stated. *)

From Stdlib Require Import ZArith QArith Qabs Lqa Lia List Bool Permutation.
From Stdlib Require Import Floats.SpecFloat.
From mathcomp Require boot algebra.
Import ListNotations.

Local Open Scope Z_scope.

(* ------------------------------------------------------------------ *)
(** ** Machine integers and conversions *)

Definition INT_MIN : Z := - 2 ^ 31.
Definition INT_MAX : Z := 2 ^ 31 - 1.

(** Arithmetic in [unsigned] is arithmetic modulo 2^32. *)
Definition to_unsigned (n : Z) : Z := n mod 2 ^ 32.

(** Conversion of an integer to [int] (two's complement). *)
Definition to_int (n : Z) : Z :=
  let m := n mod 2 ^ 32 in if m <? 2 ^ 31 then m else m - 2 ^ 32.

(** [int(f)] for a float [f]: truncation toward zero.  Outside the range of
    [int] the conversion is undefined in C++; the model takes the value the
    x86 conversion instruction produces there ([INT_MIN]). *)
Definition float_to_int (f : Q) : Z :=
  let t := Z.quot (Qnum f) (Zpos (Qden f)) in
  if (INT_MIN <=? t) && (t <=? INT_MAX) then t else INT_MIN.

(** The loop [for (int v = lo; v <= hi; ++v)] visits [Zrange lo (hi + 1)],
    [for (int v = 0; v < n; ++v)] visits [Zrange 0 n]. *)
Definition Zrange (lo hi : Z) : list Z :=
  map (fun k => lo + Z.of_nat k) (seq 0 (Z.to_nat (hi - lo))).

(** [a < b] on floats. *)
Definition Qltb (a b : Q) : bool := negb (Qle_bool b a).

(** Indexed write into a buffer. *)
Fixpoint list_set {A : Type} (l : list A) (n : nat) (v : A) : list A :=
  match l, n with
  | [], _ => []
  | _ :: t, O => v :: t
  | h :: t, S n' => h :: list_set t n' v
  end.

(** The first [m] slots of the buffer [l] hold [v]. *)
Definition filled {A : Type} (v dflt : A) (l : list A) (m : Z) : Prop :=
  forall k : nat, (Z.of_nat k < m)%Z -> (k < length l)%nat -> nth k l dflt = v.

(* ------------------------------------------------------------------ *)
(** ** geometry.h: vectors *)

Record Vec2f := mkVec2f { x2 : Q; y2 : Q }.
Record Vec3f := mkVec3f { x3 : Q; y3 : Q; z3 : Q }.
Record Vec4f := mkVec4f { x4 : Q; y4 : Q; z4 : Q; w4 : Q }.

(** [vec<4,T>::operator[]]: [i <= 0 ? x : (1 == i ? y : (2 == i ? z : w))]. *)
Definition Vec4f_get (v : Vec4f) (i : Z) : Q :=
  if i <=? 0 then x4 v else if 1 =? i then y4 v else if 2 =? i then z4 v else w4 v.

(** Assignment through the reference returned by [operator[]]. *)
Definition Vec4f_set (v : Vec4f) (i : Z) (a : Q) : Vec4f :=
  if i <=? 0 then mkVec4f a (y4 v) (z4 v) (w4 v)
  else if 1 =? i then mkVec4f (x4 v) a (z4 v) (w4 v)
  else if 2 =? i then mkVec4f (x4 v) (y4 v) a (w4 v)
  else mkVec4f (x4 v) (y4 v) (z4 v) a.

Local Open Scope Q_scope.

(** [operator+], [operator-] and [operator*] by a scalar, componentwise. *)
Definition add2 (l r : Vec2f) := mkVec2f (x2 l + x2 r) (y2 l + y2 r).
Definition sub2 (l r : Vec2f) := mkVec2f (x2 l - x2 r) (y2 l - y2 r).
Definition scale2 (l : Vec2f) (r : Q) := mkVec2f (x2 l * r) (y2 l * r).

Definition add3 (l r : Vec3f) := mkVec3f (x3 l + x3 r) (y3 l + y3 r) (z3 l + z3 r).
Definition sub3 (l r : Vec3f) := mkVec3f (x3 l - x3 r) (y3 l - y3 r) (z3 l - z3 r).
Definition scale3 (l : Vec3f) (r : Q) := mkVec3f (x3 l * r) (y3 l * r) (z3 l * r).

Definition add4 (l r : Vec4f) :=
  mkVec4f (x4 l + x4 r) (y4 l + y4 r) (z4 l + z4 r) (w4 l + w4 r).
Definition sub4 (l r : Vec4f) :=
  mkVec4f (x4 l - x4 r) (y4 l - y4 r) (z4 l - z4 r) (w4 l - w4 r).
Definition scale4 (l : Vec4f) (r : Q) :=
  mkVec4f (x4 l * r) (y4 l * r) (z4 l * r) (w4 l * r).

(** [proj<2>]: the first two components. *)
Definition proj_2 (v : Vec4f) : Vec2f := mkVec2f (x4 v) (y4 v).

Definition cross (v1 v2 : Vec3f) : Vec3f :=
  mkVec3f (y3 v1 * z3 v2 - z3 v1 * y3 v2)
          (z3 v1 * x3 v2 - x3 v1 * z3 v2)
          (x3 v1 * y3 v2 - y3 v1 * x3 v2).

(* ------------------------------------------------------------------ *)
(** ** gl.cpp: barycentric coordinates *)

(** The threshold [1e-5] of the degeneracy test. *)
Definition bary_eps : Q := 1 # 100000.

Definition barycentric (A B C P : Vec2f) : Vec3f :=
  let t0 := mkVec3f (x2 B - x2 A) (x2 C - x2 A) (x2 A - x2 P) in
  let t1 := mkVec3f (y2 B - y2 A) (y2 C - y2 A) (y2 A - y2 P) in
  let u := cross t0 t1 in
  if Qltb (Qabs (z3 u)) bary_eps then mkVec3f (-(1)) 0 0
  else mkVec3f (1 - (x3 u + y3 u) / z3 u) (x3 u / z3 u) (y3 u / z3 u).

(** The denominator of the 2x2 system solved by [barycentric] (the [u.z] of
    its cross product): twice the signed area of the projected triangle. *)
Definition bary_denominator (A B C : Vec2f) : Q :=
  (x2 B - x2 A) * (y2 C - y2 A) - (x2 C - x2 A) * (y2 B - y2 A).

(* ------------------------------------------------------------------ *)
(** ** gl.h: the shader interface *)

(** [bool fragment(Vec3f bar, Vec3f &color)]: the fragment stage receives the
    barycentric weights and the current value of the caller's [color], and
    returns its verdict with the value it leaves in [color].  (The vertex
    stage is not called by the rasteriser.)  This is the interface of a
    shader whose fragment stage neither reads nor changes what an earlier
    call has left in the shader object; [F32.IShader] is the interface with
    the state of the object. *)
Record IShader := mkIShader { fragment : Vec3f -> Vec3f -> bool * Vec3f }.

(* ------------------------------------------------------------------ *)
(** ** gl.cpp: the rasteriser *)

(** The two output buffers of [triangle], with the log of the indices at
    which [zBuffer] or [colorBuffer] has been read or written (latest
    first). *)
Record Raster := mkRaster {
  colorBuffer : list Vec3f;
  zBuffer : list Q;
  accessed : list Z
}.

(** [zBuffer[idx]] as an rvalue. *)
Definition load_z (r : Raster) (idx : Z) : Q := nth (Z.to_nat idx) (zBuffer r) 0.

Definition touch (r : Raster) (idx : Z) : Raster :=
  mkRaster (colorBuffer r) (zBuffer r) (idx :: accessed r).

(** [colorBuffer[idx] = color; zBuffer[idx] = z;] *)
Definition store (r : Raster) (idx : Z) (color : Vec3f) (z : Q) : Raster :=
  mkRaster (list_set (colorBuffer r) (Z.to_nat idx) color)
           (list_set (zBuffer r) (Z.to_nat idx) z)
           (idx :: idx :: accessed r).

Section Triangle.

Variable screenCoords : Vec4f * Vec4f * Vec4f.
Variable shader : IShader.
Variables width height : Z.
Variable d : list (Q * Q).
Variable cntSample : Z.

Definition vert0 : Vec4f := fst (fst screenCoords).
Definition vert1 : Vec4f := snd (fst screenCoords).
Definition vert2 : Vec4f := snd screenCoords.

(** The two loops over the vertices and the axes, followed by the clamp to
    the screen. *)
Definition bbox_scan (j : Z) (acc : Z * Z) (v : Vec4f) : Z * Z :=
  let c := float_to_int (Vec4f_get v j) in
  (Z.min (fst acc) c, Z.max (snd acc) c).

Definition bbox_axis (j : Z) (extent : Z) : Z * Z :=
  let '(lo, hi) :=
    fold_left (bbox_scan j) [vert0; vert1; vert2] (to_int (extent - 1), 0%Z) in
  (Z.max 0 lo, Z.min (to_int (extent - 1)) hi).

Definition bboxmin_x : Z := fst (bbox_axis 0 width).
Definition bboxmax_x : Z := snd (bbox_axis 0 width).
Definition bboxmin_y : Z := fst (bbox_axis 1 height).
Definition bboxmax_y : Z := snd (bbox_axis 1 height).

Definition tri_A : Vec2f := proj_2 vert0.
Definition tri_B : Vec2f := proj_2 vert1.
Definition tri_C : Vec2f := proj_2 vert2.

(** [Vec2f sample(x + d[i][0], y + d[i][1])]. *)
Definition sample_point (x y i : Z) : Vec2f :=
  let o := nth (Z.to_nat i) d (0, 0) in
  mkVec2f (inject_Z x + fst o) (inject_Z y + snd o).

Definition sample_bar (x y i : Z) : Vec3f :=
  barycentric tri_A tri_B tri_C (sample_point x y i).

(** The interpolated [w] of a sample, the divisor of [w = 1.0f / w]. *)
Definition sample_w (x y i : Z) : Q :=
  let barSample := sample_bar x y i in
  w4 vert0 * x3 barSample + w4 vert1 * y3 barSample + w4 vert2 * z3 barSample.

(** The perspective-corrected depth [z] of a sample. *)
Definition sample_depth (x y i : Z) : Q :=
  let barSample := sample_bar x y i in
  let w := w4 vert0 * x3 barSample + w4 vert1 * y3 barSample
           + w4 vert2 * z3 barSample in
  let w := 1 / w in
  let z := z4 vert0 * x3 barSample + z4 vert1 * y3 barSample
           + z4 vert2 * z3 barSample in
  z * w.

(** [unsigned idx = cntSample * (y*width + x) + i], computed in [unsigned]. *)
Definition sample_index (x y i : Z) : Z :=
  to_unsigned (cntSample * (y * width + x) + i).

(** [barSample.x < 0 || barSample.y < 0 || barSample.z < 0]. *)
Definition sample_outside (x y i : Z) : bool :=
  let barSample := sample_bar x y i in
  Qltb (x3 barSample) 0 || Qltb (y3 barSample) 0 || Qltb (z3 barSample) 0.

(** The centre of pixel [(x, y)] at which the fragment stage is evaluated:
    [Vec2f(x + 0.5f, y + 0.5f)]. *)
Definition pixel_center (x y : Z) : Vec2f :=
  mkVec2f (inject_Z x + (1 # 2)) (inject_Z y + (1 # 2)).

(** The loop over the samples of pixel [(x, y)], given the sample indices
    still to visit; [covered] and [color] are the pixel's local variables.
    A sample with a negative weight or a depth below the stored one is the
    [continue], a rejected fragment is the [break]. *)
Fixpoint sample_loop (x y : Z) (samples : list Z) (covered : bool)
         (color : Vec3f) (r : Raster) : Raster :=
  match samples with
  | [] => r
  | i :: rest =>
      let z := sample_depth x y i in
      let idx := sample_index x y i in
      if sample_outside x y i then sample_loop x y rest covered color r
      else
        let r := touch r idx in
        if Qltb z (load_z r idx) then sample_loop x y rest covered color r
        else if covered then
          sample_loop x y rest covered color (store r idx color z)
        else
          let barMiddle := barycentric tri_A tri_B tri_C (pixel_center x y) in
          match fragment shader barMiddle color with
          | (false, _) => r
          | (true, color') =>
              sample_loop x y rest true color' (store r idx color' z)
          end
  end.

Definition pixel (x : Z) (r : Raster) (y : Z) : Raster :=
  sample_loop x y (Zrange 0 cntSample) false (mkVec3f 0 0 0) r.

Definition column (r : Raster) (x : Z) : Raster :=
  fold_left (pixel x) (Zrange bboxmin_y (bboxmax_y + 1)) r.

Definition triangle (r : Raster) : Raster :=
  fold_left column (Zrange bboxmin_x (bboxmax_x + 1)) r.

End Triangle.

(** The samples of a [triangle] call in the order of its three loops. *)
Definition triangle_samples (screenCoords : Vec4f * Vec4f * Vec4f)
           (width height cntSample : Z) : list (Z * Z * Z) :=
  flat_map (fun x =>
    flat_map (fun y => map (fun i => (x, y, i)) (Zrange 0 cntSample))
      (Zrange (bboxmin_y screenCoords height) (bboxmax_y screenCoords height + 1)))
    (Zrange (bboxmin_x screenCoords width) (bboxmax_x screenCoords width + 1)).

(** The update of one sample slot, as a function of the two buffers alone:
    the depth test and the overwrite of [sample_loop] for the sample
    [(x, y, i)], with the pixel's fragment evaluated for it. *)
Definition sample_update (screenCoords : Vec4f * Vec4f * Vec4f) (shader : IShader)
           (width : Z) (d : list (Q * Q)) (cntSample : Z)
           (b : list Vec3f * list Q) (s : Z * Z * Z) : list Vec3f * list Q :=
  let '(x, y, i) := s in
  let z := sample_depth screenCoords d x y i in
  let idx := Z.to_nat (sample_index width cntSample x y i) in
  if sample_outside screenCoords d x y i then b
  else if Qltb z (nth idx (snd b) 0) then b
  else
    match fragment shader
            (barycentric (tri_A screenCoords) (tri_B screenCoords)
                         (tri_C screenCoords) (pixel_center x y))
            (mkVec3f 0 0 0) with
    | (false, _) => b
    | (true, color) => (list_set (fst b) idx color, list_set (snd b) idx z)
    end.

Definition buffers (r : Raster) : list Vec3f * list Q := (colorBuffer r, zBuffer r).

(** The pixels of a [triangle] call in the order of its two outer loops. *)
Definition triangle_pixels (screenCoords : Vec4f * Vec4f * Vec4f)
           (width height : Z) : list (Z * Z) :=
  flat_map (fun x =>
    map (fun y => (x, y))
      (Zrange (bboxmin_y screenCoords height) (bboxmax_y screenCoords height + 1)))
    (Zrange (bboxmin_x screenCoords width) (bboxmax_x screenCoords width + 1)).

(** The samples visited when the pixels are taken in the order [pixels] and
    the samples of the pixel [p] in the order [samples p]. *)
Definition samples_in_order (pixels : list (Z * Z)) (samples : Z * Z -> list Z)
  : list (Z * Z * Z) :=
  flat_map (fun p => map (fun i => (fst p, snd p, i)) (samples p)) pixels.


(* ------------------------------------------------------------------ *)
(** ** gl.h, gl.cpp: the homogeneous clipper *)

Record Vertex := mkVertex {
  normal : Vec3f;
  worldCoord : Vec4f;
  clipCoord : Vec4f;
  uv : Vec2f
}.

(** [Vertex()], the value of an out-of-range read in the model. *)
Definition Vertex_default : Vertex :=
  mkVertex (mkVec3f 0 0 0) (mkVec4f 0 0 0 0) (mkVec4f 0 0 0 0) (mkVec2f 0 0).

Definition pushIntersection (result : list Vertex) (now next : Vertex) (axis : Z)
  : list Vertex :=
  let t0 := w4 (clipCoord now) - Vec4f_get (clipCoord now) axis in
  let t1 := w4 (clipCoord next) - Vec4f_get (clipCoord next) axis in
  let t := t0 / (t0 - t1) in
  let w := 1 / w4 (clipCoord now)
           + t * (1 / w4 (clipCoord next) - 1 / w4 (clipCoord now)) in
  let w := 1 / w in
  let inter_clipCoord :=
    add4 (clipCoord now) (scale4 (sub4 (clipCoord next) (clipCoord now)) t) in
  let inter_worldCoord :=
    add4 (worldCoord now) (scale4 (sub4 (worldCoord next) (worldCoord now)) t) in
  let inter_worldCoord := scale4 inter_worldCoord w in
  let inter_normal := add3 (normal now) (scale3 (sub3 (normal next) (normal now)) t) in
  let inter_normal := scale3 inter_normal w in
  let inter_uv := add2 (uv now) (scale2 (sub2 (uv next) (uv now)) t) in
  let inter_uv := scale2 inter_uv w in
  result ++ [mkVertex inter_normal inter_worldCoord inter_clipCoord inter_uv].

(** [clipCoord[axis] / clipCoord.w]. *)
Definition clip_check (v : Vertex) (axis : Z) : Q :=
  Vec4f_get (clipCoord v) axis / w4 (clipCoord v).

(** The test that the edge from [now] to [next] meets the plane. *)
Definition crosses (now next : Vertex) (axis : Z) : bool :=
  let checkNow := clip_check now axis in
  let checkNext := clip_check next axis in
  (Qltb checkNow 1 && Qltb 1 checkNext) || (Qltb 1 checkNow && Qltb checkNext 1).

(** One iteration of the loop of [singleFaceZClip]. *)
Definition clip_edge (original : list Vertex) (axis : Z) (result : list Vertex)
           (i : nat) : list Vertex :=
  let now := nth i original Vertex_default in
  let next := nth (Nat.modulo (i + 1) (length original)) original Vertex_default in
  let result :=
    if Qle_bool (clip_check now axis) 1 then result ++ [now] else result in
  if crosses now next axis then pushIntersection result now next axis else result.

Definition singleFaceZClip (original result : list Vertex) (axis : Z) : list Vertex :=
  fold_left (clip_edge original axis) (seq 0 (length original)) result.

(** [vertex.clipCoord[axis] = -vertex.clipCoord[axis]]. *)
Definition flip_axis (axis : Z) (vertex : Vertex) : Vertex :=
  mkVertex (normal vertex) (worldCoord vertex)
           (Vec4f_set (clipCoord vertex) axis (- Vec4f_get (clipCoord vertex) axis))
           (uv vertex).

Definition homogeneousClip (original result : list Vertex) (axis : Z) : list Vertex :=
  let intermediate := singleFaceZClip original [] axis in
  let intermediate := map (flip_axis axis) intermediate in
  let result := singleFaceZClip intermediate result axis in
  map (flip_axis axis) result.

(** Componentwise equality of values. *)
Definition Vec2f_eq (a b : Vec2f) : Prop := x2 a == x2 b /\ y2 a == y2 b.
Definition Vec3f_eq (a b : Vec3f) : Prop :=
  x3 a == x3 b /\ y3 a == y3 b /\ z3 a == z3 b.
Definition Vec4f_eq (a b : Vec4f) : Prop :=
  x4 a == x4 b /\ y4 a == y4 b /\ z4 a == z4 b /\ w4 a == w4 b.






(** Position of a vertex with respect to the canonical view volume
    [-w <= axis <= w], [w > 0]. *)
Definition inside_volume (axis : Z) (v : Vertex) : Prop :=
  0 < w4 (clipCoord v)
  /\ - w4 (clipCoord v) <= Vec4f_get (clipCoord v) axis
  /\ Vec4f_get (clipCoord v) axis <= w4 (clipCoord v).

(** Beyond the plane [axis = w], on the side away from the volume, for
    either sign of w: the quotient [axis / w] exceeds 1.  Beyond the plane
    [axis = -w]: the quotient is below -1. *)
Definition beyond_positive (axis : Z) (v : Vertex) : Prop :=
  (0 < w4 (clipCoord v) /\ w4 (clipCoord v) < Vec4f_get (clipCoord v) axis)
  \/ (w4 (clipCoord v) < 0 /\ Vec4f_get (clipCoord v) axis < w4 (clipCoord v)).

Definition beyond_negative (axis : Z) (v : Vertex) : Prop :=
  (0 < w4 (clipCoord v) /\ Vec4f_get (clipCoord v) axis < - w4 (clipCoord v))
  \/ (w4 (clipCoord v) < 0 /\ - w4 (clipCoord v) < Vec4f_get (clipCoord v) axis).

(* ------------------------------------------------------------------ *)
(** ** The driver: Phong shader, shadow lookup *)

(** The offset [0.005f] added to the fragment's light-space depth. *)
Definition shadow_bias : Q := 5 # 1000.

Section ShaderShadow.

Variable uShadowBuffer : list Q.
Variables uShadowBufferWidth uShadowBufferHeight : Z.

(** The body of the loop over [dy] in [Shader::fragment]; the state is the
    pair of [shadow] and [cntSample]. *)
Definition shadow_dy (lightSpacePos : Vec3f) (sampleX : Z) (acc : Q * Z) (dy : Z)
  : Q * Z :=
  let sampleY := float_to_int (y3 lightSpacePos + inject_Z dy) in
  if (sampleY <? 0)%Z || (uShadowBufferHeight <=? to_unsigned sampleY)%Z then acc
  else
    let cntSample := (snd acc + 1)%Z in
    let stored :=
      nth (Z.to_nat (to_unsigned (sampleY * uShadowBufferWidth + sampleX)))
          uShadowBuffer 0 in
    if Qltb (z3 lightSpacePos + shadow_bias) stored
    then (fst acc + 1, cntSample) else (fst acc, cntSample).

(** The body of the loop over [dx]. *)
Definition shadow_dx (lightSpacePos : Vec3f) (acc : Q * Z) (dx : Z) : Q * Z :=
  let sampleX := float_to_int (x3 lightSpacePos + inject_Z dx) in
  if (sampleX <? 0)%Z || (uShadowBufferWidth <=? to_unsigned sampleX)%Z then acc
  else fold_left (shadow_dy lightSpacePos sampleX) (Zrange (-2) 2) acc.

(** The shadow factor computed by [Shader::fragment] for the interpolated
    light-space position: the two loops, then [shadow /= cntSample]. *)
Definition fragment_shadow (lightSpacePos : Vec3f) : Q :=
  let '(shadow, cntSample) :=
    fold_left (shadow_dx lightSpacePos) (Zrange (-2) 2) (0, 0%Z) in
  shadow / inject_Z cntSample.

(** The 4x4 neighbourhood of the lookup.  [pcf_offsets] lists the sixteen
    offsets, [pcf_texel] is the texel a neighbour falls in, [pcf_in_bounds]
    tells whether it lies in the shadow buffer and [pcf_stored] is the depth
    stored there. *)
Definition pcf_offsets : list (Z * Z) :=
  flat_map (fun dx => map (fun dy => (dx, dy)) [-2; -1; 0; 1]%Z) [-2; -1; 0; 1]%Z.

Definition pcf_texel (lightSpacePos : Vec3f) (o : Z * Z) : Z * Z :=
  (float_to_int (x3 lightSpacePos + inject_Z (fst o)),
   float_to_int (y3 lightSpacePos + inject_Z (snd o))).

Definition pcf_in_bounds (lightSpacePos : Vec3f) (o : Z * Z) : bool :=
  let '(sx, sy) := pcf_texel lightSpacePos o in
  (0 <=? sx)%Z && (sx <? uShadowBufferWidth)%Z
  && (0 <=? sy)%Z && (sy <? uShadowBufferHeight)%Z.

Definition pcf_stored (lightSpacePos : Vec3f) (o : Z * Z) : Q :=
  let '(sx, sy) := pcf_texel lightSpacePos o in
  nth (Z.to_nat (to_unsigned (sy * uShadowBufferWidth + sx))) uShadowBuffer 0.

End ShaderShadow.

(** The stored depth is closer (larger) than the fragment's depth plus the
    bias. *)
Definition closer_than_plus_bias (stored depth : Q) : bool :=
  Qltb (depth + shadow_bias) stored.

(* ------------------------------------------------------------------ *)
(** ** The driver: constants and buffer initialisation *)

Definition SCREEN_WIDTH : Z := 800.
Definition SCREEN_HEIGHT : Z := 800.
Definition SHADOW_WIDTH : Z := 800.
Definition SHADOW_HEIGHT : Z := 800.

Definition CNT_SAMPLE : Z := 4.

Definition D_MSAA : list (Q * Q) :=
  [ (1 # 4, 1 # 4); (1 # 4, 3 # 4);
    (3 # 4, 1 # 4); (3 # 4, 3 # 4) ].

Definition D_NonMSAA : list (Q * Q) := [ (0, 0) ].

(** [std::numeric_limits<float>::max()]: the largest finite binary32 number,
    (2^24 - 1) * 2^104. *)
Definition numeric_limits_float_max : spec_float := SFmax_float 24 128.

(** The four buffers allocated by [main].  Depths are kept as IEEE-754 data
    here, since [main] only stores a constant of the format in them. *)
Record Buffers := mkBuffers {
  main_zBuffer : list spec_float;
  main_colorBuffer : list Vec3f;
  shadowZBuffer : list spec_float;
  shadowColorBuffer : list Vec3f
}.

(** [new T[n]]: [n] slots of indeterminate content, given by [junk]. *)
Definition new_array {T : Type} (n : Z) (junk : nat -> T) : list T :=
  map junk (seq 0 (Z.to_nat n)).

Section MainInit.

Variables width height cntSample : Z.

(** The body of the inner loop (over [j]) of the initialisation. *)
Definition init_sample (i : Z) (b : Buffers) (j : Z) : Buffers :=
  let idx := Z.to_nat (to_unsigned (cntSample * i + j)) in
  mkBuffers (list_set (main_zBuffer b) idx (SFopp numeric_limits_float_max))
            (list_set (main_colorBuffer b) idx (mkVec3f 0 0 0))
            (shadowZBuffer b) (shadowColorBuffer b).

(** The body of the outer loop (over [i]). *)
Definition init_pixel (b : Buffers) (i : Z) : Buffers :=
  let b := fold_left (init_sample i) (Zrange 0 cntSample) b in
  mkBuffers (main_zBuffer b) (main_colorBuffer b)
            (list_set (shadowZBuffer b) (Z.to_nat i) (SFopp numeric_limits_float_max))
            (list_set (shadowColorBuffer b) (Z.to_nat i) (mkVec3f 0 0 0)).

(** Allocation of the four buffers followed by the initialisation loops. *)
Definition init_buffers (jz js : nat -> spec_float) (jc jsc : nat -> Vec3f)
  : Buffers :=
  let b := mkBuffers (new_array (width * height * cntSample) jz)
                     (new_array (width * height * cntSample) jc)
                     (new_array (width * height) js)
                     (new_array (width * height) jsc) in
  fold_left init_pixel (Zrange 0 (width * height)) b.

End MainInit.

(** The buffers as [main] hands them to the shadow pass ([shadowZBuffer],
    [shadowColorBuffer], one sample per pixel) and then to the lit pass
    ([main_zBuffer], [main_colorBuffer], [CNT_SAMPLE] samples per pixel). *)
Definition main_buffers (jz js : nat -> spec_float) (jc jsc : nat -> Vec3f) : Buffers :=
  init_buffers SCREEN_WIDTH SCREEN_HEIGHT CNT_SAMPLE jz js jc jsc.

(* ------------------------------------------------------------------ *)
(** ** geometry.h: the 4x4 [Matrix] and the tables of varyings *)


Definition Vec3f_set (v : Vec3f) (i : Z) (a : Q) : Vec3f :=
  if (i <=? 0)%Z then mkVec3f a (y3 v) (z3 v)
  else if (1 =? i)%Z then mkVec3f (x3 v) a (z3 v)
  else mkVec3f (x3 v) (y3 v) a.

Definition div3 (l : Vec3f) (r : Q) := mkVec3f (x3 l / r) (y3 l / r) (z3 l / r).



Definition dot4 (lhs rhs : Vec4f) : Q :=
  0 + w4 lhs * w4 rhs + z4 lhs * z4 rhs + y4 lhs * y4 rhs + x4 lhs * x4 rhs.

(** [mat<4,4,float>]: four rows. *)
Record Matrix := mkMatrix { row_0 : Vec4f; row_1 : Vec4f; row_2 : Vec4f; row_3 : Vec4f }.

(** [mat::operator[]]; its assertion [idx < 4] holds at every use. *)
Definition Matrix_row (m : Matrix) (idx : Z) : Vec4f :=
  if (idx <=? 0)%Z then row_0 m else if (1 =? idx)%Z then row_1 m
  else if (2 =? idx)%Z then row_2 m else row_3 m.

(** [m[i][j] = a]. *)
Definition Matrix_set (m : Matrix) (i j : Z) (a : Q) : Matrix :=
  let r := Vec4f_set (Matrix_row m i) j a in
  if (i <=? 0)%Z then mkMatrix r (row_1 m) (row_2 m) (row_3 m)
  else if (1 =? i)%Z then mkMatrix (row_0 m) r (row_2 m) (row_3 m)
  else if (2 =? i)%Z then mkMatrix (row_0 m) (row_1 m) r (row_3 m)
  else mkMatrix (row_0 m) (row_1 m) (row_2 m) r.

(** [mat::col]. *)
Definition Matrix_col (m : Matrix) (idx : Z) : Vec4f :=
  mkVec4f (Vec4f_get (row_0 m) idx) (Vec4f_get (row_1 m) idx)
          (Vec4f_get (row_2 m) idx) (Vec4f_get (row_3 m) idx).

(** [Matrix ret;]: the rows are default-constructed, all zero. *)
Definition Matrix_zero : Matrix :=
  mkMatrix (mkVec4f 0 0 0 0) (mkVec4f 0 0 0 0) (mkVec4f 0 0 0 0) (mkVec4f 0 0 0 0).

(** [Matrix::identity()]: [ret[i][j] = (i == j)]. *)
Definition Matrix_identity : Matrix :=
  mkMatrix (mkVec4f 1 0 0 0) (mkVec4f 0 1 0 0) (mkVec4f 0 0 1 0) (mkVec4f 0 0 0 1).

(** [operator*] of a matrix and a vector: [ret[i] = dot(lhs[i], rhs)]. *)
Definition mul_mv (lhs : Matrix) (rhs : Vec4f) : Vec4f :=
  mkVec4f (dot4 (row_0 lhs) rhs) (dot4 (row_1 lhs) rhs)
          (dot4 (row_2 lhs) rhs) (dot4 (row_3 lhs) rhs).

(** [operator*] of two matrices: [result[i][j] = dot(lhs[i], rhs.col(j))]. *)
Definition mul_mm (lhs rhs : Matrix) : Matrix :=
  let line (l : Vec4f) :=
    mkVec4f (dot4 l (Matrix_col rhs 0)) (dot4 l (Matrix_col rhs 1))
            (dot4 l (Matrix_col rhs 2)) (dot4 l (Matrix_col rhs 3)) in
  mkMatrix (line (row_0 lhs)) (line (row_1 lhs)) (line (row_2 lhs)) (line (row_3 lhs)).








(* ------------------------------------------------------------------ *)
(** ** gl.cpp: the transformations *)

Definition ortho (l r b t n f : Q) : Matrix :=
  let ret := Matrix_identity in
  let ret := Matrix_set ret 0 0 (2 / (r - l)) in
  let ret := Matrix_set ret 1 1 (2 / (t - b)) in
  let ret := Matrix_set ret 2 2 (2 / (n - f)) in
  let ret := Matrix_set ret 0 3 ((l + r) / (l - r)) in
  let ret := Matrix_set ret 1 3 ((b + t) / (b - t)) in
  let ret := Matrix_set ret 2 3 ((n + f) / (f - n)) in
  ret.

Definition perspective (n f : Q) : Matrix :=
  let ret := Matrix_zero in
  let ret := Matrix_set ret 0 0 n in
  let ret := Matrix_set ret 1 1 n in
  let ret := Matrix_set ret 2 2 (n + f) in
  let ret := Matrix_set ret 2 3 (- f * n) in
  let ret := Matrix_set ret 3 2 1 in
  ret.

(** [projection(fov, ratio, n, f)]; the value of [tanf(fov / 2)] is the
    argument [tan_half_fov]. *)
Definition projection (tan_half_fov ratio n f : Q) : Matrix :=
  let t := (- n) * tan_half_fov in
  let r := t * ratio in
  mul_mm (ortho (- r) r (- t) t n f) (perspective n f).

(** [viewport(width, height)]; [width - 1] is computed in [unsigned].  The
    conversions of the two [unsigned] to [float] are exact up to 2^24, the
    range to which the properties of [viewport] are stated. *)
Definition viewport (width height : Z) : Matrix :=
  let ret := Matrix_identity in
  let ret := Matrix_set ret 0 0 (inject_Z width / 2) in
  let ret := Matrix_set ret 1 1 (inject_Z height / 2) in
  let ret := Matrix_set ret 0 3 (inject_Z (to_unsigned (width - 1)) / 2) in
  let ret := Matrix_set ret 1 3 (inject_Z (to_unsigned (height - 1)) / 2) in
  ret.

(* ------------------------------------------------------------------ *)
(** ** The driver: the vertex stages and the interpolation of the varyings *)









(* ------------------------------------------------------------------ *)
(** ** tgaimage.h, tgaimage.cpp: colours and images *)

(** [TGAColor]: the four bytes [bgra] and the number of bytes in use. *)
Record TGAColor := mkTGAColor { bgra : list Z; bytespp : Z }.

(** [TGAColor()]. *)
Definition TGAColor_default : TGAColor := mkTGAColor [0; 0; 0; 0]%Z 0.

(** [TGAColor(R, G, B, A)]. *)
Definition TGAColor_rgba (R G B A : Z) : TGAColor := mkTGAColor [B; G; R; A] 4.

(** [TGAColor(p, bpp)]: the first [bpp] bytes found at offset [p] of
    [data], the others zero. *)
Definition TGAColor_at (data : list Z) (p : Z) (bpp : Z) : TGAColor :=
  mkTGAColor
    (map (fun i => if (i <? bpp)%Z then nth (Z.to_nat (p + i)) data 0%Z else 0%Z)
         [0; 1; 2; 3]%Z)
    bpp.

(** [TGAColor::rgb]. *)
Definition TGAColor_rgb (c : TGAColor) : Vec3f :=
  mkVec3f (inject_Z (nth 2 (bgra c) 0%Z)) (inject_Z (nth 1 (bgra c) 0%Z))
          (inject_Z (nth 0 (bgra c) 0%Z)).

(** [TGAImage]: the bytes of the pixels, row after row, and the sizes. *)
Record TGAImage := mkTGAImage {
  data : list Z;
  img_width : Z;
  img_height : Z;
  img_bytespp : Z
}.

(** [TGAImage(w, h, bpp)]: [w * h * bpp] zero bytes. *)
Definition TGAImage_new (w h bpp : Z) : TGAImage :=
  mkTGAImage (repeat 0%Z (Z.to_nat (w * h * bpp))) w h bpp.

(** [!data.size() || x < 0 || y < 0 || x >= width || y >= height]. *)
Definition TGAImage_outside (img : TGAImage) (x y : Z) : bool :=
  (Nat.eqb (length (data img)) 0) || (x <? 0)%Z || (y <? 0)%Z
  || (img_width img <=? x)%Z || (img_height img <=? y)%Z.

Definition TGAImage_get (img : TGAImage) (x y : Z) : TGAColor :=
  if TGAImage_outside img x y then TGAColor_default
  else TGAColor_at (data img) ((x + y * img_width img) * img_bytespp img)
                   (img_bytespp img).

(** [memcpy(dst + p, src, n)]. *)
Definition memcpy (dst : list Z) (p : Z) (src : list Z) (n : Z) : list Z :=
  fold_left (fun d i => list_set d (Z.to_nat (p + i)) (nth (Z.to_nat i) src 0%Z))
            (Zrange 0 n) dst.

Definition TGAImage_set (img : TGAImage) (x y : Z) (c : TGAColor) : TGAImage :=
  if TGAImage_outside img x y then img
  else mkTGAImage (memcpy (data img) ((x + y * img_width img) * img_bytespp img)
                          (bgra c) (img_bytespp img))
                  (img_width img) (img_height img) (img_bytespp img).

(** An image as the constructor and the readers build it: positive sizes,
    one to four bytes per pixel, and as many bytes as the sizes tell. *)
Definition TGAImage_wf (img : TGAImage) : Prop :=
  (0 < img_width img /\ 0 < img_height img /\ 1 <= img_bytespp img <= 4
   /\ Z.of_nat (length (data img)) = img_width img * img_height img * img_bytespp img)%Z.

(* ------------------------------------------------------------------ *)
(** ** The driver: resolving the samples into the image *)

(** [std::numeric_limits<float>::max()] as a number. *)
Definition FLT_MAX : Q := inject_Z ((2 ^ 24 - 1) * 2 ^ 104).

(** Conversion of a float to [std::uint8_t]: truncation.  Outside
    [0, 256) the conversion is undefined in C++; the model keeps the low
    byte of the conversion to [int]. *)
Definition float_to_uint8 (f : Q) : Z := (float_to_int f mod 256)%Z.

Section WriteFrame.

Variable zBuffer : list Q.
Variable colorBuffer : list Vec3f.
Variable cntSample : Z.

(** The body of the loop over the samples of the pixel [(x, y)] of an
    image of width [width]. *)
Definition resolve_sample (width x y : Z) (color : Vec3f) (i : Z) : Vec3f :=
  let idx := Z.to_nat (to_unsigned (cntSample * (y * width + x) + i)) in
  if Qltb (- FLT_MAX) (nth idx zBuffer 0)
  then add3 color (nth idx colorBuffer (mkVec3f 0 0 0))
  else color.

(** The colour of the pixel: the sum over its written samples, divided by
    the number of samples. *)
Definition resolve_pixel (width x y : Z) : Vec3f :=
  let color := fold_left (resolve_sample width x y) (Zrange 0 cntSample)
                         (mkVec3f 0 0 0) in
  div3 color (inject_Z cntSample).

Definition writeFrame_pixel (x : Z) (frame : TGAImage) (y : Z) : TGAImage :=
  let color := resolve_pixel (img_width frame) x y in
  TGAImage_set frame x y
    (TGAColor_rgba (float_to_uint8 (x3 color)) (float_to_uint8 (y3 color))
                   (float_to_uint8 (z3 color)) 255).

Definition writeFrame (frame : TGAImage) : TGAImage :=
  fold_left (fun frame x =>
               fold_left (writeFrame_pixel x) (Zrange 0 (img_height frame)) frame)
            (Zrange 0 (img_width frame)) frame.

End WriteFrame.

(** [writeDepth]. *)
Definition writeDepth_pixel (colorBuffer : list Vec3f) (x : Z) (depth : TGAImage)
           (y : Z) : TGAImage :=
  let color := nth (Z.to_nat (to_unsigned (y * img_width depth + x))) colorBuffer
                   (mkVec3f 0 0 0) in
  TGAImage_set depth x y
    (TGAColor_rgba (float_to_uint8 (x3 color)) (float_to_uint8 (y3 color))
                   (float_to_uint8 (z3 color)) 255).

Definition writeDepth (depth : TGAImage) (colorBuffer : list Vec3f) : TGAImage :=
  fold_left (fun depth x =>
               fold_left (writeDepth_pixel colorBuffer x)
                         (Zrange 0 (img_height depth)) depth)
            (Zrange 0 (img_width depth)) depth.

(* ------------------------------------------------------------------ *)
(** ** model.cpp: sampling the textures *)

(** [Model::diffuse]: the texel of the diffuse map under [uvf]. *)
Definition Model_diffuse (diffusemap : TGAImage) (uvf : Vec2f) : TGAColor :=
  TGAImage_get diffusemap
               (float_to_int (x2 uvf * inject_Z (img_width diffusemap)))
               (float_to_int (y2 uvf * inject_Z (img_height diffusemap))).

(** [Model::normal(uvf)]: the texel of the normal map, its bytes mapped
    from [0, 255] to [-1, 1] and taken in the order r, g, b. *)
Definition Model_normal (normalmap : TGAImage) (uvf : Vec2f) : Vec3f :=
  let c := TGAImage_get normalmap
                        (float_to_int (x2 uvf * inject_Z (img_width normalmap)))
                        (float_to_int (y2 uvf * inject_Z (img_height normalmap))) in
  fold_left (fun res i =>
               Vec3f_set res (2 - i)
                         (inject_Z (nth (Z.to_nat i) (bgra c) 0%Z) / 255 * 2 - 1))
            (Zrange 0 3) (mkVec3f 0 0 0).

(** [Model::specular]. *)
Definition Model_specular (specularmap : TGAImage) (uvf : Vec2f) : Q :=
  inject_Z (nth 0 (bgra (TGAImage_get specularmap
                           (float_to_int (x2 uvf * inject_Z (img_width specularmap)))
                           (float_to_int (y2 uvf * inject_Z (img_height specularmap)))))
                0%Z).

(* ------------------------------------------------------------------ *)
(** ** tgaimage.cpp: run-length encoding *)

(** [n] bytes of a buffer from the offset [p] on, as [out.write(data + p, n)]
    sends them. *)
Definition bytes_from (data : list Z) (p n : Z) : list Z :=
  map (fun t => nth (Z.to_nat (p + t)) data 0%Z) (Zrange 0 n).

Section Unload.

Variable data : list Z.
Variables npixels bytespp : Z.

(** The loop [for (t = 0; succ_eq && t < bytespp; t++)]: the pixel at
    [curbyte] and its successor have the same bytes. *)
Definition succ_eq (curbyte : Z) : bool :=
  forallb (fun t => (nth (Z.to_nat (curbyte + t)) data 0
                     =? nth (Z.to_nat (curbyte + t + bytespp)) data 0)%Z)
          (Zrange 0 bytespp).

(** The inner loop of [unload_rle_data] from the pixel [curpix]: the
    length of the packet and whether it is a raw packet.  [fuel] bounds the
    number of iterations; nothing is returned when it runs out. *)
Fixpoint run_scan (fuel : nat) (curpix run_length curbyte : Z) (raw : bool)
  : option (Z * bool) :=
  if ((curpix + run_length <? npixels) && (run_length <? 128))%Z then
    match fuel with
    | O => None
    | S fuel' =>
        let succ := succ_eq curbyte in
        let curbyte := (curbyte + bytespp)%Z in
        let raw := if (1 =? run_length)%Z then negb succ else raw in
        if raw && succ then Some ((run_length - 1)%Z, raw)
        else if negb raw && negb succ then Some (run_length, raw)
        else run_scan fuel' curpix (run_length + 1)%Z curbyte raw
    end
  else Some (run_length, raw).

(** The outer loop: the packets from the pixel [curpix] on, appended to
    [out]. *)
Fixpoint unload_chunks (fuel : nat) (curpix : Z) (out : list Z) : option (list Z) :=
  if (curpix <? npixels)%Z then
    match fuel with
    | O => None
    | S fuel' =>
        let chunkstart := (curpix * bytespp)%Z in
        match run_scan 128 curpix 1 (curpix * bytespp)%Z true with
        | None => None
        | Some (run_length, raw) =>
            let out := out ++ [if raw then run_length - 1 else run_length + 127]%Z in
            let out :=
              out ++ bytes_from data chunkstart
                                (if raw then run_length * bytespp else bytespp)%Z in
            unload_chunks fuel' (curpix + run_length)%Z out
        end
    end
  else Some out.

End Unload.

(** [unload_rle_data]: the bytes written to the stream. *)
Definition unload_rle_data (img : TGAImage) : option (list Z) :=
  let npixels := (img_width img * img_height img)%Z in
  unload_chunks (data img) npixels (img_bytespp img) (Z.to_nat npixels) 0 [].

(** The state of [load_rle_data]: what is left of the stream, the pixel
    bytes, and the two counters. *)
Record LoadState := mkLoadState {
  load_in : list Z;
  load_data : list Z;
  currentpixel : Z;
  currentbyte : Z
}.

Section Load.

Variables pixelcount bytespp : Z.

(** [in.read(colorbuffer.bgra, bytespp)]: nothing when the stream is too
    short, else the bytes read and the rest of the stream. *)
Definition read_pixel (input : list Z) : option (list Z * list Z) :=
  if (Z.of_nat (length input) <? bytespp)%Z then None
  else Some (firstn (Z.to_nat bytespp) input, skipn (Z.to_nat bytespp) input).

(** The bytes of [colorbuffer] stored at [currentbyte], one pixel counted;
    nothing ([return false]) when too many pixels have been read. *)
Definition store_pixel (st : LoadState) (colorbuffer : list Z) : option LoadState :=
  let data := memcpy (load_data st) (currentbyte st) colorbuffer bytespp in
  let pixel := (currentpixel st + 1)%Z in
  if (pixelcount <? pixel)%Z then None
  else Some (mkLoadState (load_in st) data pixel (currentbyte st + bytespp)%Z).

(** The loop of a raw packet of [count] pixels. *)
Fixpoint load_raw (count : nat) (st : LoadState) : option LoadState :=
  match count with
  | O => Some st
  | S count' =>
      match read_pixel (load_in st) with
      | None => None
      | Some (colorbuffer, rest) =>
          match store_pixel (mkLoadState rest (load_data st) (currentpixel st)
                                         (currentbyte st)) colorbuffer with
          | None => None
          | Some st' => load_raw count' st'
          end
      end
  end.

(** The loop of a run-length packet: [count] copies of [colorbuffer]. *)
Fixpoint load_run (count : nat) (colorbuffer : list Z) (st : LoadState)
  : option LoadState :=
  match count with
  | O => Some st
  | S count' =>
      match store_pixel st colorbuffer with
      | None => None
      | Some st' => load_run count' colorbuffer st'
      end
  end.

(** One packet: the header byte, then the pixels. *)
Definition load_chunk (st : LoadState) : option LoadState :=
  match load_in st with
  | [] => None
  | chunkheader :: rest =>
      let st := mkLoadState rest (load_data st) (currentpixel st) (currentbyte st) in
      if (chunkheader <? 128)%Z then load_raw (Z.to_nat (chunkheader + 1)) st
      else
        match read_pixel rest with
        | None => None
        | Some (colorbuffer, rest') =>
            load_run (Z.to_nat (chunkheader - 127)) colorbuffer
                     (mkLoadState rest' (load_data st) (currentpixel st)
                                  (currentbyte st))
        end
  end.

(** The loop [do ... while (currentpixel < pixelcount)].  The result is
    the state with which the function returns [true], or nothing when it
    returns [false]; no result at all when the [fuel] runs out. *)
Fixpoint load_chunks (fuel : nat) (st : LoadState) : option (option LoadState) :=
  match fuel with
  | O => None
  | S fuel' =>
      match load_chunk st with
      | None => Some None
      | Some st' =>
          if (currentpixel st' <? pixelcount)%Z then load_chunks fuel' st'
          else Some (Some st')
      end
  end.

End Load.

(** [load_rle_data] on an image whose pixel bytes are allocated: whether
    it succeeds, the image and the rest of the stream. *)
Definition load_rle_data (img : TGAImage) (input : list Z)
  : option (option (TGAImage * list Z)) :=
  match load_chunks (img_width img * img_height img) (img_bytespp img)
                    (S (length input)) (mkLoadState input (data img) 0 0) with
  | None => None
  | Some None => Some None
  | Some (Some st) =>
      Some (Some (mkTGAImage (load_data st) (img_width img) (img_height img)
                             (img_bytespp img), load_in st))
  end.


(* ------------------------------------------------------------------ *)
(** ** tgaimage.cpp: flipping an image *)

(** [std::copy(src.begin() + first, src.begin() + last, dst.begin() + d_first)]
    from one vector into another: the elements are copied one by one, in
    increasing order. *)
Definition std_copy (src : list Z) (first last : Z) (dst : list Z) (d_first : Z)
  : list Z :=
  fold_left (fun d i => list_set d (Z.to_nat (d_first + i))
                                 (nth (Z.to_nat (first + i)) src 0%Z))
            (Zrange 0 (last - first)) dst.

(** The same within one vector: every element is read from the vector as
    the copies made so far have left it. *)
Definition std_copy_within (data : list Z) (first last d_first : Z) : list Z :=
  fold_left (fun d i => list_set d (Z.to_nat (d_first + i))
                                 (nth (Z.to_nat (first + i)) d 0%Z))
            (Zrange 0 (last - first)) data.

(** The body of the loop of [flip_vertically]; the state is [data] and the
    buffer [line]. *)
Definition flip_line (height bytes_per_line : Z) (st : list Z * list Z) (j : Z)
  : list Z * list Z :=
  let '(data, line) := st in
  let l1 := (j * bytes_per_line)%Z in
  let l2 := ((height - 1 - j) * bytes_per_line)%Z in
  let line := std_copy data l1 (l1 + bytes_per_line) line 0 in
  let data := std_copy_within data l2 (l2 + bytes_per_line) l1 in
  let data := std_copy line 0 (Z.of_nat (length line)) data l2 in
  (data, line).

Definition flip_vertically (img : TGAImage) : TGAImage :=
  if Nat.eqb (length (data img)) 0 then img
  else
    let bytes_per_line := (img_width img * img_bytespp img)%Z in
    let line := repeat 0%Z (Z.to_nat bytes_per_line) in
    let half := Z.shiftr (img_height img) 1 in
    let '(data, _) :=
      fold_left (flip_line (img_height img) bytes_per_line) (Zrange 0 half)
                (data img, line) in
    mkTGAImage data (img_width img) (img_height img) (img_bytespp img).

(** [TGAImage::flip_horizontally]: one exchange of two pixels of a row. *)
Definition flip_pixel (i : Z) (img : TGAImage) (j : Z) : TGAImage :=
  let c1 := TGAImage_get img i j in
  let c2 := TGAImage_get img (img_width img - 1 - i) j in
  let img := TGAImage_set img i j c2 in
  TGAImage_set img (img_width img - 1 - i) j c1.

Definition flip_horizontally (img : TGAImage) : TGAImage :=
  if Nat.eqb (length (data img)) 0 then img
  else let half := Z.shiftr (img_width img) 1 in
       fold_left (fun img i => fold_left (flip_pixel i) (Zrange 0 (img_height img)) img)
                 (Zrange 0 half) img.

(* ------------------------------------------------------------------ *)
(** ** The kernels on binary32 numbers *)

(** Where rounding, an infinity, a NaN or the state of the shader object
    decides a property, the kernel is modelled on IEEE-754 binary32 data
    ([spec_float] with 24 bits of precision and exponent bound 128): every
    C++ operation on [float] is one correctly rounded operation, in the
    order in which the source writes them. *)
Module F32.

Definition add : spec_float -> spec_float -> spec_float := SFadd 24 128.
Definition sub : spec_float -> spec_float -> spec_float := SFsub 24 128.
Definition mul : spec_float -> spec_float -> spec_float := SFmul 24 128.
Definition div : spec_float -> spec_float -> spec_float := SFdiv 24 128.
Definition sqrt : spec_float -> spec_float := SFsqrt 24 128.
Definition ltb : spec_float -> spec_float -> bool := SFltb.

(** Conversion of an [int] to [float]: rounding to nearest. *)
Definition of_int (n : Z) : spec_float := binary_normalize 24 128 n 0 false.

(** The literals [0.0f], [1.0f], [0.5f] and [0.005f]. *)
Definition zero : spec_float := S754_zero false.
Definition one : spec_float := Eval vm_compute in of_int 1.
Definition half : spec_float := Eval vm_compute in div (of_int 1) (of_int 2).
Definition shadow_bias : spec_float := Eval vm_compute in div (of_int 5) (of_int 1000).

(** [int(f)]: truncation toward zero.  For a NaN, an infinity or a value
    outside the range of [int] the conversion is undefined in C++; the model
    takes the value of the x86 conversion instruction ([INT_MIN]). *)
Definition float_to_int (f : spec_float) : Z :=
  match f with
  | S754_zero _ => 0
  | S754_finite s m e =>
      let t := Z.shiftl (Zpos m) e in
      let t := if s then (- t)%Z else t in
      if (INT_MIN <=? t)%Z && (t <=? INT_MAX)%Z then t else INT_MIN
  | _ => INT_MIN
  end.

(** Promotion of a [float] to [double] (exact), and the [double] literal
    [1e-5] with which [barycentric] compares. *)
Definition to_double (f : spec_float) : spec_float :=
  match f with
  | S754_finite s m e => binary_round 53 1024 s m e
  | _ => f
  end.

Definition bary_eps : spec_float :=
  Eval vm_compute in
    SFdiv 53 1024 (binary_normalize 53 1024 1 0 false)
                  (binary_normalize 53 1024 100000 0 false).

(** *** geometry.h: vectors *)

Record Vec2f := mkVec2f { x2 : spec_float; y2 : spec_float }.
Record Vec3f := mkVec3f { x3 : spec_float; y3 : spec_float; z3 : spec_float }.
Record Vec4f := mkVec4f { x4 : spec_float; y4 : spec_float; z4 : spec_float;
                          w4 : spec_float }.

Definition Vec4f_get (v : Vec4f) (i : Z) : spec_float :=
  if (i <=? 0)%Z then x4 v else if (1 =? i)%Z then y4 v
  else if (2 =? i)%Z then z4 v else w4 v.

Definition proj_2 (v : Vec4f) : Vec2f := mkVec2f (x4 v) (y4 v).

Definition cross (v1 v2 : Vec3f) : Vec3f :=
  mkVec3f (sub (mul (y3 v1) (z3 v2)) (mul (z3 v1) (y3 v2)))
          (sub (mul (z3 v1) (x3 v2)) (mul (x3 v1) (z3 v2)))
          (sub (mul (x3 v1) (y3 v2)) (mul (y3 v1) (x3 v2))).

(** [vec<3,T>::norm] and [vec<3,T>::normalize], with [l = 1]. *)
Definition norm (v : Vec3f) : spec_float :=
  sqrt (add (add (mul (x3 v) (x3 v)) (mul (y3 v) (y3 v))) (mul (z3 v) (z3 v))).

Definition normalize (v : Vec3f) : Vec3f :=
  let k := div one (norm v) in
  mkVec3f (mul (x3 v) k) (mul (y3 v) k) (mul (z3 v) k).

(** *** gl.cpp: barycentric coordinates *)

(** The [u.z] of the cross product of [barycentric]; it does not depend on
    the point [P]. *)
Definition bary_denominator (A B C : Vec2f) : spec_float :=
  sub (mul (sub (x2 B) (x2 A)) (sub (y2 C) (y2 A)))
      (mul (sub (x2 C) (x2 A)) (sub (y2 B) (y2 A))).

(** The test [fabs(u.z) < 1e-5], a comparison in [double]. *)
Definition near_zero (uz : spec_float) : bool :=
  ltb (to_double (SFabs uz)) bary_eps.

Definition barycentric (A B C P : Vec2f) : Vec3f :=
  let t0 := mkVec3f (sub (x2 B) (x2 A)) (sub (x2 C) (x2 A)) (sub (x2 A) (x2 P)) in
  let t1 := mkVec3f (sub (y2 B) (y2 A)) (sub (y2 C) (y2 A)) (sub (y2 A) (y2 P)) in
  let u := cross t0 t1 in
  if near_zero (z3 u) then mkVec3f (SFopp one) zero zero
  else mkVec3f (sub one (div (add (x3 u) (y3 u)) (z3 u)))
               (div (x3 u) (z3 u)) (div (y3 u) (z3 u)).

(** *** gl.h: the shader interface *)

(** [virtual bool fragment(Vec3f bar, Vec3f &color)] is not a [const]
    method: besides its verdict and the value it leaves in [color], a call
    may change the members of the shader object.  [Self] is the type of
    what the calls may change in the object. *)
Record IShader (Self : Type) := mkIShader {
  fragment : Self -> Vec3f -> Vec3f -> bool * Vec3f * Self
}.
Arguments fragment {Self}.
Arguments mkIShader {Self}.

(** *** gl.cpp: the rasteriser *)

Record Raster := mkRaster {
  colorBuffer : list Vec3f;
  zBuffer : list spec_float
}.

Definition store (r : Raster) (idx : Z) (color : Vec3f) (z : spec_float) : Raster :=
  mkRaster (list_set (colorBuffer r) (Z.to_nat idx) color)
           (list_set (zBuffer r) (Z.to_nat idx) z).

Section Triangle.

Variable Self : Type.
Variable screenCoords : Vec4f * Vec4f * Vec4f.
Variable shader : IShader Self.
Variables width height : Z.
Variable d : list (spec_float * spec_float).
Variable cntSample : Z.

Definition vert0 : Vec4f := fst (fst screenCoords).
Definition vert1 : Vec4f := snd (fst screenCoords).
Definition vert2 : Vec4f := snd screenCoords.

Definition bbox_scan (j : Z) (acc : Z * Z) (v : Vec4f) : Z * Z :=
  let c := float_to_int (Vec4f_get v j) in
  (Z.min (fst acc) c, Z.max (snd acc) c).

Definition bbox_axis (j : Z) (extent : Z) : Z * Z :=
  let '(lo, hi) :=
    fold_left (bbox_scan j) [vert0; vert1; vert2]
              (to_int (extent - 1), 0%Z) in
  (Z.max 0 lo, Z.min (to_int (extent - 1)) hi).

Definition bboxmin_x : Z := fst (bbox_axis 0 width).
Definition bboxmax_x : Z := snd (bbox_axis 0 width).
Definition bboxmin_y : Z := fst (bbox_axis 1 height).
Definition bboxmax_y : Z := snd (bbox_axis 1 height).

Definition tri_A : Vec2f := proj_2 vert0.
Definition tri_B : Vec2f := proj_2 vert1.
Definition tri_C : Vec2f := proj_2 vert2.

(** [Vec2f sample(x + d[i][0], y + d[i][1])]: the [int] is converted to
    [float] before the addition. *)
Definition sample_point (x y i : Z) : Vec2f :=
  let o := nth (Z.to_nat i) d (zero, zero) in
  mkVec2f (add (of_int x) (fst o)) (add (of_int y) (snd o)).

Definition sample_bar (x y i : Z) : Vec3f :=
  barycentric tri_A tri_B tri_C (sample_point x y i).

(** The interpolated [w] of a sample, before [w = 1.0f / w]. *)
Definition sample_w (x y i : Z) : spec_float :=
  let barSample := sample_bar x y i in
  add (add (mul (w4 vert0) (x3 barSample)) (mul (w4 vert1) (y3 barSample)))
      (mul (w4 vert2) (z3 barSample)).

Definition sample_depth (x y i : Z) : spec_float :=
  let barSample := sample_bar x y i in
  let w := div one (sample_w x y i) in
  let z := add (add (mul (z4 vert0) (x3 barSample)) (mul (z4 vert1) (y3 barSample)))
               (mul (z4 vert2) (z3 barSample)) in
  mul z w.

Definition sample_outside (x y i : Z) : bool :=
  let barSample := sample_bar x y i in
  ltb (x3 barSample) zero || ltb (y3 barSample) zero || ltb (z3 barSample) zero.

(** [Vec2f(x + 0.5f, y + 0.5f)]. *)
Definition pixel_center (x y : Z) : Vec2f :=
  mkVec2f (add (of_int x) half) (add (of_int y) half).

(** The loop over the samples of the pixel [(x, y)]; [covered] and [color]
    are the locals of the pixel and [self] is the shader object. *)
Fixpoint sample_loop (x y : Z) (samples : list Z) (covered : bool)
         (color : Vec3f) (r : Raster) (self : Self) : Raster * Self :=
  match samples with
  | [] => (r, self)
  | i :: rest =>
      let z := sample_depth x y i in
      let idx := sample_index width cntSample x y i in
      if sample_outside x y i || ltb z (nth (Z.to_nat idx) (zBuffer r) zero)
      then sample_loop x y rest covered color r self
      else if covered then
        sample_loop x y rest covered color (store r idx color z) self
      else
        let barMiddle := barycentric tri_A tri_B tri_C (pixel_center x y) in
        match fragment shader self barMiddle color with
        | (false, _, self') => (r, self')
        | (true, color', self') =>
            sample_loop x y rest true color' (store r idx color' z) self'
        end
  end.

Definition pixel (x : Z) (st : Raster * Self) (y : Z) : Raster * Self :=
  sample_loop x y (Zrange 0 cntSample) false (mkVec3f zero zero zero) (fst st) (snd st).

Definition column (st : Raster * Self) (x : Z) : Raster * Self :=
  fold_left (pixel x) (Zrange bboxmin_y (bboxmax_y + 1)) st.

Definition triangle (r : Raster) (self : Self) : Raster * Self :=
  fold_left column (Zrange bboxmin_x (bboxmax_x + 1)) (r, self).

(** The pixels of a call in the order of its two outer loops, and the
    loop body run over the pixels in the order [pixels], with the samples of
    the pixel [p] in the order [samples p]. *)
Definition triangle_pixels : list (Z * Z) :=
  flat_map (fun x => map (fun y => (x, y)) (Zrange bboxmin_y (bboxmax_y + 1)))
           (Zrange bboxmin_x (bboxmax_x + 1)).

Definition triangle_traverse (pixels : list (Z * Z)) (samples : Z * Z -> list Z)
           (r : Raster) (self : Self) : Raster * Self :=
  fold_left (fun st p =>
               sample_loop (fst p) (snd p) (samples p) false (mkVec3f zero zero zero)
                           (fst st) (snd st))
            pixels (r, self).

End Triangle.

(** The samples of a call in the order of its three loops. *)
Definition triangle_samples (screenCoords : Vec4f * Vec4f * Vec4f)
           (width height cntSample : Z) : list (Z * Z * Z) :=
  flat_map (fun x =>
    flat_map (fun y => map (fun i => (x, y, i)) (Zrange 0 cntSample))
      (Zrange (bboxmin_y screenCoords height) (bboxmax_y screenCoords height + 1)))
    (Zrange (bboxmin_x screenCoords width) (bboxmax_x screenCoords width + 1)).

Definition buffers (r : Raster) : list Vec3f * list spec_float :=
  (colorBuffer r, zBuffer r).

(** The update of one sample slot as a function of the two buffers: the
    depth test and the overwrite of [sample_loop] for the sample
    [(x, y, i)], with the fragment of its pixel evaluated on the shader
    object in the state [self]. *)
Definition sample_update {Self : Type} (screenCoords : Vec4f * Vec4f * Vec4f)
           (shader : IShader Self) (width : Z) (d : list (spec_float * spec_float))
           (cntSample : Z) (self : Self)
           (b : list Vec3f * list spec_float) (s : Z * Z * Z)
  : list Vec3f * list spec_float :=
  let '(x, y, i) := s in
  let z := sample_depth screenCoords d x y i in
  let idx := Z.to_nat (sample_index width cntSample x y i) in
  if sample_outside screenCoords d x y i || ltb z (nth idx (snd b) zero) then b
  else
    match fst (fragment shader self
                 (barycentric (tri_A screenCoords) (tri_B screenCoords)
                              (tri_C screenCoords) (pixel_center x y))
                 (mkVec3f zero zero zero)) with
    | (false, _) => b
    | (true, color) => (list_set (fst b) idx color, list_set (snd b) idx z)
    end.

(** The rational number that a finite binary32 datum denotes. *)
Definition value (f : spec_float) : Q :=
  match f with
  | S754_finite s m e =>
      let q := if (0 <=? e)%Z then inject_Z (Zpos m * 2 ^ e)
               else inject_Z (Zpos m) / inject_Z (2 ^ (- e)) in
      if s then - q else q
  | _ => 0
  end.

(** The verdict and the colour of a fragment do not depend on what the
    earlier calls have left in the shader object; the verdict alone does
    not. *)
Definition result_stateless {Self : Type} (shader : IShader Self) : Prop :=
  forall s s' bar color,
    fst (fragment shader s bar color) = fst (fragment shader s' bar color).

Definition verdict_stateless {Self : Type} (shader : IShader Self) : Prop :=
  forall s s' bar color,
    fst (fst (fragment shader s bar color)) = fst (fst (fragment shader s' bar color)).

(** *** The driver: the light of the Phong shader *)

(** [Vec3f lightDir = uLightPos.normalize()] in [Shader::fragment]:
    [normalize] works in place, so that every call of the fragment stage
    overwrites the member [uLightPos] with its normalisation. *)
Definition Shader_light_step (uLightPos : Vec3f) : Vec3f * Vec3f :=
  let lightDir := normalize uLightPos in (lightDir, lightDir).

(** A shader that does with its light what [Shader::fragment] does, and
    shows the direction of the light as the colour. *)
Definition light_shader : IShader Vec3f :=
  mkIShader (fun uLightPos _ _ =>
               let '(lightDir, uLightPos') := Shader_light_step uLightPos in
               (true, lightDir, uLightPos')).

(** [Vec3f lightPos(1.0f, 1.0f, 1.0f)]. *)
Definition lightPos : Vec3f := mkVec3f one one one.

(** *** The driver: the shadow lookup of the Phong shader *)

Section ShaderShadow.

Variable uShadowBuffer : list spec_float.
Variables uShadowBufferWidth uShadowBufferHeight : Z.

(** The body of the loop over [dy]; the state is the pair of [shadow] and
    [cntSample]. *)
Definition shadow_dy (lightSpacePos : Vec3f) (sampleX : Z) (acc : spec_float * Z)
           (dy : Z) : spec_float * Z :=
  let sampleY := float_to_int (add (y3 lightSpacePos) (of_int dy)) in
  if (sampleY <? 0)%Z || (uShadowBufferHeight <=? to_unsigned sampleY)%Z then acc
  else
    let cntSample := (snd acc + 1)%Z in
    let stored :=
      nth (Z.to_nat (to_unsigned (sampleY * uShadowBufferWidth + sampleX)))
          uShadowBuffer zero in
    if ltb (add (z3 lightSpacePos) shadow_bias) stored
    then (add (fst acc) one, cntSample) else (fst acc, cntSample).

Definition shadow_dx (lightSpacePos : Vec3f) (acc : spec_float * Z) (dx : Z)
  : spec_float * Z :=
  let sampleX := float_to_int (add (x3 lightSpacePos) (of_int dx)) in
  if (sampleX <? 0)%Z || (uShadowBufferWidth <=? to_unsigned sampleX)%Z then acc
  else fold_left (shadow_dy lightSpacePos sampleX) (Zrange (-2) 2) acc.

(** The two loops, then [shadow /= cntSample]. *)
Definition fragment_shadow (lightSpacePos : Vec3f) : spec_float :=
  let '(shadow, cntSample) :=
    fold_left (shadow_dx lightSpacePos) (Zrange (-2) 2) (zero, 0%Z) in
  div shadow (of_int cntSample).

(** Reference definition of percentage-closer filtering: the texel of a
    neighbour, whether it lies in the shadow buffer, the depth stored
    there, and the quotient of the two counts for a shadow test
    [in_shadow stored depth]. *)
Definition pcf_texel (lightSpacePos : Vec3f) (o : Z * Z) : Z * Z :=
  (float_to_int (add (x3 lightSpacePos) (of_int (fst o))),
   float_to_int (add (y3 lightSpacePos) (of_int (snd o)))).

Definition pcf_in_bounds (lightSpacePos : Vec3f) (o : Z * Z) : bool :=
  let '(sx, sy) := pcf_texel lightSpacePos o in
  (0 <=? sx)%Z && (sx <? uShadowBufferWidth)%Z
  && (0 <=? sy)%Z && (sy <? uShadowBufferHeight)%Z.

Definition pcf_stored (lightSpacePos : Vec3f) (o : Z * Z) : spec_float :=
  let '(sx, sy) := pcf_texel lightSpacePos o in
  nth (Z.to_nat (to_unsigned (sy * uShadowBufferWidth + sx))) uShadowBuffer zero.

Definition pcf_ratio (in_shadow : spec_float -> spec_float -> bool)
           (lightSpacePos : Vec3f) : spec_float :=
  let inb := filter (pcf_in_bounds lightSpacePos) pcf_offsets in
  let hit :=
    filter (fun o => in_shadow (pcf_stored lightSpacePos o) (z3 lightSpacePos)) inb in
  div (of_int (Z.of_nat (length hit))) (of_int (Z.of_nat (length inb))).

End ShaderShadow.

(** The z values that the buffers hold grow toward the light (larger is
    closer); the depth of a point as a distance from the light is measured
    by the opposite of its z. *)
Definition light_depth (z : spec_float) : spec_float := SFopp z.

(** The test of the specification: the stored depth is closer to the light
    (smaller) than the depth of the fragment minus the bias. *)
Definition closer_than_depth_minus_bias (stored z : spec_float) : bool :=
  ltb (light_depth stored) (sub (light_depth z) shadow_bias).

(** *** The sample-offset tables and sample inputs *)

Definition D_MSAA : list (spec_float * spec_float) :=
  Eval vm_compute in
    let q := div (of_int 1) (of_int 4) in
    let t := div (of_int 3) (of_int 4) in
    [ (q, q); (q, t); (t, q); (t, t) ].

Definition D_NonMSAA : list (spec_float * spec_float) := [ (zero, zero) ].

(** A vertex at [(x / 2^17, y / 2^17)] with depth 1/2 and w = 1. *)
Definition ex_vertex (x y : Z) : Vec4f :=
  mkVec4f (div (of_int x) (of_int (2 ^ 17))) (div (of_int y) (of_int (2 ^ 17))) half one.

(** The triangle (-1, -1), (3, -1), (-1, 3), which covers the pixels (0, 0)
    and (1, 0). *)
Definition ex_triangle : Vec4f * Vec4f * Vec4f :=
  (ex_vertex (- 2 ^ 17) (- 2 ^ 17), ex_vertex (3 * 2 ^ 17) (- 2 ^ 17),
   ex_vertex (- 2 ^ 17) (3 * 2 ^ 17)).

(** Three points of the line y = x. *)
Definition ex_flat_triangle : Vec4f * Vec4f * Vec4f :=
  (ex_vertex 0 0, ex_vertex (2 ^ 17) (2 ^ 17), ex_vertex (2 ^ 18) (2 ^ 18)).

(** Three points of the line y = 3 x:
    (1 + 5/2^17, 3 + 15/2^17), (1000, 3000) and (2 + 5/2^17, 6 + 15/2^17). *)
Definition ex_collinear_triangle : Vec4f * Vec4f * Vec4f :=
  (ex_vertex (2 ^ 17 + 5) (3 * 2 ^ 17 + 15), ex_vertex (1000 * 2 ^ 17) (3000 * 2 ^ 17),
   ex_vertex (2 ^ 18 + 5) (6 * 2 ^ 17 + 15)).

(** A shader without state that accepts every fragment and shows the
    weights as the colour. *)
Definition ex_shader : IShader unit := mkIShader (fun self bar _ => (true, bar, self)).

(** Buffers of [n] slots, black and of depth 0. *)
Definition ex_raster (n : nat) : Raster :=
  mkRaster (repeat (mkVec3f zero zero zero) n) (repeat zero n).

End F32.

(** The exact coordinates of a binary32 point. *)
Definition Vec2f_value (v : F32.Vec2f) : Vec2f :=
  mkVec2f (F32.value (F32.x2 v)) (F32.value (F32.y2 v)).

(* ------------------------------------------------------------------ *)
(** ** geometry.h: square matrices, determinant and inverse *)

Module MatrixModel.
Import boot algebra.
Import GRing.Theory.
Local Open Scope ring_scope.
Set Implicit Arguments.
Unset Strict Implicit.

Section Mat.

(** The scalar type [T] of the templates, taken to be a field. *)
Variable T : fieldType.

(** [vec<n,T>] is a row of [n] scalars and [mat<r,c,T>] an [r] by [c]
    table.  The loops of the header run from the last index down to the
    first, and so do the sums below. *)
Definition dot (n : nat) (lhs rhs : 'rV[T]_n) : T :=
  \sum_(i <- rev (enum 'I_n)) lhs 0 i * rhs 0 i.

Definition mat_col (r c : nat) (rows : 'M[T]_(r, c)) (idx : 'I_c) : 'rV[T]_r :=
  \row_i rows i idx.

Definition identity (n : nat) : 'M[T]_n := \matrix_(i, j) (i == j)%:R.

(** [ret[i][j] = rows[i < row ? i : i + 1][j < col ? j : j + 1]]. *)
Definition get_minor (n : nat) (rows : 'M[T]_n.+1) (row col : 'I_n.+1) : 'M[T]_n :=
  \matrix_(i, j) rows (lift row i) (lift col j).

(** [dt<DIM,T>::det], with [dt<1,T>::det] as the base case; the cofactor
    along the first row is inlined, as the recursion goes through it. *)
Fixpoint det (n : nat) : 'M[T]_n.+1 -> T :=
  match n with
  | 0%N => fun src => src 0 0
  | n'.+1 => fun src =>
      \sum_(i <- rev (enum 'I_n'.+2))
        src 0 i * (det (get_minor src 0 i) * (if odd (0 + i) then -1 else 1))
  end.

Definition cofactor (n : nat) (rows : 'M[T]_n.+2) (row col : 'I_n.+2) : T :=
  det (get_minor rows row col) * (if odd (row + col) then -1 else 1).

Definition adjugate (n : nat) (rows : 'M[T]_n.+2) : 'M[T]_n.+2 :=
  \matrix_(i, j) cofactor rows i j.

(** [operator/] of a matrix by a scalar. *)
Definition mat_div (r c : nat) (lhs : 'M[T]_(r, c)) (rhs : T) : 'M[T]_(r, c) :=
  \matrix_(i, j) (lhs i j / rhs).

Definition invert_transpose (n : nat) (rows : 'M[T]_n.+2) : 'M[T]_n.+2 :=
  let ret := adjugate rows in
  let tmp := dot (row 0 ret) (row 0 rows) in
  mat_div ret tmp.

Definition transpose (r c : nat) (rows : 'M[T]_(r, c)) : 'M[T]_(c, r) :=
  \matrix_(i, j) (mat_col rows i) 0 j.

Definition invert (n : nat) (rows : 'M[T]_n.+2) : 'M[T]_n.+2 :=
  transpose (invert_transpose rows).

(** [operator*] of two matrices. *)
Definition mat_mul (r1 c1 c2 : nat) (lhs : 'M[T]_(r1, c1)) (rhs : 'M[T]_(c1, c2))
  : 'M[T]_(r1, c2) :=
  \matrix_(i, j) dot (row i lhs) (mat_col rhs j).

(** [operator*] of a matrix and a vector: [ret[i] = dot(lhs[i], rhs)]. *)
Definition mat_vec (r c : nat) (lhs : 'M[T]_(r, c)) (rhs : 'rV[T]_c) : 'rV[T]_r :=
  \row_i dot (row i lhs) rhs.

End Mat.

(** A sample input: the matrix ((2, 1), (1, 1)) of rationals. *)
Definition ex_matrix : 'M[rat]_2 :=
  \matrix_(i, j) (if (i == 0) && (j == 0) then 2 else 1).

End MatrixModel.

(** The centres of the four quadrants of the unit pixel of centre [c]. *)
Definition quadrant_centers (c : Vec2f) : list Vec2f :=
  [ mkVec2f (x2 c - (1 # 4)) (y2 c - (1 # 4)); mkVec2f (x2 c - (1 # 4)) (y2 c + (1 # 4));
    mkVec2f (x2 c + (1 # 4)) (y2 c - (1 # 4)); mkVec2f (x2 c + (1 # 4)) (y2 c + (1 # 4)) ].

(* ------------------------------------------------------------------ *)
(** ** Sample inputs *)

(** A right triangle over the lower-left pixels, at the constant depth 1/2. *)
Definition ex_triangle : Vec4f * Vec4f * Vec4f :=
  (mkVec4f 0 0 (1 # 2) 1, mkVec4f 4 0 (1 # 2) 1, mkVec4f 0 4 (1 # 2) 1).

(** A shader that accepts every fragment and colours it with its weights. *)
Definition ex_shader : IShader := mkIShader (fun bar _ => (true, bar)).

Definition ex_white : Vec3f := mkVec3f 1 1 1.

(** A 4x4 raster with four samples per pixel, white, at depth 0. *)
Definition ex_raster : Raster := mkRaster (repeat ex_white 64) (repeat 0 64) [].

(** A one-pixel raster whose only slot is white and at depth 1/2. *)
Definition ex_pixel : Raster := mkRaster [ex_white] [1 # 2] [].

Definition ex_vertex (cx cy cz cw u v : Q) : Vertex :=
  mkVertex (mkVec3f 0 0 1) (mkVec4f cx cy 0 1) (mkVec4f cx cy cz cw) (mkVec2f u v).

(** A triangle inside the view volume. *)
Definition ex_inside : list Vertex :=
  [ex_vertex 0 0 0 1 0 0; ex_vertex 1 0 (1 # 2) 1 1 0; ex_vertex 0 1 (- (1)) 1 0 1].

(** A triangle with w = -1 at its three vertices. *)
Definition ex_behind : list Vertex :=
  [ex_vertex 0 0 0 (- (1)) 0 0; ex_vertex 1 0 0 (- (1)) 1 0; ex_vertex 0 1 0 (- (1)) 0 1].


(** A 4x4 shadow buffer at depth 0 and a light-space position at depth 0. *)
Definition ex_shadow_buffer : list Q := repeat 0 16.
Definition ex_light_space_pos : Vec3f := mkVec3f 2 2 0.

(** A small triangle over the pixels (0..1, 0..1), at the constant depth 1/2. *)
Definition ex_small_triangle : Vec4f * Vec4f * Vec4f :=
  (mkVec4f 0 0 (1 # 2) 1, mkVec4f 1 0 (1 # 2) 1, mkVec4f 0 1 (1 # 2) 1).





(** An image of 2 x 2 pixels of three bytes. *)
Definition ex_image : TGAImage := TGAImage_new 2 2 3.

(** The image of a texture that could not be read. *)
Definition ex_no_image : TGAImage := mkTGAImage [] 0 0 0.

(** Two samples per pixel on 2 x 2 pixels: the first sample of every pixel
    is written, red, the second is at the sentinel depth. *)
Definition ex_red : Vec3f := mkVec3f 255 0 0.
Definition ex_half_depths : list Q :=
  [0; - FLT_MAX; 0; - FLT_MAX; 0; - FLT_MAX; 0; - FLT_MAX].
Definition ex_half_colors : list Vec3f :=
  [ex_red; mkVec3f 0 0 0; ex_red; mkVec3f 0 0 0;
   ex_red; mkVec3f 0 0 0; ex_red; mkVec3f 0 0 0].

(** An image of 3 x 1 pixels of two bytes: twice the same pixel, then
    another one. *)
Definition ex_rle_image : TGAImage := mkTGAImage [7; 8; 7; 8; 9; 9]%Z 3 1 2.

(** An image of 2 x 3 pixels of one byte. *)
Definition ex_rows_image : TGAImage := mkTGAImage [1; 2; 3; 4; 5; 6]%Z 2 3 1.

(** Three pixels of one byte in a row. *)
Definition ex_row_image : TGAImage := mkTGAImage [7; 8; 9]%Z 3 1 1.

(* ================================================================== *)
(** * Properties *)

(* ------------------------------------------------------------------ *)
(** ** Ranges, buffers and comparisons *)

Lemma Zrange_In (lo hi v : Z) : In v (Zrange lo hi) <-> (lo <= v < hi)%Z.
Proof.
  unfold Zrange. rewrite in_map_iff. split.
  - intros [k [Hk Hin]]. apply in_seq in Hin. lia.
  - intros Hv. exists (Z.to_nat (v - lo)). split; [lia|].
    apply in_seq. lia.
Qed.

Lemma Zrange_NoDup (lo hi : Z) : NoDup (Zrange lo hi).
Proof.
  unfold Zrange. apply Finite.Injective_map_NoDup.
  - intros a b Hab. lia.
  - apply seq_NoDup.
Qed.

Lemma list_set_length {A : Type} (l : list A) (n : nat) (v : A) :
  length (list_set l n v) = length l.
Proof.
  revert n; induction l as [|h t IH]; intros [|n]; simpl; auto.
Qed.

Lemma list_set_nth_same {A : Type} (l : list A) (n : nat) (v dflt : A) :
  (n < length l)%nat -> nth n (list_set l n v) dflt = v.
Proof.
  revert n; induction l as [|h t IH]; intros [|n] Hn; simpl in *; try lia; auto.
  apply IH; lia.
Qed.

Lemma list_set_nth_other {A : Type} (l : list A) (n m : nat) (v dflt : A) :
  n <> m -> nth m (list_set l n v) dflt = nth m l dflt.
Proof.
  revert n m; induction l as [|h t IH]; intros [|n] [|m] Hnm; simpl; auto;
    try congruence.
Qed.

Lemma list_set_comm {A : Type} (l : list A) (n m : nat) (a b : A) :
  n <> m -> list_set (list_set l n a) m b = list_set (list_set l m b) n a.
Proof.
  revert n m; induction l as [|h t IH]; intros [|n] [|m] Hnm; simpl; auto;
    try congruence.
  f_equal. apply IH. congruence.
Qed.

Lemma Qltb_lt (a b : Q) : Qltb a b = true <-> a < b.
Proof.
  unfold Qltb. rewrite negb_true_iff. split.
  - intros H. apply Qnot_le_lt. intros Hle.
    apply Qle_bool_iff in Hle. congruence.
  - intros H. destruct (Qle_bool b a) eqn:E; auto.
    apply Qle_bool_iff in E. exfalso. apply (Qlt_not_le _ _ H E).
Qed.

Lemma Qltb_ge (a b : Q) : Qltb a b = false <-> b <= a.
Proof.
  unfold Qltb. rewrite negb_false_iff. apply Qle_bool_iff.
Qed.

Lemma to_int_le (n : Z) : (0 <= n -> to_int n <= n)%Z.
Proof.
  intros Hn. unfold to_int.
  assert (H := Z.mod_le n (2 ^ 32) Hn ltac:(lia)).
  destruct (n mod 2 ^ 32 <? 2 ^ 31)%Z; lia.
Qed.

(* ------------------------------------------------------------------ *)
(** ** The rasteriser: bounding box and indices *)

Section TriangleBounds.

Variable screenCoords : Vec4f * Vec4f * Vec4f.
Variable shader : IShader.
Variables width height : Z.
Variable d : list (Q * Q).
Variable cntSample : Z.

Lemma bbox_axis_bounds (j extent : Z) :
  (0 <= fst (bbox_axis screenCoords j extent)
   /\ snd (bbox_axis screenCoords j extent) <= to_int (extent - 1))%Z.
Proof.
  unfold bbox_axis.
  destruct (fold_left _ _ _) as [lo hi]. simpl. lia.
Qed.

(** A traversed pixel lies on the screen. *)
Lemma bbox_x_on_screen (x : Z) :
  (1 <= width)%Z ->
  In x (Zrange (bboxmin_x screenCoords width) (bboxmax_x screenCoords width + 1)) ->
  (0 <= x <= width - 1)%Z.
Proof.
  intros Hw Hx. apply Zrange_In in Hx.
  destruct (bbox_axis_bounds 0 width) as [Hlo Hhi].
  assert (Hle := to_int_le (width - 1) ltac:(lia)).
  unfold bboxmin_x, bboxmax_x in Hx. lia.
Qed.

Lemma bbox_y_on_screen (y : Z) :
  (1 <= height)%Z ->
  In y (Zrange (bboxmin_y screenCoords height) (bboxmax_y screenCoords height + 1)) ->
  (0 <= y <= height - 1)%Z.
Proof.
  intros Hh Hy. apply Zrange_In in Hy.
  destruct (bbox_axis_bounds 1 height) as [Hlo Hhi].
  assert (Hle := to_int_le (height - 1) ltac:(lia)).
  unfold bboxmin_y, bboxmax_y in Hy. lia.
Qed.

(** The flat index of an on-screen sample, before the reduction modulo
    2^32, lies below the number of slots. *)
Lemma flat_index_bound (x y i : Z) :
  (0 <= x <= width - 1 -> 0 <= y <= height - 1 -> 0 <= i < cntSample ->
   0 <= cntSample * (y * width + x) + i < width * height * cntSample)%Z.
Proof.
  intros Hx Hy Hi.
  assert (0 <= y * width + x <= height * width - 1)%Z by nia.
  nia.
Qed.

Lemma sample_index_bound (x y i : Z) :
  (0 <= x <= width - 1 -> 0 <= y <= height - 1 -> 0 <= i < cntSample ->
   0 <= sample_index width cntSample x y i < width * height * cntSample)%Z.
Proof.
  intros Hx Hy Hi. unfold sample_index, to_unsigned.
  pose proof (flat_index_bound x y i Hx Hy Hi) as Hb.
  pose proof (Z.mod_pos_bound (cntSample * (y * width + x) + i) (2 ^ 32) ltac:(lia)).
  pose proof (Z.mod_le (cntSample * (y * width + x) + i) (2 ^ 32) ltac:(lia) ltac:(lia)).
  lia.
Qed.

(** When the slots are at most 2^32 the index does not wrap. *)
Lemma sample_index_exact (x y i : Z) :
  (width * height * cntSample <= 2 ^ 32 ->
   0 <= x <= width - 1 -> 0 <= y <= height - 1 -> 0 <= i < cntSample ->
   sample_index width cntSample x y i = cntSample * (y * width + x) + i)%Z.
Proof.
  intros Hfit Hx Hy Hi. unfold sample_index, to_unsigned.
  pose proof (flat_index_bound x y i Hx Hy Hi) as Hb.
  apply Z.mod_small. lia.
Qed.

Let in_bounds (idx : Z) : Prop := (0 <= idx < width * height * cntSample)%Z.

Lemma sample_loop_accessed (x y : Z) (samples : list Z) :
  (forall i, In i samples -> in_bounds (sample_index width cntSample x y i)) ->
  forall covered color r,
    Forall in_bounds (accessed r) ->
    Forall in_bounds
      (accessed (sample_loop screenCoords shader width d cntSample
                   x y samples covered color r)).
Proof.
  induction samples as [|i rest IH]; intros Hs covered color r Hr; simpl; auto.
  assert (Hi : in_bounds (sample_index width cntSample x y i))
    by (apply Hs; now left).
  assert (Hrest : forall k, In k rest ->
                            in_bounds (sample_index width cntSample x y k))
    by (intros k Hk; apply Hs; now right).
  destruct (sample_outside screenCoords d x y i); [now apply IH|].
  destruct (Qltb _ _).
  - apply IH; auto. simpl. apply Forall_cons; auto.
  - destruct covered.
    + apply IH; auto. simpl. repeat (apply Forall_cons; [exact Hi|]). exact Hr.
    + match goal with
      | |- context [fragment ?s ?b ?c] => destruct (fragment s b c) as [[|] color']
      end.
      * apply IH; auto. simpl. repeat (apply Forall_cons; [exact Hi|]). exact Hr.
      * simpl. apply Forall_cons; auto.
Qed.

Lemma triangle_accessed (r : Raster) :
  (1 <= width)%Z -> (1 <= height)%Z -> (1 <= cntSample)%Z ->
  Forall in_bounds (accessed r) ->
  Forall in_bounds
    (accessed (triangle screenCoords shader width height d cntSample r)).
Proof.
  intros Hw Hh Hs. unfold triangle.
  generalize (bbox_x_on_screen).
  generalize (Zrange (bboxmin_x screenCoords width) (bboxmax_x screenCoords width + 1)).
  intros xs Hxs. revert r.
  induction xs as [|x xs IHx]; intros r Hr; simpl; auto.
  apply IHx; [intros x' Hw' Hx'; apply Hxs; auto; now right|].
  assert (Hx : (0 <= x <= width - 1)%Z) by (apply Hxs; auto; now left).
  unfold column.
  generalize (bbox_y_on_screen).
  generalize (Zrange (bboxmin_y screenCoords height) (bboxmax_y screenCoords height + 1)).
  intros ys Hys. clear IHx. revert r Hr.
  induction ys as [|y ys IHy]; intros r Hr; simpl; auto.
  apply IHy; [intros y' Hh' Hy'; apply Hys; auto; now right|].
  assert (Hy : (0 <= y <= height - 1)%Z) by (apply Hys; auto; now left).
  unfold pixel. apply sample_loop_accessed; auto.
  intros i Hi. apply Zrange_In in Hi.
  apply sample_index_bound; auto; lia.
Qed.

End TriangleBounds.

(** C10.  In every call of [triangle] with [width], [height] and
    [cntSample] at least 1, and for any vertex coordinates, every index at
    which [zBuffer] or [colorBuffer] is read or written lies in
    [0, width * height * cntSample): the traversed pixels are those of the
    integer bounding box clamped into [0, width - 1] x [0, height - 1]
    before the loops run, also for a triangle that is partly or wholly
    off-screen. *)
Theorem triangle_indices_in_bounds
        (screenCoords : Vec4f * Vec4f * Vec4f) (shader : IShader)
        (colors : list Vec3f) (depths : list Q)
        (width height : Z) (d : list (Q * Q)) (cntSample : Z) :
  (1 <= width)%Z -> (1 <= height)%Z -> (1 <= cntSample)%Z ->
  Forall (fun idx => (0 <= idx < width * height * cntSample)%Z)
         (accessed (triangle screenCoords shader width height d cntSample
                             (mkRaster colors depths [])))
  /\ Forall (fun p => (0 <= fst p <= width - 1 /\ 0 <= snd p <= height - 1)%Z)
            (triangle_pixels screenCoords width height).
Proof.
  intros Hw Hh Hs. split.
  - apply triangle_accessed; auto.
  - apply Forall_forall. intros [x y] Hp. unfold triangle_pixels in Hp.
    apply in_flat_map in Hp. destruct Hp as [x' [Hx Hp]].
    apply in_map_iff in Hp. destruct Hp as [y' [E Hy]].
    inversion E; subst x' y'. cbn [fst snd]. split.
    + now apply (bbox_x_on_screen screenCoords width).
    + now apply (bbox_y_on_screen screenCoords height).
Qed.

(* ------------------------------------------------------------------ *)
(** ** The rasteriser as a sequence of slot updates *)

Lemma fold_left_flat_map {A B C : Type} (f : A -> C -> A) (g : B -> list C)
      (l : list B) (a : A) :
  fold_left f (flat_map g l) a = fold_left (fun a b => fold_left f (g b) a) l a.
Proof.
  revert a. induction l as [|b l IH]; intros a; simpl; auto.
  now rewrite fold_left_app, IH.
Qed.

Lemma fold_left_ext_in {A B : Type} (f g : A -> B -> A) (l : list B) (a : A) :
  (forall a b, In b l -> f a b = g a b) -> fold_left f l a = fold_left g l a.
Proof.
  revert a. induction l as [|b l IH]; intros a Hfg; simpl; auto.
  rewrite Hfg by now left. apply IH. intros a' b' Hb'. apply Hfg. now right.
Qed.

(** A fold does not depend on the order of a list whose elements commute. *)
Lemma fold_left_permutation {A B : Type} (f : A -> B -> A) (l l' : list B) :
  Permutation l l' ->
  (forall x y, In x l -> In y l -> forall a, f (f a x) y = f (f a y) x) ->
  forall a, fold_left f l a = fold_left f l' a.
Proof.
  induction 1 as [|x l l' Hp IH|x y l|l l' l'' Hp1 IH1 Hp2 IH2]; intros Hc a.
  - reflexivity.
  - simpl. apply IH. intros u v Hu Hv. apply Hc; now right.
  - simpl. f_equal. apply Hc; simpl; auto.
  - rewrite IH1 by exact Hc. apply IH2.
    intros u v Hu Hv.
    apply Hc; apply (Permutation_in _ (Permutation_sym Hp1)); assumption.
Qed.

Section SlotUpdates.

Variable screenCoords : Vec4f * Vec4f * Vec4f.
Variable shader : IShader.
Variables width height : Z.
Variable d : list (Q * Q).
Variable cntSample : Z.

Let update := sample_update screenCoords shader width d cntSample.
Let slot (s : Z * Z * Z) : nat :=
  let '(x, y, i) := s in Z.to_nat (sample_index width cntSample x y i).
Let verdict (x y : Z) : bool * Vec3f :=
  fragment shader
    (barycentric (tri_A screenCoords) (tri_B screenCoords) (tri_C screenCoords)
                 (pixel_center x y))
    (mkVec3f 0 0 0).

(** Once the fragment of a pixel is rejected, none of its samples is
    written. *)
Lemma update_rejected (x y : Z) (samples : list Z) (b : list Vec3f * list Q) :
  fst (verdict x y) = false ->
  fold_left update (map (fun i => (x, y, i)) samples) b = b.
Proof.
  intros Hv. induction samples as [|i rest IH]; cbn [map fold_left]; auto.
  replace (update b (x, y, i)) with b; auto.
  unfold update, sample_update.
  destruct (sample_outside _ _ _ _ _); auto.
  destruct (Qltb _ _); auto.
  unfold verdict in Hv. destruct (fragment _ _ _) as [[|] c]; auto.
  discriminate Hv.
Qed.

(** The sample loop in a pixel whose fragment has been accepted. *)
Lemma sample_loop_covered (x y : Z) (color : Vec3f) (samples : list Z) :
  verdict x y = (true, color) ->
  forall r,
    buffers (sample_loop screenCoords shader width d cntSample
               x y samples true color r)
    = fold_left update (map (fun i => (x, y, i)) samples) (buffers r).
Proof.
  intros Hv. induction samples as [|i rest IH]; intros r;
    cbn [map fold_left sample_loop]; auto.
  unfold update at 2, sample_update.
  destruct (sample_outside _ _ _ _ _); [apply IH|].
  unfold load_z. cbn [touch zBuffer buffers snd].
  destruct (Qltb _ _); [now rewrite IH|].
  fold (verdict x y). rewrite Hv. rewrite IH. reflexivity.
Qed.

(** The sample loop from the start of a pixel. *)
Lemma sample_loop_fresh (x y : Z) (samples : list Z) :
  forall r,
    buffers (sample_loop screenCoords shader width d cntSample
               x y samples false (mkVec3f 0 0 0) r)
    = fold_left update (map (fun i => (x, y, i)) samples) (buffers r).
Proof.
  induction samples as [|i rest IH]; intros r;
    cbn [map fold_left sample_loop]; auto.
  unfold update at 2, sample_update.
  destruct (sample_outside _ _ _ _ _); [apply IH|].
  unfold load_z. cbn [touch zBuffer buffers snd].
  destruct (Qltb _ _); [now rewrite IH|].
  fold (verdict x y). destruct (verdict x y) as [[|] color] eqn:Hv.
  - rewrite (sample_loop_covered x y color rest Hv). reflexivity.
  - symmetry. apply update_rejected. now rewrite Hv.
Qed.

(** [triangle] performs the slot updates of its samples, in the order of
    its loops. *)
Lemma triangle_slot_updates (r : Raster) :
  buffers (triangle screenCoords shader width height d cntSample r)
  = fold_left update (triangle_samples screenCoords width height cntSample)
              (buffers r).
Proof.
  unfold triangle, triangle_samples. rewrite fold_left_flat_map.
  generalize (Zrange (bboxmin_x screenCoords width) (bboxmax_x screenCoords width + 1)).
  intros xs. revert r. induction xs as [|x xs IHx]; intros r; simpl; auto.
  rewrite IHx. f_equal. clear IHx.
  unfold column. rewrite fold_left_flat_map.
  generalize (Zrange (bboxmin_y screenCoords height) (bboxmax_y screenCoords height + 1)).
  intros ys. revert r. induction ys as [|y ys IHy]; intros r; simpl; auto.
  rewrite IHy. f_equal. apply sample_loop_fresh.
Qed.

(** An update touches its own slot only. *)
Lemma update_other_slot (b : list Vec3f * list Q) (s : Z * Z * Z) (k : nat) :
  slot s <> k ->
  nth k (fst (update b s)) (mkVec3f 0 0 0) = nth k (fst b) (mkVec3f 0 0 0)
  /\ nth k (snd (update b s)) 0 = nth k (snd b) 0.
Proof.
  intros Hk. destruct s as [[x y] i]. unfold update, sample_update.
  destruct (sample_outside _ _ _ _ _); auto.
  destruct (Qltb _ _); auto.
  destruct (fragment _ _ _) as [[|] c]; auto.
  cbn [fst snd]. split; apply list_set_nth_other; exact Hk.
Qed.

(** Updates of different slots commute. *)
Lemma update_comm (b : list Vec3f * list Q) (s1 s2 : Z * Z * Z) :
  slot s1 <> slot s2 -> update (update b s1) s2 = update (update b s2) s1.
Proof.
  intros Hs. destruct s1 as [[x1 y1] i1], s2 as [[x2 y2] i2].
  unfold slot in Hs. unfold update, sample_update.
  destruct (sample_outside _ _ x1 y1 i1), (sample_outside _ _ x2 y2 i2); auto.
  destruct (fragment shader _ _) as [b1 c1] eqn:F1.
  destruct (fragment shader (barycentric _ _ _ (pixel_center x2 y2)) _)
    as [b2 c2] eqn:F2.
  destruct (Qltb (sample_depth screenCoords d x1 y1 i1) _) eqn:T1;
    destruct (Qltb (sample_depth screenCoords d x2 y2 i2) (nth _ (snd b) 0)) eqn:T2;
    destruct b1, b2; cbn [fst snd];
      rewrite ?list_set_nth_other by congruence;
      rewrite ?T1, ?T2, ?F1, ?F2; cbn [fst snd];
        rewrite ?list_set_nth_other by congruence;
        rewrite ?T1, ?T2; auto.
  f_equal; apply list_set_comm; congruence.
Qed.

End SlotUpdates.

(* ------------------------------------------------------------------ *)
(** ** Samples and slots *)

Section SampleSlots.

Variable screenCoords : Vec4f * Vec4f * Vec4f.
Variable shader : IShader.
Variables width height : Z.
Variable d : list (Q * Q).
Variable cntSample : Z.

Hypothesis width_pos : (1 <= width)%Z.
Hypothesis height_pos : (1 <= height)%Z.
Hypothesis slots_fit : (width * height * cntSample <= 2 ^ 32)%Z.

Let update := sample_update screenCoords shader width d cntSample.
Let slot (s : Z * Z * Z) : nat :=
  let '(x, y, i) := s in Z.to_nat (sample_index width cntSample x y i).

Lemma triangle_samples_In (x y i : Z) :
  In (x, y, i) (triangle_samples screenCoords width height cntSample) ->
  (0 <= x <= width - 1 /\ 0 <= y <= height - 1 /\ 0 <= i < cntSample)%Z.
Proof.
  unfold triangle_samples. intros H.
  apply in_flat_map in H. destruct H as [x' [Hx H]].
  apply in_flat_map in H. destruct H as [y' [Hy H]].
  apply in_map_iff in H. destruct H as [i' [E Hi]].
  inversion E; subst x' y' i'.
  apply bbox_x_on_screen in Hx; auto.
  apply bbox_y_on_screen in Hy; auto.
  apply Zrange_In in Hi. lia.
Qed.

Lemma flat_index_injective (x1 y1 i1 x2 y2 i2 : Z) :
  (0 <= x1 <= width - 1 -> 0 <= x2 <= width - 1 ->
   0 <= i1 < cntSample -> 0 <= i2 < cntSample ->
   cntSample * (y1 * width + x1) + i1 = cntSample * (y2 * width + x2) + i2 ->
   (x1, y1, i1) = (x2, y2, i2))%Z.
Proof.
  intros Hx1 Hx2 Hi1 Hi2 E.
  destruct (Z.div_mod_unique cntSample (y1 * width + x1) (y2 * width + x2) i1 i2)
    as [Ep Ei]; auto.
  rewrite (Z.mul_comm y1), (Z.mul_comm y2) in Ep.
  destruct (Z.div_mod_unique width y1 y2 x1 x2) as [Ey Ex]; auto; try lia.
  congruence.
Qed.

(** Two samples of a call that share a slot are the same sample. *)
Lemma slot_injective (s1 s2 : Z * Z * Z) :
  In s1 (triangle_samples screenCoords width height cntSample) ->
  In s2 (triangle_samples screenCoords width height cntSample) ->
  slot s1 = slot s2 -> s1 = s2.
Proof.
  destruct s1 as [[x1 y1] i1], s2 as [[x2 y2] i2]. intros H1 H2 E.
  apply triangle_samples_In in H1. apply triangle_samples_In in H2.
  unfold slot in E.
  rewrite !(sample_index_exact width height) in E by (auto; lia).
  pose proof (flat_index_bound width height cntSample x1 y1 i1
                ltac:(lia) ltac:(lia) ltac:(lia)).
  pose proof (flat_index_bound width height cntSample x2 y2 i2
                ltac:(lia) ltac:(lia) ltac:(lia)).
  apply flat_index_injective; try lia.
Qed.

Lemma triangle_samples_commute (s1 s2 : Z * Z * Z) :
  In s1 (triangle_samples screenCoords width height cntSample) ->
  In s2 (triangle_samples screenCoords width height cntSample) ->
  forall b, update (update b s1) s2 = update (update b s2) s1.
Proof.
  intros H1 H2 b.
  destruct (Nat.eq_dec (slot s1) (slot s2)) as [E|E].
  - apply slot_injective in E; auto. now subst s2.
  - now apply update_comm.
Qed.

Lemma triangle_samples_NoDup :
  NoDup (triangle_samples screenCoords width height cntSample).
Proof.
  unfold triangle_samples.
  generalize (Zrange_NoDup (bboxmin_x screenCoords width)
                           (bboxmax_x screenCoords width + 1)).
  generalize (Zrange (bboxmin_x screenCoords width) (bboxmax_x screenCoords width + 1)).
  intros xs Hxs. induction Hxs as [|x xs Hx Hxs IHx]; simpl; [constructor|].
  apply NoDup_app; auto.
  - generalize (Zrange_NoDup (bboxmin_y screenCoords height)
                             (bboxmax_y screenCoords height + 1)).
    generalize (Zrange (bboxmin_y screenCoords height)
                       (bboxmax_y screenCoords height + 1)).
    intros ys Hys. induction Hys as [|y ys Hy Hys IHy]; simpl; [constructor|].
    apply NoDup_app; auto.
    + apply Finite.Injective_map_NoDup; [|apply Zrange_NoDup].
      intros a b E. congruence.
    + intros s Hs Hs'. apply in_map_iff in Hs. destruct Hs as [i [E _]]. subst s.
      apply in_flat_map in Hs'. destruct Hs' as [y' [Hy' Hs']].
      apply in_map_iff in Hs'. destruct Hs' as [i' [E' _]].
      inversion E'; subst. contradiction.
  - intros s Hs Hs'.
    apply in_flat_map in Hs. destruct Hs as [y [_ Hs]].
    apply in_map_iff in Hs. destruct Hs as [i [E _]]. subst s.
    apply in_flat_map in Hs'. destruct Hs' as [x' [Hx' Hs']].
    apply in_flat_map in Hs'. destruct Hs' as [y' [_ Hs']].
    apply in_map_iff in Hs'. destruct Hs' as [i' [E' _]].
    inversion E'; subst. contradiction.
Qed.

End SampleSlots.

Lemma flat_map_flat_map {A B C : Type} (g : B -> list C) (h : A -> list B)
      (l : list A) :
  flat_map g (flat_map h l) = flat_map (fun a => flat_map g (h a)) l.
Proof.
  induction l as [|a l IH]; simpl; auto. now rewrite flat_map_app, IH.
Qed.

Lemma flat_map_of_map {A B C : Type} (g : B -> list C) (h : A -> B) (l : list A) :
  flat_map g (map h l) = flat_map (fun a => g (h a)) l.
Proof.
  induction l as [|a l IH]; simpl; auto. now rewrite IH.
Qed.

Lemma Permutation_flat_map_pointwise {A B : Type} (g g' : A -> list B) (l : list A) :
  (forall a, Permutation (g a) (g' a)) ->
  Permutation (flat_map g l) (flat_map g' l).
Proof.
  intros Hg. induction l as [|a l IH]; simpl; auto using Permutation_app.
Qed.

(* ------------------------------------------------------------------ *)
(** ** The content of a slot after a call *)

Section SlotResult.

Variable screenCoords : Vec4f * Vec4f * Vec4f.
Variable shader : IShader.
Variables width height : Z.
Variable d : list (Q * Q).
Variable cntSample : Z.

Hypothesis width_pos : (1 <= width)%Z.
Hypothesis height_pos : (1 <= height)%Z.
Hypothesis slots_fit : (width * height * cntSample <= 2 ^ 32)%Z.

Let update := sample_update screenCoords shader width d cntSample.
Let slot (s : Z * Z * Z) : nat :=
  let '(x, y, i) := s in Z.to_nat (sample_index width cntSample x y i).

Lemma fold_update_other_slots (l : list (Z * Z * Z)) (k : nat) :
  (forall s, In s l -> slot s <> k) ->
  forall b,
    nth k (fst (fold_left update l b)) (mkVec3f 0 0 0) = nth k (fst b) (mkVec3f 0 0 0)
    /\ nth k (snd (fold_left update l b)) 0 = nth k (snd b) 0.
Proof.
  induction l as [|s l IH]; intros Hl b; cbn [fold_left]; auto.
  destruct (IH (fun s' Hs' => Hl s' (or_intror Hs')) (update b s)) as [Hc Hz].
  destruct (update_other_slot screenCoords shader width d cntSample b s k
              (Hl s (or_introl eq_refl))) as [Hc' Hz'].
  fold update in Hc', Hz'. split; congruence.
Qed.

(** After [triangle], the slot of a sample holds what the update of that
    sample alone leaves in it. *)
Lemma triangle_slot (s : Z * Z * Z) (r : Raster) :
  In s (triangle_samples screenCoords width height cntSample) ->
  nth (slot s) (colorBuffer (triangle screenCoords shader width height d cntSample r))
      (mkVec3f 0 0 0)
  = nth (slot s) (fst (update (buffers r) s)) (mkVec3f 0 0 0)
  /\ nth (slot s) (zBuffer (triangle screenCoords shader width height d cntSample r)) 0
     = nth (slot s) (snd (update (buffers r) s)) 0.
Proof.
  intros Hs.
  change (colorBuffer (triangle screenCoords shader width height d cntSample r))
    with (fst (buffers (triangle screenCoords shader width height d cntSample r))).
  change (zBuffer (triangle screenCoords shader width height d cntSample r))
    with (snd (buffers (triangle screenCoords shader width height d cntSample r))).
  rewrite triangle_slot_updates. fold update.
  pose proof (triangle_samples_NoDup screenCoords width height cntSample) as Hnd.
  pose proof (slot_injective screenCoords width height cntSample
                             width_pos height_pos slots_fit) as Hinj.
  pose proof (triangle_samples_commute screenCoords shader width height d cntSample
                                       width_pos height_pos slots_fit) as Hcomm.
  fold update in Hcomm.
  revert Hs Hnd Hinj Hcomm.
  generalize (triangle_samples screenCoords width height cntSample).
  intros l Hs Hnd Hinj Hcomm.
  destruct (in_split s l Hs) as [l1 [l2 E]].
  assert (Hp : Permutation l (s :: l1 ++ l2))
    by (rewrite E; apply Permutation_sym, Permutation_middle).
  rewrite (fold_left_permutation update l (s :: l1 ++ l2) Hp Hcomm).
  cbn [fold_left]. apply fold_update_other_slots.
  intros s' Hs' Eslot.
  assert (Hin : In s' l).
  { rewrite E. apply in_app_iff in Hs'. apply in_app_iff.
    destruct Hs'; [now left|right; now right]. }
  assert (s' = s) by (apply Hinj; auto).
  subst s'. rewrite E in Hnd. apply NoDup_remove_2 in Hnd. contradiction.
Qed.

End SlotResult.

(** C1 (amended).  The depth test of [triangle] is not strict.  For a sample
    of the call, with [z] its perspective-corrected depth and [stored] the
    depth found in its slot: the slot is written, with [z] and the colour of
    the pixel's fragment, when the three weights are non-negative, [z] is
    not less than [stored] and the fragment is accepted, so a sample
    whose depth equals the stored one overwrites the slot; it keeps its
    colour and depth when a weight is negative, when [z < stored], or when
    the fragment is rejected. *)
Theorem triangle_depth_test
        (screenCoords : Vec4f * Vec4f * Vec4f) (shader : IShader)
        (width height : Z) (d : list (Q * Q)) (cntSample : Z)
        (colors : list Vec3f) (depths : list Q) (x y i : Z) :
  (1 <= width)%Z -> (1 <= height)%Z ->
  (width * height * cntSample <= 2 ^ 32)%Z ->
  Z.of_nat (length colors) = (width * height * cntSample)%Z ->
  Z.of_nat (length depths) = (width * height * cntSample)%Z ->
  In (x, y, i) (triangle_samples screenCoords width height cntSample) ->
  let after := triangle screenCoords shader width height d cntSample
                        (mkRaster colors depths []) in
  let idx := Z.to_nat (sample_index width cntSample x y i) in
  let z := sample_depth screenCoords d x y i in
  let stored := nth idx depths 0 in
  let verdict :=
    fragment shader
      (barycentric (tri_A screenCoords) (tri_B screenCoords) (tri_C screenCoords)
                   (pixel_center x y))
      (mkVec3f 0 0 0) in
  (sample_outside screenCoords d x y i = false -> stored <= z ->
   fst verdict = true ->
   nth idx (zBuffer after) 0 = z
   /\ nth idx (colorBuffer after) (mkVec3f 0 0 0) = snd verdict)
  /\ (sample_outside screenCoords d x y i = true \/ z < stored
      \/ fst verdict = false ->
      nth idx (zBuffer after) 0 = stored
      /\ nth idx (colorBuffer after) (mkVec3f 0 0 0)
         = nth idx colors (mkVec3f 0 0 0)).
Proof.
  intros Hw Hh Hfit Hlc Hlz Hin after idx z stored verdict.
  destruct (triangle_slot screenCoords shader width height d cntSample Hw Hh Hfit
                          (x, y, i) (mkRaster colors depths []) Hin) as [Hc Hz].
  fold after in Hc, Hz. fold idx in Hc, Hz.
  assert (Hidx : (idx < length depths)%nat /\ (idx < length colors)%nat).
  { apply triangle_samples_In in Hin; auto.
    pose proof (sample_index_bound width height cntSample x y i
                  ltac:(lia) ltac:(lia) ltac:(lia)).
    unfold idx. lia. }
  unfold sample_update in Hc, Hz. cbn [buffers colorBuffer zBuffer fst snd] in Hc, Hz.
  fold z idx stored verdict in Hc, Hz.
  split.
  - intros Hout Hge Hv. rewrite Hout in Hc, Hz.
    apply Qltb_ge in Hge. rewrite Hge in Hc, Hz.
    destruct verdict as [a c]. cbn [fst snd] in *. subst a.
    cbn [fst snd] in Hc, Hz.
    rewrite list_set_nth_same in Hc by lia.
    rewrite list_set_nth_same in Hz by lia. auto.
  - intros [Hout|[Hlt|Hv]].
    + rewrite Hout in Hc, Hz. auto.
    + apply Qltb_lt in Hlt. rewrite Hlt in Hc, Hz.
      destruct (sample_outside screenCoords d x y i); auto.
    + destruct verdict as [a c]. cbn [fst] in Hv. subst a.
      destruct (sample_outside screenCoords d x y i); auto.
      destruct (Qltb z stored); auto.
Qed.

(* ------------------------------------------------------------------ *)
(** ** The clipper *)

Lemma firstn_snoc_nth {A : Type} (l : list A) (m : nat) (dflt : A) :
  (m < length l)%nat -> firstn (S m) l = firstn m l ++ [nth m l dflt].
Proof.
  revert m. induction l as [|h t IH]; intros m Hm; simpl in Hm; [lia|].
  destruct m as [|m]; [reflexivity|].
  cbn [firstn nth app]. f_equal. apply IH. lia.
Qed.

Lemma Qopp_opp_eq (q : Q) : - - q = q.
Proof. destruct q as [n dn]. unfold Qopp. cbn. now rewrite Z.opp_involutive. Qed.

Section Clipper.

Variable axis : Z.
Hypothesis axis_xyz : (0 <= axis <= 2)%Z.

Lemma Vec4f_get_set (c : Vec4f) (a : Q) : Vec4f_get (Vec4f_set c axis a) axis = a.
Proof.
  unfold Vec4f_get, Vec4f_set.
  destruct (axis <=? 0)%Z; [reflexivity|].
  destruct (1 =? axis)%Z; [reflexivity|].
  destruct (2 =? axis)%Z; reflexivity.
Qed.

Lemma Vec4f_w_set (c : Vec4f) (a : Q) : w4 (Vec4f_set c axis a) = w4 c.
Proof.
  unfold Vec4f_set.
  destruct (axis <=? 0)%Z eqn:E0; [reflexivity|].
  destruct (1 =? axis)%Z eqn:E1; [reflexivity|].
  destruct (2 =? axis)%Z eqn:E2; [reflexivity|]. lia.
Qed.

Lemma Vec4f_set_set (c : Vec4f) (a b : Q) :
  Vec4f_set (Vec4f_set c axis a) axis b = Vec4f_set c axis b.
Proof.
  unfold Vec4f_set.
  destruct (axis <=? 0)%Z; [reflexivity|].
  destruct (1 =? axis)%Z; [reflexivity|].
  destruct (2 =? axis)%Z; reflexivity.
Qed.

Lemma Vec4f_set_get (c : Vec4f) : Vec4f_set c axis (Vec4f_get c axis) = c.
Proof.
  unfold Vec4f_set, Vec4f_get. destruct c as [cx cy cz cw]. cbn [x4 y4 z4 w4].
  destruct (axis <=? 0)%Z eqn:E0; [reflexivity|].
  destruct (1 =? axis)%Z eqn:E1; [reflexivity|].
  destruct (2 =? axis)%Z eqn:E2; [reflexivity|]. lia.
Qed.

Lemma flip_axis_involutive (v : Vertex) : flip_axis axis (flip_axis axis v) = v.
Proof.
  destruct v as [n wc cc t]. unfold flip_axis. cbn [normal worldCoord clipCoord uv].
  rewrite Vec4f_get_set, Vec4f_set_set, Qopp_opp_eq, Vec4f_set_get. reflexivity.
Qed.

Lemma clip_check_flip (v : Vertex) :
  clip_check (flip_axis axis v) axis
  = - Vec4f_get (clipCoord v) axis / w4 (clipCoord v).
Proof.
  unfold clip_check, flip_axis. cbn [clipCoord].
  now rewrite Vec4f_get_set, Vec4f_w_set.
Qed.

Lemma crosses_none_below (now next : Vertex) :
  clip_check now axis <= 1 -> clip_check next axis <= 1 ->
  crosses now next axis = false.
Proof.
  intros Hn Hx. unfold crosses.
  apply Qltb_ge in Hn. apply Qltb_ge in Hx. rewrite Hn, Hx.
  now rewrite andb_false_r.
Qed.

Lemma crosses_none_above (now next : Vertex) :
  1 < clip_check now axis -> 1 < clip_check next axis ->
  crosses now next axis = false.
Proof.
  intros Hn Hx. unfold crosses.
  assert (En : Qltb (clip_check now axis) 1 = false)
    by (apply Qltb_ge; now apply Qlt_le_weak).
  assert (Ex : Qltb (clip_check next axis) 1 = false)
    by (apply Qltb_ge; now apply Qlt_le_weak).
  rewrite En, Ex. now rewrite andb_false_r.
Qed.

Lemma next_vertex_In (original : list Vertex) (i : nat) :
  (i < length original)%nat ->
  In (nth (Nat.modulo (i + 1) (length original)) original Vertex_default) original.
Proof.
  intros Hi. apply nth_In. apply Nat.mod_upper_bound. lia.
Qed.

(** A polygon with no vertex beyond the plane passes unchanged. *)
Lemma singleFaceZClip_keeps (original result : list Vertex) :
  (forall v, In v original -> clip_check v axis <= 1) ->
  singleFaceZClip original result axis = result ++ original.
Proof.
  intros Hall. unfold singleFaceZClip.
  assert (H : forall m, (m <= length original)%nat ->
              fold_left (clip_edge original axis) (seq 0 m) result
              = result ++ firstn m original).
  { induction m as [|m IH]; intros Hm.
    - cbn. now rewrite app_nil_r.
    - rewrite seq_S, fold_left_app, IH by lia. cbn [fold_left Nat.add].
      unfold clip_edge.
      assert (Hnow : In (nth m original Vertex_default) original)
        by (apply nth_In; lia).
      assert (Hnext := next_vertex_In original m ltac:(lia)).
      rewrite crosses_none_below by auto.
      apply Hall in Hnow. apply Qle_bool_iff in Hnow. rewrite Hnow.
      rewrite (firstn_snoc_nth original m Vertex_default) by lia.
      now rewrite app_assoc. }
  rewrite H by lia. now rewrite firstn_all.
Qed.

(** A polygon with every vertex beyond the plane is dropped. *)
Lemma singleFaceZClip_drops (original result : list Vertex) :
  (forall v, In v original -> 1 < clip_check v axis) ->
  singleFaceZClip original result axis = result.
Proof.
  intros Hall. unfold singleFaceZClip.
  assert (H : forall m, (m <= length original)%nat ->
              fold_left (clip_edge original axis) (seq 0 m) result = result).
  { induction m as [|m IH]; intros Hm.
    - reflexivity.
    - rewrite seq_S, fold_left_app, IH by lia. cbn [fold_left Nat.add].
      unfold clip_edge.
      assert (Hnow : In (nth m original Vertex_default) original)
        by (apply nth_In; lia).
      assert (Hnext := next_vertex_In original m ltac:(lia)).
      rewrite crosses_none_above by auto.
      apply Hall in Hnow.
      destruct (Qle_bool _ 1) eqn:E; auto.
      apply Qle_bool_iff in E. exfalso. apply (Qlt_not_le _ _ Hnow E). }
  apply H. lia.
Qed.

Lemma check_inside (v : Vertex) :
  inside_volume axis v ->
  clip_check v axis <= 1 /\ clip_check (flip_axis axis v) axis <= 1.
Proof.
  intros [Hw [Hlo Hhi]]. rewrite clip_check_flip. unfold clip_check.
  split; apply Qle_shift_div_r; auto; lra.
Qed.

(** The quotient of a coordinate by a w that is not zero. *)
Lemma quotient_times_w (a w : Q) : ~ w == 0 -> a == (a / w) * w.
Proof. intros Hw. field. exact Hw. Qed.

Lemma check_beyond_positive (v : Vertex) :
  beyond_positive axis v -> 1 < clip_check v axis.
Proof.
  unfold beyond_positive, clip_check.
  set (w := w4 (clipCoord v)). set (a := Vec4f_get (clipCoord v) axis).
  intros H.
  assert (Hw : ~ w == 0) by (destruct H as [[H _]|[H _]]; lra).
  pose proof (quotient_times_w a w Hw) as E.
  revert E. generalize (a / w). intros c E.
  destruct H as [[H0 H1]|[H0 H1]]; nra.
Qed.

Lemma check_beyond_negative (v : Vertex) :
  beyond_negative axis v ->
  clip_check v axis <= 1 /\ 1 < clip_check (flip_axis axis v) axis.
Proof.
  rewrite clip_check_flip. unfold beyond_negative, clip_check.
  set (w := w4 (clipCoord v)). set (a := Vec4f_get (clipCoord v) axis).
  intros H.
  assert (Hw : ~ w == 0) by (destruct H as [[H _]|[H _]]; lra).
  pose proof (quotient_times_w a w Hw) as E.
  pose proof (quotient_times_w (- a) w Hw) as E'.
  revert E E'. generalize (a / w) (- a / w). intros c c' E E'.
  destruct H as [[H0 H1]|[H0 H1]]; split; nra.
Qed.

Lemma map_flip_flip (l : list Vertex) :
  map (flip_axis axis) (map (flip_axis axis) l) = l.
Proof.
  rewrite map_map. rewrite <- (map_id l) at 2.
  apply map_ext. apply flip_axis_involutive.
Qed.

Lemma homogeneousClip_inside (original : list Vertex) :
  (forall v, In v original -> inside_volume axis v) ->
  homogeneousClip original [] axis = original.
Proof.
  intros Hall. unfold homogeneousClip.
  rewrite (singleFaceZClip_keeps original [])
    by (intros v Hv; now apply check_inside, Hall).
  cbn [app]. rewrite singleFaceZClip_keeps.
  - cbn [app]. apply map_flip_flip.
  - intros v Hv. apply in_map_iff in Hv. destruct Hv as [u [E Hu]]. subst v.
    now apply check_inside, Hall.
Qed.

Lemma homogeneousClip_beyond_positive (original : list Vertex) :
  (forall v, In v original -> beyond_positive axis v) ->
  homogeneousClip original [] axis = [].
Proof.
  intros Hall. unfold homogeneousClip.
  rewrite (singleFaceZClip_drops original [])
    by (intros v Hv; now apply check_beyond_positive, Hall).
  reflexivity.
Qed.

Lemma homogeneousClip_beyond_negative (original : list Vertex) :
  (forall v, In v original -> beyond_negative axis v) ->
  homogeneousClip original [] axis = [].
Proof.
  intros Hall. unfold homogeneousClip.
  rewrite (singleFaceZClip_keeps original [])
    by (intros v Hv; now apply check_beyond_negative, Hall).
  cbn [app]. rewrite singleFaceZClip_drops; [reflexivity|].
  intros v Hv. apply in_map_iff in Hv. destruct Hv as [u [E Hu]]. subst v.
  now apply check_beyond_negative, Hall.
Qed.

End Clipper.

(** C4 (amended).  [homogeneousClip] along an axis x, y or z returns a
    polygon all of whose vertices lie inside the canonical view volume
    ([-w <= axis <= w] with [w > 0]) unchanged, vertex for vertex; from a
    polygon that lies wholly beyond one of the two planes of the axis, as
    the clipper measures it on the quotient [axis / w] with w of either
    sign ([axis / w > 1] at every vertex, or [axis / w < -1] at every
    vertex), it returns no vertex at all, hence fewer than 3. *)
Theorem homogeneousClip_inside_outside (original : list Vertex) (axis : Z) :
  (0 <= axis <= 2)%Z ->
  ((forall v, In v original -> inside_volume axis v) ->
   homogeneousClip original [] axis = original)
  /\ ((forall v, In v original -> beyond_positive axis v)
      \/ (forall v, In v original -> beyond_negative axis v) ->
      homogeneousClip original [] axis = []
      /\ (length (homogeneousClip original [] axis) < 3)%nat).
Proof.
  intros Hax. split.
  - now apply homogeneousClip_inside.
  - intros [H|H].
    + rewrite homogeneousClip_beyond_positive by auto. cbn. split; [reflexivity|lia].
    + rewrite homogeneousClip_beyond_negative by auto. cbn. split; [reflexivity|lia].
Qed.





(* ------------------------------------------------------------------ *)
(** ** The shadow factor *)

Lemma float_to_int_range (f : Q) : (INT_MIN <= float_to_int f <= INT_MAX)%Z.
Proof.
  unfold float_to_int.
  destruct ((INT_MIN <=? _) && (_ <=? INT_MAX))%Z eqn:E.
  - apply andb_true_iff in E. lia.
  - unfold INT_MIN, INT_MAX. lia.
Qed.

Lemma to_unsigned_int (n : Z) : (0 <= n <= INT_MAX -> to_unsigned n = n)%Z.
Proof.
  intros Hn. unfold to_unsigned. apply Z.mod_small. unfold INT_MAX in Hn. lia.
Qed.

Lemma inject_Z_succ (a : Z) : inject_Z a + 1 = inject_Z (a + 1).
Proof.
  unfold Qplus, inject_Z. cbn [Qnum Qden]. f_equal. lia.
Qed.

Section ShadowFactor.

Variable uShadowBuffer : list Q.
Variables uShadowBufferWidth uShadowBufferHeight : Z.
Variable lightSpacePos : Vec3f.

Let in_bounds := pcf_in_bounds uShadowBufferWidth uShadowBufferHeight lightSpacePos.
Let stored := pcf_stored uShadowBuffer uShadowBufferWidth lightSpacePos.
Let hit (o : Z * Z) : bool := closer_than_plus_bias (stored o) (z3 lightSpacePos).

(** One neighbour of the filter, on the pair of [shadow] and [cntSample]. *)
Let step (acc : Q * Z) (o : Z * Z) : Q * Z :=
  if in_bounds o
  then ((if hit o then fst acc + 1 else fst acc), (snd acc + 1)%Z)
  else acc.

Lemma out_of_bounds_test (s extent : Z) :
  (INT_MIN <= s <= INT_MAX)%Z ->
  ((s <? 0) || (extent <=? to_unsigned s))%Z
  = negb ((0 <=? s) && (s <? extent))%Z.
Proof.
  intros Hs. destruct (s <? 0)%Z eqn:E.
  - apply Z.ltb_lt in E. replace (0 <=? s)%Z with false by (symmetry; lia).
    reflexivity.
  - apply Z.ltb_ge in E. rewrite to_unsigned_int by lia.
    replace (0 <=? s)%Z with true by (symmetry; lia). cbn.
    destruct (extent <=? s)%Z eqn:E1, (s <? extent)%Z eqn:E2; auto; lia.
Qed.

Lemma shadow_dy_step (dx dy : Z) (acc : Q * Z) :
  let sampleX := float_to_int (x3 lightSpacePos + inject_Z dx) in
  ((0 <=? sampleX) && (sampleX <? uShadowBufferWidth))%Z = true ->
  shadow_dy uShadowBuffer uShadowBufferWidth uShadowBufferHeight
            lightSpacePos sampleX acc dy
  = step acc (dx, dy).
Proof.
  intros sampleX Hx. unfold shadow_dy, step, in_bounds, hit, stored,
    pcf_in_bounds, pcf_stored, pcf_texel, closer_than_plus_bias.
  cbn [fst snd]. fold sampleX.
  rewrite out_of_bounds_test by apply float_to_int_range.
  rewrite Hx. cbn [andb].
  destruct ((0 <=? _) && (_ <? uShadowBufferHeight))%Z; cbn [negb];
    [destruct (Qltb _ _)|]; reflexivity.
Qed.

Lemma step_column_out (dx dy : Z) (acc : Q * Z) :
  let sampleX := float_to_int (x3 lightSpacePos + inject_Z dx) in
  ((0 <=? sampleX) && (sampleX <? uShadowBufferWidth))%Z = false ->
  step acc (dx, dy) = acc.
Proof.
  intros sampleX Hx. unfold step, in_bounds, pcf_in_bounds, pcf_texel.
  cbn [fst snd]. fold sampleX. now rewrite Hx.
Qed.

Lemma shadow_dx_steps (dx : Z) (acc : Q * Z) :
  shadow_dx uShadowBuffer uShadowBufferWidth uShadowBufferHeight
            lightSpacePos acc dx
  = fold_left step (map (fun dy => (dx, dy)) [-2; -1; 0; 1]%Z) acc.
Proof.
  unfold shadow_dx.
  rewrite out_of_bounds_test by apply float_to_int_range.
  change (Zrange (-2) 2) with [-2; -1; 0; 1]%Z.
  generalize [-2; -1; 0; 1]%Z. intros dys.
  destruct ((0 <=? _) && (_ <? uShadowBufferWidth))%Z eqn:Hx; cbn [negb];
    revert acc; induction dys as [|dy dys IH]; intros acc;
      cbn [map fold_left]; auto.
  - rewrite shadow_dy_step by exact Hx. apply IH.
  - rewrite step_column_out by exact Hx. apply IH.
Qed.

Lemma shadow_loops_steps (acc : Q * Z) :
  fold_left (shadow_dx uShadowBuffer uShadowBufferWidth uShadowBufferHeight
                       lightSpacePos)
            (Zrange (-2) 2) acc
  = fold_left step pcf_offsets acc.
Proof.
  unfold pcf_offsets. rewrite fold_left_flat_map.
  change (Zrange (-2) 2) with [-2; -1; 0; 1]%Z.
  apply fold_left_ext_in. intros a dx _. apply shadow_dx_steps.
Qed.

(** The two counters after a run of steps. *)
Lemma steps_count (os : list (Z * Z)) (a c : Z) :
  fold_left step os (inject_Z a, c)
  = (inject_Z (a + Z.of_nat (length (filter hit (filter in_bounds os)))),
     (c + Z.of_nat (length (filter in_bounds os)))%Z).
Proof.
  revert a c. induction os as [|o os IH]; intros a c; cbn [fold_left filter].
  - cbn [length Z.of_nat]. now rewrite !Z.add_0_r.
  - unfold step at 2. destruct (in_bounds o); [|apply IH].
    cbn [fst snd filter]. destruct (hit o).
    + rewrite inject_Z_succ, IH. cbn [length].
      apply (f_equal2 pair); [apply (f_equal inject_Z)|]; lia.
    + rewrite IH. cbn [length].
      apply (f_equal2 pair); [apply (f_equal inject_Z)|]; lia.
Qed.

End ShadowFactor.

(* ------------------------------------------------------------------ *)
(** ** Initialisation of the buffers *)

Lemma Zrange_snoc (lo hi : Z) : (lo <= hi)%Z -> Zrange lo (hi + 1) = Zrange lo hi ++ [hi].
Proof.
  intros H. unfold Zrange.
  replace (Z.to_nat (hi + 1 - lo)) with (S (Z.to_nat (hi - lo))) by lia.
  rewrite seq_S, map_app. cbn [map Nat.add]. do 2 f_equal. lia.
Qed.

(** Invariant rule for the loop [for (v = 0; v < n; ++v)]. *)
Lemma fold_left_Zrange_inv {A : Type} (f : A -> Z -> A) (P : Z -> A -> Prop)
      (a : A) (n : Z) :
  (0 <= n)%Z -> P 0%Z a ->
  (forall i a', (0 <= i < n)%Z -> P i a' -> P (i + 1)%Z (f a' i)) ->
  P n (fold_left f (Zrange 0 n) a).
Proof.
  intros Hn H0 Hstep.
  assert (H : forall m : nat, (Z.of_nat m <= n)%Z ->
                              P (Z.of_nat m) (fold_left f (Zrange 0 (Z.of_nat m)) a)).
  { induction m as [|m IH]; intros Hm.
    - exact H0.
    - replace (Z.of_nat (S m)) with (Z.of_nat m + 1)%Z by lia.
      rewrite Zrange_snoc, fold_left_app by lia. cbn [fold_left].
      apply Hstep; [lia|]. apply IH. lia. }
  specialize (H (Z.to_nat n)). rewrite Z2Nat.id in H by lia. apply H. lia.
Qed.

Lemma filled_next {A : Type} (v dflt : A) (l : list A) (m : Z) :
  (0 <= m)%Z -> filled v dflt l m -> filled v dflt (list_set l (Z.to_nat m) v) (m + 1).
Proof.
  intros Hm Hf k Hk Hlen. rewrite list_set_length in Hlen.
  destruct (Nat.eq_dec (Z.to_nat m) k) as [E|E].
  - subst k. now apply list_set_nth_same.
  - rewrite list_set_nth_other by exact E. apply Hf; auto. lia.
Qed.

Lemma filled_all {A : Type} (v dflt : A) (l : list A) (m : Z) :
  (Z.of_nat (length l) <= m)%Z -> filled v dflt l m -> Forall (fun a => a = v) l.
Proof.
  intros Hm Hf. apply Forall_forall. intros a Ha.
  destruct (In_nth l a dflt Ha) as [k [Hk E]]. subst a. apply Hf; auto. lia.
Qed.

Section InitBuffers.

Variables width height cntSample : Z.
Hypothesis pixels_nonneg : (0 <= width * height)%Z.
Hypothesis samples_nonneg : (0 <= cntSample)%Z.
Hypothesis slots_fit : (width * height * cntSample <= 2 ^ 32)%Z.

Let sentinel : spec_float := SFopp numeric_limits_float_max.

(** What holds when [m] slots of the depth buffer and [p] slots of the
    shadow depth buffer have been initialised. *)
Let initialised (m p : Z) (b : Buffers) : Prop :=
  length (main_zBuffer b) = Z.to_nat (width * height * cntSample)
  /\ length (shadowZBuffer b) = Z.to_nat (width * height)
  /\ filled sentinel S754_nan (main_zBuffer b) m
  /\ filled sentinel S754_nan (shadowZBuffer b) p.

Lemma init_sample_inv (i j : Z) (b : Buffers) :
  (0 <= i < width * height)%Z -> (0 <= j < cntSample)%Z ->
  initialised (cntSample * i + j) i b ->
  initialised (cntSample * i + (j + 1)) i (init_sample cntSample i b j).
Proof.
  intros Hi Hj [Hlz [Hls [Hz Hs]]].
  unfold initialised, init_sample. cbn [main_zBuffer shadowZBuffer].
  rewrite list_set_length.
  assert (Hidx : to_unsigned (cntSample * i + j) = (cntSample * i + j)%Z).
  { unfold to_unsigned. apply Z.mod_small. nia. }
  rewrite Hidx, Z.add_assoc. repeat split; auto.
  apply filled_next; auto. nia.
Qed.

Lemma init_pixel_inv (i : Z) (b : Buffers) :
  (0 <= i < width * height)%Z ->
  initialised (cntSample * i) i b ->
  initialised (cntSample * (i + 1)) (i + 1) (init_pixel cntSample b i).
Proof.
  intros Hi Hb. unfold init_pixel.
  assert (H : initialised (cntSample * i + cntSample) i
                (fold_left (init_sample cntSample i) (Zrange 0 cntSample) b)).
  { apply (fold_left_Zrange_inv (init_sample cntSample i)
             (fun j b' => initialised (cntSample * i + j) i b')); auto.
    - now rewrite Z.add_0_r.
    - intros j b' Hj Hb'. now apply init_sample_inv. }
  destruct H as [Hlz [Hls [Hz Hs]]].
  unfold initialised. cbn [main_zBuffer shadowZBuffer].
  rewrite list_set_length. repeat split; auto.
  - now rewrite Z.mul_add_distr_l, Z.mul_1_r.
  - apply filled_next; auto. lia.
Qed.

Lemma init_buffers_inv (jz js : nat -> spec_float) (jc jsc : nat -> Vec3f) :
  initialised (cntSample * (width * height)) (width * height)
              (init_buffers width height cntSample jz js jc jsc).
Proof.
  unfold init_buffers.
  apply (fold_left_Zrange_inv (init_pixel cntSample)
           (fun i b => initialised (cntSample * i) i b)); auto.
  - unfold initialised, new_array. cbn [main_zBuffer shadowZBuffer].
    rewrite !length_map, !length_seq. repeat split; auto.
    + intros k Hk. lia.
    + intros k Hk. lia.
  - intros i b Hi Hb. now apply init_pixel_inv.
Qed.

(** After the initialisation loops both depth buffers have their full
    length and every slot holds [-std::numeric_limits<float>::max()]. *)
Lemma init_buffers_depths (jz js : nat -> spec_float) (jc jsc : nat -> Vec3f) :
  Z.of_nat (length (main_zBuffer (init_buffers width height cntSample jz js jc jsc)))
  = (width * height * cntSample)%Z
  /\ Forall (fun z => z = sentinel)
            (main_zBuffer (init_buffers width height cntSample jz js jc jsc))
  /\ Z.of_nat (length (shadowZBuffer (init_buffers width height cntSample jz js jc jsc)))
     = (width * height)%Z
  /\ Forall (fun z => z = sentinel)
            (shadowZBuffer (init_buffers width height cntSample jz js jc jsc)).
Proof.
  destruct (init_buffers_inv jz js jc jsc) as [Hlz [Hls [Hz Hs]]].
  assert (Hn : (0 <= width * height * cntSample)%Z) by (apply Z.mul_nonneg_nonneg; lia).
  split; [rewrite Hlz; lia|]. split; [|split; [rewrite Hls; lia|]].
  - apply filled_all with (dflt := S754_nan) (m := (cntSample * (width * height))%Z);
      [rewrite Hlz; lia | exact Hz].
  - apply filled_all with (dflt := S754_nan) (m := (width * height)%Z);
      [rewrite Hls; lia | exact Hs].
Qed.

End InitBuffers.

(** C8 (amended).  Before any triangle is drawn in a pass, every slot of
    that pass's depth buffer (a flat array of width * height *
    samples-per-pixel slots: [CNT_SAMPLE] samples for the lit pass, one for
    the shadow pass) holds the sentinel empty depth
    [-std::numeric_limits<float>::max()], the lowest finite float
    -(2^24 - 1) * 2^104, which is not the negative infinity of the format. *)
Theorem depth_buffers_initialised (jz js : nat -> spec_float) (jc jsc : nat -> Vec3f) :
  (Z.of_nat (length (main_zBuffer (main_buffers jz js jc jsc)))
   = SCREEN_WIDTH * SCREEN_HEIGHT * CNT_SAMPLE)%Z
  /\ Forall (fun z => z = SFopp numeric_limits_float_max)
            (main_zBuffer (main_buffers jz js jc jsc))
  /\ (Z.of_nat (length (shadowZBuffer (main_buffers jz js jc jsc)))
      = SHADOW_WIDTH * SHADOW_HEIGHT * 1)%Z
  /\ Forall (fun z => z = SFopp numeric_limits_float_max)
            (shadowZBuffer (main_buffers jz js jc jsc))
  /\ SFopp numeric_limits_float_max = S754_finite true (2 ^ 24 - 1) 104
  /\ SFopp numeric_limits_float_max <> S754_infinity true.
Proof.
  unfold main_buffers.
  assert (Hp : (0 <= SCREEN_WIDTH * SCREEN_HEIGHT)%Z) by (vm_compute; discriminate).
  assert (Hs : (0 <= CNT_SAMPLE)%Z) by (vm_compute; discriminate).
  assert (Hf : (SCREEN_WIDTH * SCREEN_HEIGHT * CNT_SAMPLE <= 2 ^ 32)%Z)
    by (vm_compute; discriminate).
  destruct (init_buffers_depths SCREEN_WIDTH SCREEN_HEIGHT CNT_SAMPLE Hp Hs Hf
                                jz js jc jsc) as [Hlz [Hz [Hls Hsz]]].
  split; [exact Hlz|]. split; [exact Hz|].
  split; [rewrite Hls; reflexivity|]. split; [exact Hsz|].
  split; [reflexivity|discriminate].
Qed.

(* ------------------------------------------------------------------ *)
(** ** The sample-offset tables *)

(** C9.  The table without anti-aliasing has exactly one offset and the
    multi-sampling table exactly four.  The four are the centres of the
    quadrants of the pixel whose centre is the point [(x + 0.5, y + 0.5)]
    at which [triangle] evaluates the fragment; the single offset (0, 0)
    puts the sample of the pixel [(x, y)] at [(x, y)], half a pixel away
    from that centre along both axes, and not at the centre.  Whatever
    point is taken for the centre of the pixel, the two tables are not both
    centred on it. *)
Theorem non_msaa_sample_off_center (x y : Z) :
  length D_NonMSAA = 1%nat
  /\ length D_MSAA = 4%nat
  /\ Forall2 Vec2f_eq (map (sample_point D_MSAA x y) [0; 1; 2; 3]%Z)
                      (quadrant_centers (pixel_center x y))
  /\ Vec2f_eq (sample_point D_NonMSAA x y 0)
              (mkVec2f (x2 (pixel_center x y) - (1 # 2)) (y2 (pixel_center x y) - (1 # 2)))
  /\ ~ Vec2f_eq (sample_point D_NonMSAA x y 0) (pixel_center x y)
  /\ (forall c : Vec2f,
         Vec2f_eq (sample_point D_NonMSAA x y 0) c ->
         ~ Forall2 Vec2f_eq (map (sample_point D_MSAA x y) [0; 1; 2; 3]%Z)
                            (quadrant_centers c)).
Proof.
  split; [reflexivity|]. split; [reflexivity|].
  change (map (sample_point D_MSAA x y) [0; 1; 2; 3]%Z)
    with [ mkVec2f (inject_Z x + (1 # 4)) (inject_Z y + (1 # 4));
           mkVec2f (inject_Z x + (1 # 4)) (inject_Z y + (3 # 4));
           mkVec2f (inject_Z x + (3 # 4)) (inject_Z y + (1 # 4));
           mkVec2f (inject_Z x + (3 # 4)) (inject_Z y + (3 # 4)) ].
  change (sample_point D_NonMSAA x y 0)
    with (mkVec2f (inject_Z x + 0) (inject_Z y + 0)).
  unfold pixel_center, quadrant_centers, Vec2f_eq. cbn [x2 y2].
  split; [|split; [|split]].
  - repeat (apply Forall2_cons; [split; cbn [x2 y2]; ring|]). apply Forall2_nil.
  - split; ring.
  - intros [Hx _]. lra.
  - intros c [Hx Hy] H. inversion H as [|a b l l' [Hq _] _]; subst.
    cbn [x2 y2] in Hq. lra.
Qed.

(* ------------------------------------------------------------------ *)
(** ** The properties on the sample inputs *)

Lemma triangle_indices_in_bounds_witness :
  Forall (fun idx => (0 <= idx < 4 * 4 * 4)%Z)
         (accessed (triangle ex_triangle ex_shader 4 4 D_MSAA 4
                             (mkRaster (repeat ex_white 64) (repeat 0 64) []))).
Proof. apply (triangle_indices_in_bounds ex_triangle ex_shader); lia. Defined.

Lemma triangle_depth_test_witness :
  nth 0 (zBuffer (triangle ex_triangle ex_shader 1 1 D_NonMSAA 1 ex_pixel)) 0
  = sample_depth ex_triangle D_NonMSAA 0 0 0
  /\ nth 0 (colorBuffer (triangle ex_triangle ex_shader 1 1 D_NonMSAA 1 ex_pixel))
         (mkVec3f 0 0 0)
     = barycentric (tri_A ex_triangle) (tri_B ex_triangle) (tri_C ex_triangle)
                   (pixel_center 0 0).
Proof.
  refine (proj1 (triangle_depth_test ex_triangle ex_shader 1 1 D_NonMSAA 1
                   [ex_white] [1 # 2] 0 0 0 _ _ _ _ _ _) _ _ _).
  - lia.
  - lia.
  - vm_compute. discriminate.
  - reflexivity.
  - reflexivity.
  - vm_compute. left. reflexivity.
  - vm_compute. reflexivity.
  - vm_compute. discriminate.
  - reflexivity.
Defined.

(** C1, as stated, fails: the sample of the pixel (0, 0) of [ex_triangle]
    has the depth 1/2 that its slot already holds, it is inside the
    triangle, and the call replaces the white of the slot by the colour of
    the fragment. *)
Lemma equal_depth_sample_overwrites :
  sample_depth ex_triangle D_NonMSAA 0 0 0 == nth 0 (zBuffer ex_pixel) 0
  /\ sample_outside ex_triangle D_NonMSAA 0 0 0 = false
  /\ nth 0 (colorBuffer (triangle ex_triangle ex_shader 1 1 D_NonMSAA 1 ex_pixel))
         (mkVec3f 0 0 0)
     <> nth 0 (colorBuffer ex_pixel) (mkVec3f 0 0 0).
Proof.
  split; [vm_compute; reflexivity|]. split; [vm_compute; reflexivity|].
  vm_compute. discriminate.
Qed.

Lemma homogeneousClip_inside_outside_witness :
  homogeneousClip ex_inside [] 2 = ex_inside.
Proof.
  refine (proj1 (homogeneousClip_inside_outside ex_inside 2 _) _).
  - lia.
  - intros v [E|[E|[E|[]]]]; subst v; unfold inside_volume; cbn; lra.
Defined.

(** C4, as stated, fails: the three vertices of [ex_behind] have w = -1,
    so that the whole triangle lies outside the volume [-w <= z <= w],
    [w > 0], and [homogeneousClip] returns its three vertices. *)
Lemma polygon_behind_is_kept :
  (forall v, In v ex_behind -> w4 (clipCoord v) < 0 /\ ~ inside_volume 2 v)
  /\ length (homogeneousClip ex_behind [] 2) = 3%nat.
Proof.
  split; [|vm_compute; reflexivity].
  intros v [E|[E|[E|[]]]]; subst v; unfold inside_volume; cbn; split; try lra;
    intros [H _]; lra.
Qed.



(** C8, as stated, fails: the first slot of the depth buffer that [main]
    hands to the lit pass holds a finite number, not negative infinity. *)
Lemma sentinel_not_infinity :
  nth 0 (main_zBuffer (main_buffers (fun _ => S754_zero false) (fun _ => S754_zero false)
                                    (fun _ => ex_white) (fun _ => ex_white)))
      S754_nan
  <> S754_infinity true.
Proof.
  unfold main_buffers.
  assert (Hp : (0 <= SCREEN_WIDTH * SCREEN_HEIGHT)%Z) by (vm_compute; discriminate).
  assert (Hs : (0 <= CNT_SAMPLE)%Z) by (vm_compute; discriminate).
  assert (Hf : (SCREEN_WIDTH * SCREEN_HEIGHT * CNT_SAMPLE <= 2 ^ 32)%Z)
    by (vm_compute; discriminate).
  destruct (init_buffers_depths SCREEN_WIDTH SCREEN_HEIGHT CNT_SAMPLE Hp Hs Hf
              (fun _ => S754_zero false) (fun _ => S754_zero false)
              (fun _ => ex_white) (fun _ => ex_white)) as [Hlz [Hz _]].
  rewrite Forall_forall in Hz.
  rewrite (Hz (nth 0 _ S754_nan)).
  - discriminate.
  - apply nth_In.
    assert (0 < SCREEN_WIDTH * SCREEN_HEIGHT * CNT_SAMPLE)%Z by (vm_compute; reflexivity).
    lia.
Qed.

(* ================================================================== *)
(** * Further properties of the kernels *)

(* ------------------------------------------------------------------ *)
(** ** Barycentric weights *)








(* ------------------------------------------------------------------ *)
(** ** The depth buffer under [triangle] *)

Lemma list_set_nth_cases {A : Type} (l : list A) (n k : nat) (v dflt : A) :
  nth k (list_set l n v) dflt
  = if ((n =? k) && (n <? length l))%nat then v else nth k l dflt.
Proof.
  revert n k. induction l as [|h t IH]; intros n k.
  - cbn [list_set length].
    replace (n <? 0)%nat with false by (symmetry; apply Nat.ltb_ge; lia).
    now rewrite andb_false_r.
  - destruct n as [|n]; destruct k as [|k]; cbn [list_set nth length]; auto.
Qed.

Section DepthOrder.

Variable screenCoords : Vec4f * Vec4f * Vec4f.
Variable shader : IShader.
Variables width height : Z.
Variable d : list (Q * Q).
Variable cntSample : Z.

Let update := sample_update screenCoords shader width d cntSample.






End DepthOrder.


(** X4.  A slot that is the slot of no sample of the call keeps its colour
    and its depth. *)
Theorem triangle_other_slots_unchanged
        (screenCoords : Vec4f * Vec4f * Vec4f) (shader : IShader)
        (width height : Z) (d : list (Q * Q)) (cntSample : Z) (r : Raster) (k : nat) :
  (forall x y i, In (x, y, i) (triangle_samples screenCoords width height cntSample) ->
                 Z.to_nat (sample_index width cntSample x y i) <> k) ->
  let after := triangle screenCoords shader width height d cntSample r in
  nth k (colorBuffer after) (mkVec3f 0 0 0) = nth k (colorBuffer r) (mkVec3f 0 0 0)
  /\ nth k (zBuffer after) 0 = nth k (zBuffer r) 0.
Proof.
  intros Hk after.
  pose proof (triangle_slot_updates screenCoords shader width height d cntSample r) as E.
  fold after in E.
  assert (Ec : colorBuffer after = fst (buffers after)) by reflexivity.
  assert (Ez : zBuffer after = snd (buffers after)) by reflexivity.
  rewrite Ec, Ez, E.
  apply (fold_update_other_slots screenCoords shader width d cntSample).
  intros [[x y] i] Hs. now apply Hk.
Qed.


Lemma triangle_other_slots_unchanged_witness :
  nth 60 (colorBuffer (triangle ex_small_triangle ex_shader 4 4 D_MSAA 4 ex_raster))
      (mkVec3f 0 0 0)
  = nth 60 (colorBuffer ex_raster) (mkVec3f 0 0 0)
  /\ nth 60 (zBuffer (triangle ex_small_triangle ex_shader 4 4 D_MSAA 4 ex_raster)) 0
     = nth 60 (zBuffer ex_raster) 0.
Proof.
  apply (triangle_other_slots_unchanged ex_small_triangle ex_shader 4 4 D_MSAA 4
                                        ex_raster 60).
  intros x y i H. vm_compute in H.
  repeat (destruct H as [H|H]; [inversion H; vm_compute; lia|]). destruct H.
Defined.



Section TwoTriangles.

Variables width height : Z.
Variable d : list (Q * Q).
Variable cntSample : Z.

Hypothesis width_pos : (1 <= width)%Z.
Hypothesis height_pos : (1 <= height)%Z.
Hypothesis slots_fit : (width * height * cntSample <= 2 ^ 32)%Z.


End TwoTriangles.



(* ------------------------------------------------------------------ *)
(** ** The shadow factor: range and reads *)

Lemma filter_length_le_Z {A : Type} (f : A -> bool) (l : list A) :
  (Z.of_nat (length (filter f l)) <= Z.of_nat (length l))%Z.
Proof.
  induction l as [|a l IH]; cbn [filter length]; [lia|].
  destruct (f a); cbn [length]; lia.
Qed.

(** X8.  When at least one of the sixteen neighbours falls in the shadow
    buffer, the shadow factor lies between 0 and 1. *)
Theorem shadow_factor_range
        (uShadowBuffer : list Q) (uShadowBufferWidth uShadowBufferHeight : Z)
        (lightSpacePos : Vec3f) (o : Z * Z) :
  In o pcf_offsets ->
  pcf_in_bounds uShadowBufferWidth uShadowBufferHeight lightSpacePos o = true ->
  0 <= fragment_shadow uShadowBuffer uShadowBufferWidth uShadowBufferHeight lightSpacePos
  /\ fragment_shadow uShadowBuffer uShadowBufferWidth uShadowBufferHeight lightSpacePos
     <= 1.
Proof.
  intros Ho Hb. unfold fragment_shadow.
  rewrite (shadow_loops_steps uShadowBuffer uShadowBufferWidth uShadowBufferHeight).
  change (0, 0%Z) with (inject_Z 0, 0%Z).
  rewrite (steps_count uShadowBuffer uShadowBufferWidth uShadowBufferHeight).
  cbn [Z.add].
  set (inb := filter (pcf_in_bounds uShadowBufferWidth uShadowBufferHeight lightSpacePos)
                     pcf_offsets).
  set (hit := filter _ inb).
  assert (Hn : (0 < Z.of_nat (length inb))%Z).
  { assert (Hi : In o inb) by (apply filter_In; auto).
    destruct inb; [destruct Hi|cbn [length]; lia]. }
  assert (Hh : (0 <= Z.of_nat (length hit) <= Z.of_nat (length inb))%Z).
  { split; [lia|apply filter_length_le_Z]. }
  assert (Hq : 0 < inject_Z (Z.of_nat (length inb))).
  { change 0 with (inject_Z 0). rewrite <- Zlt_Qlt. exact Hn. }
  split.
  - apply Qle_shift_div_l; [exact Hq|]. rewrite Qmult_0_l.
    change 0 with (inject_Z 0). rewrite <- Zle_Qle. lia.
  - apply Qle_shift_div_r; [exact Hq|]. rewrite Qmult_1_l.
    rewrite <- Zle_Qle. lia.
Qed.

Lemma pcf_stored_prefix (buffer extra : list Q) (width height : Z)
      (lightSpacePos : Vec3f) (o : Z * Z) :
  Z.of_nat (length buffer) = (width * height)%Z ->
  pcf_in_bounds width height lightSpacePos o = true ->
  pcf_stored (buffer ++ extra) width lightSpacePos o
  = pcf_stored buffer width lightSpacePos o.
Proof.
  intros Hlen Hb. unfold pcf_stored, pcf_in_bounds in *.
  destruct (pcf_texel lightSpacePos o) as [sx sy].
  apply andb_true_iff in Hb. destruct Hb as [Hb Hy2].
  apply andb_true_iff in Hb. destruct Hb as [Hb Hy1].
  apply andb_true_iff in Hb. destruct Hb as [Hx1 Hx2].
  apply Z.leb_le in Hx1, Hy1. apply Z.ltb_lt in Hx2, Hy2.
  apply app_nth1.
  assert (0 <= sy * width + sx < width * height)%Z by nia.
  unfold to_unsigned.
  pose proof (Z.mod_pos_bound (sy * width + sx) (2 ^ 32) ltac:(lia)).
  pose proof (Z.mod_le (sy * width + sx) (2 ^ 32) ltac:(lia) ltac:(lia)).
  lia.
Qed.

(** X9.  The shadow lookup reads the first width x height entries of the
    shadow buffer only: whatever follows them in memory has no influence on
    the shadow factor. *)
Theorem shadow_lookup_within_buffer
        (uShadowBuffer extra : list Q) (uShadowBufferWidth uShadowBufferHeight : Z)
        (lightSpacePos : Vec3f) :
  Z.of_nat (length uShadowBuffer) = (uShadowBufferWidth * uShadowBufferHeight)%Z ->
  fragment_shadow (uShadowBuffer ++ extra) uShadowBufferWidth uShadowBufferHeight
                  lightSpacePos
  = fragment_shadow uShadowBuffer uShadowBufferWidth uShadowBufferHeight lightSpacePos.
Proof.
  intros Hlen. unfold fragment_shadow.
  rewrite !shadow_loops_steps.
  change (0, 0%Z) with (inject_Z 0, 0%Z).
  rewrite !steps_count.
  set (inb := filter (pcf_in_bounds uShadowBufferWidth uShadowBufferHeight lightSpacePos)
                     pcf_offsets).
  assert (E : filter (fun o => closer_than_plus_bias
                                 (pcf_stored (uShadowBuffer ++ extra) uShadowBufferWidth
                                             lightSpacePos o) (z3 lightSpacePos)) inb
              = filter (fun o => closer_than_plus_bias
                                   (pcf_stored uShadowBuffer uShadowBufferWidth
                                               lightSpacePos o) (z3 lightSpacePos)) inb).
  { apply filter_ext_in. intros o Ho. apply filter_In in Ho. destruct Ho as [_ Ho].
    now rewrite (pcf_stored_prefix uShadowBuffer extra uShadowBufferWidth
                                   uShadowBufferHeight). }
  rewrite E. reflexivity.
Qed.

Lemma shadow_factor_range_witness :
  0 <= fragment_shadow ex_shadow_buffer 4 4 ex_light_space_pos
  /\ fragment_shadow ex_shadow_buffer 4 4 ex_light_space_pos <= 1.
Proof.
  apply (shadow_factor_range ex_shadow_buffer 4 4 ex_light_space_pos (0, 0)%Z).
  - vm_compute. tauto.
  - vm_compute. reflexivity.
Defined.

Lemma shadow_lookup_within_buffer_witness :
  fragment_shadow (ex_shadow_buffer ++ [1; 1]) 4 4 ex_light_space_pos
  = fragment_shadow ex_shadow_buffer 4 4 ex_light_space_pos.
Proof.
  apply (shadow_lookup_within_buffer ex_shadow_buffer [1; 1] 4 4 ex_light_space_pos).
  reflexivity.
Defined.

(* ------------------------------------------------------------------ *)
(** ** The transformations *)

(** Evaluation of the entries of the transformation matrices. *)
Ltac matrix_entries :=
  cbv [ortho perspective projection viewport mul_mv mul_mm dot4 Matrix_col Matrix_set
       Matrix_row Vec4f_set Vec4f_get Matrix_identity Matrix_zero
       row_0 row_1 row_2 row_3 x4 y4 z4 w4 Z.leb Z.eqb Z.compare Pos.eqb Pos.compare
       Pos.compare_cont].


(** X11.  [viewport] sends the centre of the cell [(i, j)] of the grid of
    width x height equal cells of the square [-1, 1] x [-1, 1] to the point
    [(i, j)]: integer screen coordinates are the centres of the pixels.  The
    depth and w pass unchanged.  The sizes are below 2^24, the range in
    which their conversion to [float] is exact. *)
Theorem viewport_cell_centres (width height i j : Z) (z : Q) :
  (1 <= width < 2 ^ 24)%Z -> (1 <= height < 2 ^ 24)%Z ->
  let cx := -(1) + (2 * inject_Z i + 1) / inject_Z width in
  let cy := -(1) + (2 * inject_Z j + 1) / inject_Z height in
  Vec4f_eq (mul_mv (viewport width height) (mkVec4f cx cy z 1))
           (mkVec4f (inject_Z i) (inject_Z j) z 1).
Proof.
  intros Hw Hh cx cy. unfold Vec4f_eq, cx, cy. matrix_entries.
  unfold to_unsigned. rewrite !Z.mod_small by lia.
  unfold Z.sub. rewrite !inject_Z_plus.
  change (inject_Z (- (1))%Z) with (- (1)).
  assert (Hqw : ~ inject_Z width == 0).
  { change 0 with (inject_Z 0). rewrite inject_Z_injective. lia. }
  assert (Hqh : ~ inject_Z height == 0).
  { change 0 with (inject_Z 0). rewrite inject_Z_injective. lia. }
  repeat split; field; auto.
Qed.


(** X13.  The w that [projection] gives a point [(x, y, z)] of camera space
    is the camera-space depth [z], whatever the parameters of the frustum:
    the last row of the product of [ortho] and [perspective] is (0, 0, 1, 0).
    What lies in front of the camera, where z is negative, has a negative
    w.  The near and far distances are at most 2^60 in magnitude, so that no
    entry of [perspective] overflows. *)
Theorem projection_w_is_depth (tan_half_fov ratio n f x y z : Q) :
  Qabs n <= inject_Z (2 ^ 60) -> Qabs f <= inject_Z (2 ^ 60) ->
  let clip := mul_mv (projection tan_half_fov ratio n f) (mkVec4f x y z 1) in
  Vec4f_eq (row_3 (projection tan_half_fov ratio n f)) (mkVec4f 0 0 1 0)
  /\ w4 clip == z
  /\ (z < 0 -> w4 clip < 0).
Proof.
  intros _ _ clip.
  assert (E : w4 clip == z) by (unfold clip; matrix_entries; ring).
  split; [unfold Vec4f_eq; matrix_entries; repeat split; ring|].
  split; [exact E|]. intros Hz. rewrite E. exact Hz.
Qed.

Lemma viewport_cell_centres_witness :
  Vec4f_eq (mul_mv (viewport 4 4)
                   (mkVec4f (-(1) + (2 * inject_Z 1 + 1) / inject_Z 4)
                            (-(1) + (2 * inject_Z 2 + 1) / inject_Z 4) 0 1))
           (mkVec4f (inject_Z 1) (inject_Z 2) 0 1).
Proof. apply (viewport_cell_centres 4 4 1 2 0); lia. Defined.


Lemma projection_w_is_depth_witness :
  w4 (mul_mv (projection (1 # 2) 1 (-(1 # 100)) (-(10))) (mkVec4f 1 1 (-(3)) 1)) == -(3).
Proof.
  refine (proj1 (proj2 (projection_w_is_depth (1 # 2) 1 (-(1 # 100)) (-(10)) 1 1 (-(3))
                                              _ _)));
    vm_compute; discriminate.
Defined.

(* ------------------------------------------------------------------ *)
(** ** The vertex stages and the varyings *)







(* ------------------------------------------------------------------ *)
(** ** Images: reading and writing pixels *)

Lemma memcpy_length (dst : list Z) (p : Z) (src : list Z) (n : Z) :
  length (memcpy dst p src n) = length dst.
Proof.
  unfold memcpy. generalize (Zrange 0 n). intros l. revert dst.
  induction l as [|i l IH]; intros dst; cbn [fold_left]; auto.
  now rewrite IH, list_set_length.
Qed.

(** The bytes of a buffer after [memcpy]. *)
Lemma memcpy_nth (dst : list Z) (p : Z) (src : list Z) (n : Z) (k : nat) :
  (0 <= p)%Z -> (0 <= n)%Z -> (p + n <= Z.of_nat (length dst))%Z ->
  nth k (memcpy dst p src n) 0%Z
  = if ((p <=? Z.of_nat k) && (Z.of_nat k <? p + n))%Z
    then nth (Z.to_nat (Z.of_nat k - p)) src 0%Z else nth k dst 0%Z.
Proof.
  intros Hp Hn Hlen. unfold memcpy.
  apply (fold_left_Zrange_inv
           (fun d i => list_set d (Z.to_nat (p + i)) (nth (Z.to_nat i) src 0%Z))
           (fun m d => length d = length dst
                       /\ nth k d 0%Z
                          = if ((p <=? Z.of_nat k) && (Z.of_nat k <? p + m))%Z
                            then nth (Z.to_nat (Z.of_nat k - p)) src 0%Z
                            else nth k dst 0%Z)); auto.
  - split; [reflexivity|].
    destruct (p <=? Z.of_nat k)%Z eqn:E1, (Z.of_nat k <? p + 0)%Z eqn:E2;
      cbn [andb]; auto; lia.
  - intros i d Hi [Hl Hd]. rewrite list_set_length. split; [exact Hl|].
    rewrite list_set_nth_cases, Hd.
    destruct (Nat.eqb (Z.to_nat (p + i)) k) eqn:Ek.
    + apply Nat.eqb_eq in Ek.
      replace (Z.to_nat (p + i) <? length d)%nat with true
        by (symmetry; apply Nat.ltb_lt; lia).
      cbn [andb].
      replace (p <=? Z.of_nat k)%Z with true by (symmetry; lia).
      replace (Z.of_nat k <? p + (i + 1))%Z with true by (symmetry; lia).
      cbn [andb]. f_equal. lia.
    + apply Nat.eqb_neq in Ek. cbn [andb].
      destruct (p <=? Z.of_nat k)%Z eqn:E1; cbn [andb]; auto.
      destruct (Z.of_nat k <? p + i)%Z eqn:E2, (Z.of_nat k <? p + (i + 1))%Z eqn:E3;
        auto; lia.
Qed.

Section ImagePixels.

Variable img : TGAImage.
Hypothesis img_wf : TGAImage_wf img.


Lemma inside_not_outside (x y : Z) :
  (0 <= x < img_width img)%Z -> (0 <= y < img_height img)%Z -> TGAImage_outside img x y = false.
Proof.
  intros Hx Hy. destruct img_wf as [Hw [Hh [Hb Hl]]]. unfold TGAImage_outside.
  assert (length (data img) <> 0)%nat by nia.
  apply Nat.eqb_neq in H. rewrite H. cbn [orb].
  repeat (apply orb_false_iff; split); lia.
Qed.

Lemma pixel_offset_bounds (x y : Z) :
  (0 <= x < img_width img)%Z -> (0 <= y < img_height img)%Z ->
  (0 <= (x + y * img_width img) * (img_bytespp img)
   /\ (x + y * img_width img) * (img_bytespp img) + (img_bytespp img) <= Z.of_nat (length (data img)))%Z.
Proof.
  intros Hx Hy. destruct img_wf as [Hw [Hh [Hb Hl]]].
  rewrite Hl.
  assert (0 <= x + y * img_width img <= img_width img * img_height img - 1)%Z by nia. nia.
Qed.

Lemma TGAImage_set_wf (x y : Z) (c : TGAColor) : TGAImage_wf (TGAImage_set img x y c).
Proof.
  unfold TGAImage_set. destruct (TGAImage_outside img x y); [exact img_wf|].
  unfold TGAImage_wf. cbn [data img_width img_height img_bytespp].
  rewrite memcpy_length. exact img_wf.
Qed.

Lemma TGAImage_set_sizes (x y : Z) (c : TGAColor) :
  img_width (TGAImage_set img x y c) = img_width img /\ img_height (TGAImage_set img x y c) = img_height img
  /\ img_bytespp (TGAImage_set img x y c) = (img_bytespp img).
Proof.
  unfold TGAImage_set. destruct (TGAImage_outside img x y); auto.
Qed.

(** The first bytes of [c], as a pixel of the image holds them. *)
Let stored (c : TGAColor) : TGAColor :=
  mkTGAColor (map (fun i => if (i <? img_bytespp img)%Z then nth (Z.to_nat i) (bgra c) 0%Z else 0%Z)
                  [0; 1; 2; 3]%Z) (img_bytespp img).

Lemma TGAImage_get_set_same (x y : Z) (c : TGAColor) :
  (0 <= x < img_width img)%Z -> (0 <= y < img_height img)%Z ->
  TGAImage_get (TGAImage_set img x y c) x y = stored c.
Proof.
  intros Hx Hy.
  pose proof (inside_not_outside x y Hx Hy) as Hin.
  destruct (pixel_offset_bounds x y Hx Hy) as [Ho1 Ho2].
  unfold TGAImage_get, TGAImage_set. rewrite Hin.
  unfold TGAImage_outside in *. cbn [data img_width img_height img_bytespp].
  rewrite memcpy_length. rewrite Hin.
  unfold TGAColor_at, stored. f_equal.
  apply map_ext_in. intros i Hi.
  destruct (i <? img_bytespp img)%Z eqn:E; [|reflexivity].
  assert (Hb : (1 <= (img_bytespp img) <= 4)%Z) by apply img_wf.
  rewrite memcpy_nth by lia.
  assert (0 <= i)%Z by (cbn in Hi; lia).
  apply Z.ltb_lt in E.
  rewrite Z2Nat.id by lia.
  replace ((x + y * img_width img) * img_bytespp img
           <=? (x + y * img_width img) * img_bytespp img + i)%Z
    with true by (symmetry; apply Z.leb_le; lia).
  replace ((x + y * img_width img) * img_bytespp img + i
           <? (x + y * img_width img) * img_bytespp img + img_bytespp img)%Z
    with true by (symmetry; apply Z.ltb_lt; lia).
  cbn [andb]. f_equal. lia.
Qed.

Lemma TGAImage_get_set_other (x y x' y' : Z) (c : TGAColor) :
  (0 <= x < img_width img)%Z -> (0 <= x' < img_width img)%Z -> (0 <= y' < img_height img)%Z -> (x', y') <> (x, y) ->
  TGAImage_get (TGAImage_set img x y c) x' y' = TGAImage_get img x' y'.
Proof.
  intros Hx Hx' Hy' Hne.
  unfold TGAImage_set. destruct (TGAImage_outside img x y) eqn:Hout; [reflexivity|].
  assert (Hy : (0 <= y < img_height img)%Z).
  { unfold TGAImage_outside in Hout.
    repeat (apply orb_false_iff in Hout; destruct Hout as [Hout ?]). lia. }
  pose proof (inside_not_outside x' y' Hx' Hy') as Hin.
  destruct (pixel_offset_bounds x y Hx Hy) as [Ho1 Ho2].
  destruct (pixel_offset_bounds x' y' Hx' Hy') as [Ho1' Ho2'].
  unfold TGAImage_get. rewrite Hin.
  unfold TGAImage_outside in *. cbn [data img_width img_height img_bytespp].
  rewrite memcpy_length. rewrite Hin.
  unfold TGAColor_at. f_equal.
  apply map_ext_in. intros i Hi.
  destruct (i <? img_bytespp img)%Z eqn:E; [|reflexivity].
  assert (Hb' : (1 <= (img_bytespp img) <= 4)%Z) by apply img_wf.
  rewrite memcpy_nth by lia.
  assert (0 <= i)%Z by (cbn in Hi; lia).
  destruct img_wf as [Hw [Hh [Hb Hl]]].
  assert (Hd : (x' + y' * img_width img <> x + y * img_width img)%Z).
  { intro Eq. apply Hne.
    destruct (Z.div_mod_unique (img_width img) y' y x' x) as [Ey Ex]; try lia.
    congruence. }
  assert (Hfar : ((x' + y' * img_width img) * (img_bytespp img) + i < (x + y * img_width img) * (img_bytespp img)
                  \/ (x + y * img_width img) * (img_bytespp img) + (img_bytespp img) <= (x' + y' * img_width img) * (img_bytespp img) + i)%Z) by nia.
  apply Z.ltb_lt in E.
  rewrite Z2Nat.id by lia.
  destruct Hfar as [Hfar|Hfar].
  - replace ((x + y * img_width img) * img_bytespp img
             <=? (x' + y' * img_width img) * img_bytespp img + i)%Z
      with false by (symmetry; apply Z.leb_gt; lia).
    reflexivity.
  - replace ((x' + y' * img_width img) * img_bytespp img + i
             <? (x + y * img_width img) * img_bytespp img + img_bytespp img)%Z
      with false by (symmetry; apply Z.ltb_ge; lia).
    now rewrite andb_false_r.
Qed.

End ImagePixels.

(** X16.  Reading back a pixel that has just been written gives the first
    [bytespp] bytes of the colour written (the image keeps no more), the
    other pixels are unchanged, and outside the image a write does nothing
    and a read gives the default colour. *)
Theorem TGAImage_get_after_set (img : TGAImage) (x y : Z) (c : TGAColor) :
  TGAImage_wf img ->
  ((0 <= x < img_width img)%Z -> (0 <= y < img_height img)%Z ->
   TGAImage_get (TGAImage_set img x y c) x y
   = mkTGAColor (map (fun i => if (i <? img_bytespp img)%Z
                               then nth (Z.to_nat i) (bgra c) 0%Z else 0%Z)
                     [0; 1; 2; 3]%Z) (img_bytespp img)
   /\ forall x' y', (0 <= x' < img_width img)%Z -> (0 <= y' < img_height img)%Z ->
                    (x', y') <> (x, y) ->
                    TGAImage_get (TGAImage_set img x y c) x' y' = TGAImage_get img x' y')
  /\ (~ ((0 <= x < img_width img)%Z /\ (0 <= y < img_height img)%Z) ->
      TGAImage_set img x y c = img /\ TGAImage_get img x y = TGAColor_default).
Proof.
  intros Hwf. split.
  - intros Hx Hy. split.
    + now apply TGAImage_get_set_same.
    + intros x' y' Hx' Hy' Hne. now apply TGAImage_get_set_other.
  - intros Hout.
    assert (E : TGAImage_outside img x y = true).
    { unfold TGAImage_outside.
      destruct (x <? 0)%Z eqn:E1, (y <? 0)%Z eqn:E2, (img_width img <=? x)%Z eqn:E3,
               (img_height img <=? y)%Z eqn:E4; rewrite ?orb_true_r; auto.
      exfalso. apply Hout. lia. }
    unfold TGAImage_set, TGAImage_get. rewrite E. auto.
Qed.

Lemma TGAImage_get_after_set_witness :
  TGAImage_get (TGAImage_set ex_image 1 0 (TGAColor_rgba 10 20 30 255)) 1 0
  = mkTGAColor [30; 20; 10; 0]%Z 3.
Proof.
  refine (proj1 (proj1 (TGAImage_get_after_set ex_image 1 0
                          (TGAColor_rgba 10 20 30 255) _) _ _)).
  - unfold TGAImage_wf. vm_compute. repeat split; (reflexivity || discriminate).
  - vm_compute. split; (reflexivity || discriminate).
  - vm_compute. split; (reflexivity || discriminate).
Defined.

(* ------------------------------------------------------------------ *)
(** ** Resolving the samples *)

Section PaintedImage.

(** An image filled column by column, the pixel [(x, y)] receiving the
    colour [paint w x y] where [w] is the width of the image. *)
Variable paint : Z -> Z -> Z -> TGAColor.
Variable frame : TGAImage.
Hypothesis frame_wf : TGAImage_wf frame.

Let paint_pixel (x : Z) (f : TGAImage) (y : Z) : TGAImage :=
  TGAImage_set f x y (paint (img_width f) x y).

(** The colour of a pixel as the image holds it. *)
Let written (x y : Z) : TGAColor :=
  mkTGAColor
    (map (fun i => if (i <? img_bytespp frame)%Z
                   then nth (Z.to_nat i) (bgra (paint (img_width frame) x y)) 0%Z
                   else 0%Z) [0; 1; 2; 3]%Z)
    (img_bytespp frame).

Let same_sizes (f : TGAImage) : Prop :=
  TGAImage_wf f /\ img_width f = img_width frame /\ img_height f = img_height frame
  /\ img_bytespp f = img_bytespp frame.

(** The pixels up to the row [j] of the column [x] hold their colour, the
    others what [frame] held. *)
Let painted (x j : Z) (f : TGAImage) : Prop :=
  same_sizes f
  /\ forall x' y', (0 <= x' < img_width frame)%Z -> (0 <= y' < img_height frame)%Z ->
       TGAImage_get f x' y'
       = if ((x' <? x) || ((x' =? x) && (y' <? j)))%Z then written x' y'
         else TGAImage_get frame x' y'.

Lemma paint_pixel_painted (x j : Z) (f : TGAImage) :
  (0 <= x < img_width frame)%Z -> (0 <= j < img_height frame)%Z ->
  painted x j f -> painted x (j + 1) (paint_pixel x f j).
Proof.
  intros Hx Hj [[Hwf [Ew [Eh Eb]]] Hget]. unfold paint_pixel.
  set (c := paint (img_width f) x j).
  destruct (TGAImage_set_sizes f x j c) as [Sw [Sh Sb]].
  split.
  - split; [now apply TGAImage_set_wf|]. repeat split; congruence.
  - intros x' y' Hx' Hy'.
    destruct (Z.eq_dec x' x) as [Ex|Ex]; [destruct (Z.eq_dec y' j) as [Ey|Ey]|].
    + subst x' y'. rewrite TGAImage_get_set_same by (auto; lia).
      rewrite Z.eqb_refl.
      replace (j <? j + 1)%Z with true by (symmetry; apply Z.ltb_lt; lia).
      rewrite orb_true_r. unfold written, c. rewrite Ew, Eb. reflexivity.
    + rewrite TGAImage_get_set_other by (auto; try lia; congruence).
      rewrite Hget by assumption. subst x'. rewrite !Z.eqb_refl. cbn [andb].
      replace (y' <? j + 1)%Z with (y' <? j)%Z; [reflexivity|].
      destruct (y' <? j)%Z eqn:E1, (y' <? j + 1)%Z eqn:E2; auto; lia.
    + rewrite TGAImage_get_set_other by (auto; try lia; congruence).
      rewrite Hget by assumption.
      replace (x' =? x)%Z with false by (symmetry; apply Z.eqb_neq; exact Ex).
      reflexivity.
Qed.

Lemma paint_column_painted (x : Z) (f : TGAImage) :
  (0 <= x < img_width frame)%Z ->
  painted x 0 f ->
  painted (x + 1) 0 (fold_left (paint_pixel x) (Zrange 0 (img_height f)) f).
Proof.
  intros Hx Hp.
  assert (Hh : img_height f = img_height frame) by apply Hp.
  assert (H0 : (0 < img_height frame)%Z) by apply frame_wf.
  rewrite Hh.
  pose proof (fold_left_Zrange_inv (paint_pixel x) (painted x) f (img_height frame)
                                   ltac:(lia) Hp) as H.
  destruct H as [Hs Hget].
  { intros j f' Hj Hf'. now apply paint_pixel_painted. }
  split; [exact Hs|].
  intros x' y' Hx' Hy'. rewrite Hget by assumption.
  replace (y' <? img_height frame)%Z with true by (symmetry; apply Z.ltb_lt; lia).
  replace (y' <? 0)%Z with false by (symmetry; apply Z.ltb_ge; lia).
  rewrite andb_true_r, andb_false_r, orb_false_r.
  destruct (x' <? x)%Z eqn:E1, (x' =? x)%Z eqn:E2, (x' <? x + 1)%Z eqn:E3;
    cbn [orb]; auto; lia.
Qed.

(** Every pixel of the image filled holds its own colour. *)
Lemma painted_image (x y : Z) :
  (0 <= x < img_width frame)%Z -> (0 <= y < img_height frame)%Z ->
  TGAImage_get
    (fold_left (fun f x => fold_left (paint_pixel x) (Zrange 0 (img_height f)) f)
               (Zrange 0 (img_width frame)) frame) x y
  = written x y.
Proof.
  intros Hx Hy.
  assert (H0 : (0 < img_width frame)%Z) by apply frame_wf.
  pose proof (fold_left_Zrange_inv
                (fun f x => fold_left (paint_pixel x) (Zrange 0 (img_height f)) f)
                (fun x f => painted x 0 f) frame (img_width frame) ltac:(lia)) as H.
  destruct H as [_ Hget].
  - split; [split; [exact frame_wf|repeat split]|].
    intros x' y' Hx' Hy'.
    replace (x' <? 0)%Z with false by (symmetry; apply Z.ltb_ge; lia).
    replace (y' <? 0)%Z with false by (symmetry; apply Z.ltb_ge; lia).
    now rewrite andb_false_r.
  - intros x' f Hx' Hf. now apply paint_column_painted.
  - rewrite Hget by assumption.
    replace (x <? img_width frame)%Z with true by (symmetry; apply Z.ltb_lt; lia).
    reflexivity.
Qed.

End PaintedImage.

(** X17.  After [writeFrame], every pixel of the image holds the colour
    resolved from its own samples: the sum of the colours of its written
    samples divided by the number of samples, each component truncated to a
    byte, stored blue first and cut to the bytes per pixel of the image. *)
Theorem writeFrame_pixels
        (zBuffer : list Q) (colorBuffer : list Vec3f) (cntSample : Z)
        (frame : TGAImage) (x y : Z) :
  TGAImage_wf frame ->
  (0 <= x < img_width frame)%Z -> (0 <= y < img_height frame)%Z ->
  let color := resolve_pixel zBuffer colorBuffer cntSample (img_width frame) x y in
  TGAImage_get (writeFrame zBuffer colorBuffer cntSample frame) x y
  = mkTGAColor
      (map (fun i => if (i <? img_bytespp frame)%Z
                     then nth (Z.to_nat i)
                              [float_to_uint8 (z3 color); float_to_uint8 (y3 color);
                               float_to_uint8 (x3 color); 255%Z] 0%Z
                     else 0%Z) [0; 1; 2; 3]%Z)
      (img_bytespp frame).
Proof.
  intros Hwf Hx Hy color.
  pose proof (painted_image
                (fun w x y =>
                   let color := resolve_pixel zBuffer colorBuffer cntSample w x y in
                   TGAColor_rgba (float_to_uint8 (x3 color)) (float_to_uint8 (y3 color))
                                 (float_to_uint8 (z3 color)) 255)
                frame Hwf x y Hx Hy) as H.
  cbv beta zeta in H. unfold writeFrame, writeFrame_pixel.
  rewrite H. reflexivity.
Qed.

(** X18.  After [writeDepth], every pixel [(x, y)] of the image holds the
    colour found at the index [y * width + x] of the colour buffer of the
    depth pass, each component truncated to a byte. *)
Theorem writeDepth_pixels (depth : TGAImage) (colorBuffer : list Vec3f) (x y : Z) :
  TGAImage_wf depth ->
  (0 <= x < img_width depth)%Z -> (0 <= y < img_height depth)%Z ->
  (img_width depth * img_height depth <= 2 ^ 32)%Z ->
  let color := nth (Z.to_nat (y * img_width depth + x)) colorBuffer (mkVec3f 0 0 0) in
  TGAImage_get (writeDepth depth colorBuffer) x y
  = mkTGAColor
      (map (fun i => if (i <? img_bytespp depth)%Z
                     then nth (Z.to_nat i)
                              [float_to_uint8 (z3 color); float_to_uint8 (y3 color);
                               float_to_uint8 (x3 color); 255%Z] 0%Z
                     else 0%Z) [0; 1; 2; 3]%Z)
      (img_bytespp depth).
Proof.
  intros Hwf Hx Hy Hfit color.
  pose proof (painted_image
                (fun w x y =>
                   let color := nth (Z.to_nat (to_unsigned (y * w + x))) colorBuffer
                                    (mkVec3f 0 0 0) in
                   TGAColor_rgba (float_to_uint8 (x3 color)) (float_to_uint8 (y3 color))
                                 (float_to_uint8 (z3 color)) 255)
                depth Hwf x y Hx Hy) as H.
  cbv beta zeta in H. unfold writeDepth, writeDepth_pixel.
  rewrite H. unfold color, to_unsigned.
  rewrite Z.mod_small by nia. reflexivity.
Qed.

Lemma writeFrame_pixels_witness :
  TGAImage_get (writeFrame ex_half_depths ex_half_colors 2 ex_image) 1 1
  = mkTGAColor [0; 0; 127; 0]%Z 3.
Proof.
  rewrite (writeFrame_pixels ex_half_depths ex_half_colors 2 ex_image 1 1).
  - vm_compute. reflexivity.
  - unfold TGAImage_wf. vm_compute. repeat split; (reflexivity || discriminate).
  - vm_compute. split; (reflexivity || discriminate).
  - vm_compute. split; (reflexivity || discriminate).
Defined.

Lemma writeDepth_pixels_witness :
  TGAImage_get (writeDepth ex_image [ex_red; ex_red; ex_red; mkVec3f 1 2 3]) 1 1
  = mkTGAColor [3; 2; 1; 0]%Z 3.
Proof.
  rewrite (writeDepth_pixels ex_image [ex_red; ex_red; ex_red; mkVec3f 1 2 3] 1 1).
  - vm_compute. reflexivity.
  - unfold TGAImage_wf. vm_compute. repeat split; (reflexivity || discriminate).
  - vm_compute. split; (reflexivity || discriminate).
  - vm_compute. split; (reflexivity || discriminate).
  - vm_compute. discriminate.
Defined.

Section Coverage.

Variable zBuffer : list Q.
Variable colorBuffer : list Vec3f.
Variable cntSample : Z.
Variables width x y : Z.

Let slot (i : Z) : nat := Z.to_nat (to_unsigned (cntSample * (y * width + x) + i)).


End Coverage.


Lemma TGAImage_get_bytes (img : TGAImage) (x y : Z) (i : nat) :
  Forall (fun b => 0 <= b <= 255)%Z (data img) -> (0 <= img_bytespp img)%Z ->
  (0 <= nth i (bgra (TGAImage_get img x y)) 0 <= 255)%Z.
Proof.
  intros Hd Hb. unfold TGAImage_get.
  destruct (TGAImage_outside img x y).
  - cbn [TGAColor_default bgra]. do 4 (destruct i as [|i]; [cbn; lia|]).
    destruct i; cbn; lia.
  - unfold TGAColor_at. cbn [bgra map].
    assert (Hn : forall k, (0 <= nth k (data img) 0 <= 255)%Z).
    { intros k. destruct (Nat.lt_ge_cases k (length (data img))) as [Hk|Hk].
      - rewrite Forall_forall in Hd. apply Hd. now apply nth_In.
      - rewrite nth_overflow by exact Hk. lia. }
    do 4 (destruct i as [|i]; [cbn [nth]; destruct (_ <? _)%Z; [apply Hn|lia]|]).
    destruct i; cbn; lia.
Qed.

(** X20.  Sampling the textures.  When the bytes of the normal map are bytes,
    the three components of the sampled normal lie in [-1, 1].  A map that
    holds no data (its file could not be read) gives the default colour,
    hence black for the diffuse colour, 0 for the specular coefficient and
    (-1, -1, -1), not a unit vector, for the normal. *)
Theorem Model_texture_sampling (map_ : TGAImage) (uvf : Vec2f) :
  (Forall (fun b => 0 <= b <= 255)%Z (data map_) -> (0 <= img_bytespp map_)%Z ->
   let n := Model_normal map_ uvf in
   -(1) <= x3 n /\ x3 n <= 1 /\ -(1) <= y3 n /\ y3 n <= 1
   /\ -(1) <= z3 n /\ z3 n <= 1)
  /\ (data map_ = [] ->
      TGAColor_rgb (Model_diffuse map_ uvf) = mkVec3f 0 0 0
      /\ Model_specular map_ uvf = 0
      /\ Vec3f_eq (Model_normal map_ uvf) (mkVec3f (-(1)) (-(1)) (-(1)))).
Proof.
  split.
  - intros Hd Hb n. unfold n, Model_normal.
    set (c := TGAImage_get map_ _ _).
    pose proof (TGAImage_get_bytes map_
                  (float_to_int (x2 uvf * inject_Z (img_width map_)))
                  (float_to_int (y2 uvf * inject_Z (img_height map_)))) as Hc.
    fold c in Hc.
    pose proof (Hc 0%nat Hd Hb) as H0. pose proof (Hc 1%nat Hd Hb) as H1.
    pose proof (Hc 2%nat Hd Hb) as H2.
    change (Zrange 0 3) with [0; 1; 2]%Z. cbn [fold_left].
    cbv [Vec3f_set Z.sub Z.add Z.opp Z.leb Z.eqb Z.compare Pos.eqb Pos.compare
         Pos.compare_cont Z.pos_sub Z.to_nat Pos.to_nat Pos.iter_op Nat.add
         Pos.pred_double Z.succ_double Z.pred_double Z.double x3 y3 z3].
    assert (Hr : forall b : Z, (0 <= b <= 255)%Z ->
                   -(1) <= inject_Z b / 255 * 2 - 1 /\ inject_Z b / 255 * 2 - 1 <= 1).
    { intros b [Hb0 Hb1].
      assert (0 <= inject_Z b) by (change 0 with (inject_Z 0); now rewrite <- Zle_Qle).
      assert (inject_Z b <= 255) by (change 255 with (inject_Z 255); now rewrite <- Zle_Qle).
      split.
      - assert (0 <= inject_Z b / 255) by (apply Qle_shift_div_l; lra). lra.
      - assert (inject_Z b / 255 <= 1) by (apply Qle_shift_div_r; lra). lra. }
    destruct (Hr _ H0), (Hr _ H1), (Hr _ H2). repeat split; assumption.
  - intros He. unfold Model_diffuse, Model_specular, Model_normal, TGAImage_get,
      TGAImage_outside. rewrite He. cbn [length Nat.eqb orb].
    repeat split; vm_compute; reflexivity.
Qed.


Lemma Model_texture_sampling_witness :
  -(1) <= x3 (Model_normal ex_no_image (mkVec2f (1 # 2) (1 # 2)))
  /\ Vec3f_eq (Model_normal ex_no_image (mkVec2f (1 # 2) (1 # 2)))
              (mkVec3f (-(1)) (-(1)) (-(1))).
Proof.
  split.
  - refine (proj1 (proj1 (Model_texture_sampling ex_no_image (mkVec2f (1 # 2) (1 # 2)))
                         _ _)).
    + constructor.
    + cbn. lia.
  - refine (proj2 (proj2 (proj2 (Model_texture_sampling ex_no_image
                                   (mkVec2f (1 # 2) (1 # 2))) _))).
    reflexivity.
Defined.

(* ------------------------------------------------------------------ *)
(** ** Run-length encoding: writing and reading back *)

Lemma Zrange_length (lo hi : Z) : length (Zrange lo hi) = Z.to_nat (hi - lo).
Proof. unfold Zrange. now rewrite length_map, length_seq. Qed.

Lemma seq_from (a len : nat) : seq a len = map (fun k => (a + k)%nat) (seq 0 len).
Proof.
  induction a as [|a IH].
  - cbn [Nat.add]. now rewrite map_id.
  - rewrite <- seq_shift, IH, map_map. reflexivity.
Qed.

Lemma Zrange_split (n m : Z) :
  (0 <= n)%Z -> (0 <= m)%Z ->
  Zrange 0 (n + m) = Zrange 0 n ++ map (fun t => (n + t)%Z) (Zrange 0 m).
Proof.
  intros Hn Hm. unfold Zrange.
  replace (Z.to_nat (n + m - 0)) with (Z.to_nat (n - 0) + Z.to_nat (m - 0))%nat by lia.
  rewrite seq_app, map_app, map_map. f_equal. cbn [Nat.add].
  rewrite (seq_from (Z.to_nat (n - 0))), map_map.
  apply map_ext_in. intros k _. lia.
Qed.

Lemma bytes_from_length (data : list Z) (p n : Z) :
  length (bytes_from data p n) = Z.to_nat n.
Proof. unfold bytes_from. rewrite length_map, Zrange_length. f_equal. lia. Qed.

Lemma bytes_from_split (data : list Z) (p n m : Z) :
  (0 <= n)%Z -> (0 <= m)%Z ->
  bytes_from data p (n + m) = bytes_from data p n ++ bytes_from data (p + n) m.
Proof.
  intros Hn Hm. unfold bytes_from. rewrite Zrange_split by assumption.
  rewrite map_app, map_map. f_equal. apply map_ext. intros t. do 2 f_equal. lia.
Qed.

Lemma Zrange_nth (lo hi : Z) (j : nat) :
  (Z.of_nat j < hi - lo)%Z -> nth j (Zrange lo hi) 0%Z = (lo + Z.of_nat j)%Z.
Proof.
  intros Hj. unfold Zrange.
  set (g := fun k : nat => (lo + Z.of_nat k)%Z).
  rewrite (nth_indep (map g (seq 0 (Z.to_nat (hi - lo)))) 0%Z (g 0%nat))
    by (rewrite length_map, length_seq; lia).
  rewrite map_nth, seq_nth by lia. reflexivity.
Qed.

Lemma bytes_from_nth (data : list Z) (p n : Z) (j : nat) :
  (Z.of_nat j < n)%Z ->
  nth j (bytes_from data p n) 0%Z = nth (Z.to_nat (p + Z.of_nat j)) data 0%Z.
Proof.
  intros Hj. unfold bytes_from.
  set (f := fun t : Z => nth (Z.to_nat (p + t)) data 0%Z).
  rewrite (nth_indep (map f (Zrange 0 n)) 0%Z (f 0%Z))
    by (rewrite length_map, Zrange_length; lia).
  rewrite map_nth, Zrange_nth by lia. reflexivity.
Qed.

Section RoundTrip.

Variable data : list Z.
Variables npixels bytespp : Z.

Hypothesis bytespp_pos : (1 <= bytespp)%Z.
Hypothesis data_length : Z.of_nat (length data) = (npixels * bytespp)%Z.

(** The bytes of the pixel [k]. *)
Let pixel (k : Z) : list Z := bytes_from data (k * bytespp) bytespp.

(** The buffer [d] holds the first [m] bytes of [data]. *)
Let agree (d : list Z) (m : Z) : Prop :=
  length d = length data
  /\ forall k : nat, (Z.of_nat k < m)%Z -> nth k d 0%Z = nth k data 0%Z.

Lemma succ_eq_pixels (k : Z) :
  (0 <= k)%Z -> succ_eq data bytespp (k * bytespp) = true -> pixel (k + 1) = pixel k.
Proof.
  intros Hk H. unfold succ_eq in H. rewrite forallb_forall in H.
  unfold pixel, bytes_from. apply map_ext_in. intros t Ht.
  specialize (H t Ht). apply Z.eqb_eq in H. rewrite H. f_equal. lia.
Qed.

(** The packet found by the inner loop: between 1 and 128 pixels, inside
    the image, and all equal when the packet is not raw. *)
Let packet (curpix run_length : Z) (raw : bool) : Prop :=
  (1 <= run_length <= 128 /\ curpix + run_length <= npixels)%Z
  /\ (raw = false ->
      forall j, (0 <= j < run_length)%Z -> pixel (curpix + j) = pixel curpix).

Lemma run_scan_packet (curpix : Z) (fuel : nat) (run_length : Z) (raw : bool) :
  (0 <= curpix)%Z ->
  (128 - run_length <= Z.of_nat fuel)%Z ->
  packet curpix run_length raw ->
  exists run_length' raw',
    run_scan data npixels bytespp fuel curpix run_length
             ((curpix + run_length - 1) * bytespp) raw
    = Some (run_length', raw')
    /\ packet curpix run_length' raw'.
Proof.
  intros Hc. revert run_length raw.
  induction fuel as [|fuel IH]; intros r raw Hf [[Hr Hn] Heq].
  - cbn [run_scan].
    replace (r <? 128)%Z with false by (symmetry; apply Z.ltb_ge; lia).
    rewrite andb_false_r. exists r, raw. split; [reflexivity|]. split; auto.
  - cbn [run_scan].
    destruct ((curpix + r <? npixels) && (r <? 128))%Z eqn:Hcond;
      [|exists r, raw; split; [reflexivity|split; auto]].
    apply andb_true_iff in Hcond. destruct Hcond as [H1 H2].
    apply Z.ltb_lt in H1, H2.
    set (succ := succ_eq data bytespp ((curpix + r - 1) * bytespp)).
    set (raw' := if (1 =? r)%Z then negb succ else raw).
    assert (Hsucc : succ = true -> pixel (curpix + r) = pixel (curpix + r - 1)).
    { intros E. transitivity (pixel (curpix + r - 1 + 1)); [f_equal; lia|].
      apply succ_eq_pixels; [lia|exact E]. }
    assert (Hrun : raw' = false ->
                   forall j, (0 <= j < r)%Z -> pixel (curpix + j) = pixel curpix).
    { intros E j Hj. unfold raw' in E. destruct (1 =? r)%Z eqn:E1.
      - apply Z.eqb_eq in E1. replace j with 0%Z by lia. f_equal. lia.
      - now apply Heq. }
    destruct (raw' && succ) eqn:B1.
    + exists (r - 1)%Z, raw'. split; [reflexivity|].
      apply andb_true_iff in B1. destruct B1 as [Br Bs].
      assert (r <> 1)%Z.
      { intro E. unfold raw' in Br. subst r. cbn in Br. rewrite Bs in Br.
        discriminate. }
      split; [lia|]. intros E. rewrite E in Br. discriminate.
    + destruct (negb raw' && negb succ) eqn:B2.
      * exists r, raw'. split; [reflexivity|]. split; [lia|exact Hrun].
      * replace ((curpix + r - 1) * bytespp + bytespp)%Z
          with ((curpix + (r + 1) - 1) * bytespp)%Z by lia.
        apply IH; [lia|]. split; [lia|].
        intros E j Hj.
        destruct (Z.eq_dec j r) as [Ej|Ej]; [|apply (Hrun E); lia].
        subst j. rewrite E in B2. cbn [negb andb] in B2.
        apply negb_false_iff in B2.
        rewrite (Hsucc B2). replace (curpix + r - 1)%Z with (curpix + (r - 1))%Z by lia.
        apply (Hrun E). lia.
Qed.

(** Storing the pixel [p] at its place extends the agreement by one
    pixel. *)
Lemma store_pixel_agree (input d : list Z) (p : Z) :
  (0 <= p < npixels)%Z -> agree d (p * bytespp) ->
  exists d',
    store_pixel npixels bytespp (mkLoadState input d p (p * bytespp)) (pixel p)
    = Some (mkLoadState input d' (p + 1) ((p + 1) * bytespp))
    /\ agree d' ((p + 1) * bytespp).
Proof.
  intros Hp [Hl Ha]. unfold store_pixel.
  cbn [load_data load_in currentpixel currentbyte].
  replace (npixels <? p + 1)%Z with false by (symmetry; apply Z.ltb_ge; lia).
  replace (p * bytespp + bytespp)%Z with ((p + 1) * bytespp)%Z by lia.
  eexists. split; [reflexivity|].
  split; [now rewrite memcpy_length|].
  intros k Hk. rewrite memcpy_nth by nia.
  destruct ((p * bytespp <=? Z.of_nat k) && (Z.of_nat k <? p * bytespp + bytespp))%Z
    eqn:E.
  - apply andb_true_iff in E. destruct E as [E1 E2].
    apply Z.leb_le in E1. apply Z.ltb_lt in E2.
    unfold pixel. rewrite bytes_from_nth by lia. f_equal. lia.
  - apply Ha. apply andb_false_iff in E.
    destruct E as [E|E]; [apply Z.leb_gt in E|apply Z.ltb_ge in E]; lia.
Qed.

Lemma read_pixel_front (p : Z) (rest : list Z) :
  read_pixel bytespp (pixel p ++ rest) = Some (pixel p, rest).
Proof.
  unfold read_pixel.
  assert (Hl : length (pixel p) = Z.to_nat bytespp) by apply bytes_from_length.
  rewrite length_app, Hl.
  replace (Z.of_nat (Z.to_nat bytespp + length rest) <? bytespp)%Z with false
    by (symmetry; apply Z.ltb_ge; lia).
  rewrite <- Hl.
  rewrite firstn_app, skipn_app, firstn_all, skipn_all, Nat.sub_diag.
  cbn [firstn skipn app]. now rewrite app_nil_r.
Qed.

Lemma load_raw_agree (count : nat) (p : Z) (d rest : list Z) :
  (0 <= p)%Z -> (p + Z.of_nat count <= npixels)%Z -> agree d (p * bytespp) ->
  exists d',
    load_raw npixels bytespp count
             (mkLoadState (bytes_from data (p * bytespp) (Z.of_nat count * bytespp)
                           ++ rest) d p (p * bytespp))
    = Some (mkLoadState rest d' (p + Z.of_nat count)
                        ((p + Z.of_nat count) * bytespp))
    /\ agree d' ((p + Z.of_nat count) * bytespp).
Proof.
  revert p d. induction count as [|count IH]; intros p d Hp Hn Ha.
  - cbn [load_raw Z.of_nat Z.mul bytes_from Zrange Z.sub Z.to_nat seq map app].
    exists d. rewrite Z.add_0_r. split; [reflexivity|exact Ha].
  - cbn [load_raw load_in load_data currentpixel currentbyte].
    replace (Z.of_nat (S count) * bytespp)%Z
      with (bytespp + Z.of_nat count * bytespp)%Z by lia.
    rewrite bytes_from_split by lia. fold (pixel p). rewrite <- app_assoc.
    rewrite read_pixel_front.
    destruct (store_pixel_agree
                (bytes_from data (p * bytespp + bytespp) (Z.of_nat count * bytespp)
                 ++ rest) d p ltac:(lia) Ha) as [d1 [E1 A1]].
    rewrite E1.
    replace (p * bytespp + bytespp)%Z with ((p + 1) * bytespp)%Z by lia.
    destruct (IH (p + 1)%Z d1 ltac:(lia) ltac:(lia) A1) as [d' [E' A']].
    rewrite E'. exists d'.
    replace (p + 1 + Z.of_nat count)%Z with (p + Z.of_nat (S count))%Z in * by lia.
    split; [reflexivity|exact A'].
Qed.

Lemma load_run_agree (count : nat) (p0 p : Z) (d rest : list Z) :
  (0 <= p)%Z -> (p + Z.of_nat count <= npixels)%Z -> agree d (p * bytespp) ->
  (forall j, (0 <= j < Z.of_nat count)%Z -> pixel (p + j) = pixel p0) ->
  exists d',
    load_run npixels bytespp count (pixel p0) (mkLoadState rest d p (p * bytespp))
    = Some (mkLoadState rest d' (p + Z.of_nat count)
                        ((p + Z.of_nat count) * bytespp))
    /\ agree d' ((p + Z.of_nat count) * bytespp).
Proof.
  revert p d. induction count as [|count IH]; intros p d Hp Hn Ha Heq.
  - cbn [load_run Z.of_nat]. exists d. rewrite Z.add_0_r. split; [reflexivity|exact Ha].
  - cbn [load_run].
    assert (E0 : pixel p0 = pixel p).
    { symmetry. replace p with (p + 0)%Z at 1 by lia. apply Heq. lia. }
    rewrite E0.
    destruct (store_pixel_agree rest d p ltac:(lia) Ha) as [d1 [E1 A1]].
    rewrite E1. rewrite <- E0.
    destruct (IH (p + 1)%Z d1 ltac:(lia) ltac:(lia) A1) as [d' [E' A']].
    { intros j Hj. replace (p + 1 + j)%Z with (p + (1 + j))%Z by lia.
      apply Heq. lia. }
    rewrite E'. exists d'.
    replace (p + 1 + Z.of_nat count)%Z with (p + Z.of_nat (S count))%Z in * by lia.
    split; [reflexivity|exact A'].
Qed.

(** Reading back the packet written for the pixels from [p] on. *)
Lemma load_chunk_packet (p run_length : Z) (raw : bool) (d rest : list Z) :
  (0 <= p)%Z -> packet p run_length raw -> agree d (p * bytespp) ->
  exists d',
    load_chunk npixels bytespp
      (mkLoadState
         (([if raw then run_length - 1 else run_length + 127]%Z
           ++ bytes_from data (p * bytespp)
                         (if raw then run_length * bytespp else bytespp))
          ++ rest) d p (p * bytespp))
    = Some (mkLoadState rest d' (p + run_length) ((p + run_length) * bytespp))
    /\ agree d' ((p + run_length) * bytespp).
Proof.
  intros Hp [[Hr Hn] Heq] Ha. unfold load_chunk.
  cbn [load_in load_data currentpixel currentbyte app].
  destruct raw.
  - replace (run_length - 1 <? 128)%Z with true by (symmetry; apply Z.ltb_lt; lia).
    replace (Z.to_nat (run_length - 1 + 1)) with (Z.to_nat run_length) by lia.
    destruct (load_raw_agree (Z.to_nat run_length) p d rest Hp ltac:(lia) Ha)
      as [d' [E A]].
    rewrite Z2Nat.id in E, A by lia. rewrite E. exists d'. split; [reflexivity|exact A].
  - replace (run_length + 127 <? 128)%Z with false by (symmetry; apply Z.ltb_ge; lia).
    fold (pixel p). rewrite read_pixel_front.
    replace (Z.to_nat (run_length + 127 - 127)) with (Z.to_nat run_length) by lia.
    destruct (load_run_agree (Z.to_nat run_length) p p d rest Hp ltac:(lia) Ha)
      as [d' [E A]].
    { intros j Hj. apply Heq; [reflexivity|lia]. }
    rewrite Z2Nat.id in E, A by lia. rewrite E. exists d'. split; [reflexivity|exact A].
Qed.

Lemma agree_all (d : list Z) : agree d (npixels * bytespp) -> d = data.
Proof.
  intros [Hl Ha]. apply (nth_ext d data 0%Z 0%Z Hl).
  intros k Hk. apply Ha. lia.
Qed.

(** The packets written from the pixel [p] on, and their reading. *)
Lemma unload_load_from (fuel : nat) (p : Z) (out : list Z) :
  (0 <= p <= npixels)%Z -> (npixels - p <= Z.of_nat fuel)%Z ->
  exists tail,
    unload_chunks data npixels bytespp fuel p out = Some (out ++ tail)
    /\ ((p < npixels)%Z ->
        forall (d rest : list Z) (lfuel : nat),
          agree d (p * bytespp) -> (length tail < lfuel)%nat ->
          load_chunks npixels bytespp lfuel
                      (mkLoadState (tail ++ rest) d p (p * bytespp))
          = Some (Some (mkLoadState rest data npixels (npixels * bytespp)))).
Proof.
  revert p out. induction fuel as [|fuel IH]; intros p out Hp Hf.
  - exists []. cbn [unload_chunks].
    replace (p <? npixels)%Z with false by (symmetry; apply Z.ltb_ge; lia).
    rewrite app_nil_r. split; [reflexivity|]. intros H. lia.
  - cbn [unload_chunks]. destruct (p <? npixels)%Z eqn:Hlt.
    2:{ exists []. rewrite app_nil_r. split; [reflexivity|].
        intros H. apply Z.ltb_ge in Hlt. lia. }
    apply Z.ltb_lt in Hlt.
    destruct (run_scan_packet p 128 1 true ltac:(lia) ltac:(lia)) as [r [raw [Es Hpk]]].
    { split; [lia|]. intros E. discriminate. }
    replace ((p + 1 - 1) * bytespp)%Z with (p * bytespp)%Z in Es by lia.
    rewrite Es.
    assert (Hr : (1 <= r <= 128 /\ p + r <= npixels)%Z) by apply Hpk.
    set (chunk := [if raw then r - 1 else r + 127]%Z
                  ++ bytes_from data (p * bytespp)
                                (if raw then r * bytespp else bytespp)).
    replace ((out ++ [if raw then (r - 1)%Z else (r + 127)%Z])
             ++ bytes_from data (p * bytespp) (if raw then r * bytespp else bytespp)%Z)
      with (out ++ chunk) by (unfold chunk; now rewrite app_assoc).
    destruct (IH (p + r)%Z (out ++ chunk) ltac:(lia) ltac:(lia)) as [tail [Eu Hd]].
    exists (chunk ++ tail). rewrite Eu, app_assoc. split; [reflexivity|].
    intros _ d rest lfuel Ha Hlf.
    destruct lfuel as [|lfuel]; [lia|]. cbn [load_chunks].
    rewrite <- app_assoc.
    destruct (load_chunk_packet p r raw d (tail ++ rest) ltac:(lia) Hpk Ha)
      as [d' [El Ha']].
    fold chunk in El. rewrite El. cbn [currentpixel].
    destruct (p + r <? npixels)%Z eqn:Hmore.
    + apply Z.ltb_lt in Hmore. apply Hd; auto.
      rewrite length_app in Hlf. unfold chunk in Hlf. cbn [length app] in Hlf. lia.
    + apply Z.ltb_ge in Hmore. assert (Epr : (p + r)%Z = npixels) by lia.
      assert (Et : tail = []).
      { destruct fuel as [|fuel']; cbn [unload_chunks] in Eu;
          replace (p + r <? npixels)%Z with false in Eu
            by (symmetry; apply Z.ltb_ge; lia);
          injection Eu as Eu; rewrite <- (app_nil_r (out ++ chunk)) in Eu at 1;
          apply app_inv_head in Eu; now symmetry. }
      rewrite Et. cbn [app]. rewrite Epr in *.
      now rewrite (agree_all d' Ha').
Qed.

End RoundTrip.

(** X21.  What [unload_rle_data] writes, [load_rle_data] reads back: for an
    image of at least one pixel the encoder returns a stream, and the
    decoder, run on this stream followed by anything, on an image of the
    same sizes with its bytes allocated, succeeds, rebuilds the bytes of the
    image exactly and leaves what follows the stream unread. *)
Theorem rle_round_trip (img : TGAImage) :
  TGAImage_wf img ->
  exists stream,
    unload_rle_data img = Some stream
    /\ forall (blank rest : list Z),
         length blank = length (data img) ->
         load_rle_data
           (mkTGAImage blank (img_width img) (img_height img) (img_bytespp img))
           (stream ++ rest)
         = Some (Some (img, rest)).
Proof.
  intros [Hw [Hh [Hb Hl]]]. unfold unload_rle_data.
  destruct (unload_load_from (data img) (img_width img * img_height img)
                             (img_bytespp img) ltac:(lia) Hl
                             (Z.to_nat (img_width img * img_height img)) 0 [])
    as [stream [Eu Hload]]; [nia|nia|].
  exists stream. split; [exact Eu|].
  intros blank rest Hblank. unfold load_rle_data.
  cbn [img_width img_height img_bytespp data].
  pose proof (Hload ltac:(nia) blank rest (S (length (stream ++ rest)))) as H.
  cbn [Z.mul] in H. rewrite H.
  - cbn [load_data load_in]. destruct img; reflexivity.
  - split; [exact Hblank|]. intros k Hk. lia.
  - rewrite length_app. lia.
Qed.

Lemma rle_round_trip_witness :
  exists stream,
    unload_rle_data ex_rle_image = Some stream
    /\ forall (blank rest : list Z),
         length blank = length (data ex_rle_image) ->
         load_rle_data
           (mkTGAImage blank (img_width ex_rle_image) (img_height ex_rle_image)
                       (img_bytespp ex_rle_image))
           (stream ++ rest)
         = Some (Some (ex_rle_image, rest)).
Proof.
  apply (rle_round_trip ex_rle_image).
  unfold TGAImage_wf. vm_compute. repeat split; (reflexivity || discriminate).
Defined.

(* ------------------------------------------------------------------ *)
(** ** Flipping an image *)

Lemma std_copy_nth (src dst : list Z) (first n d_first : Z) (k : nat) :
  (0 <= d_first)%Z -> (0 <= n)%Z -> (d_first + n <= Z.of_nat (length dst))%Z ->
  length (std_copy src first (first + n) dst d_first) = length dst
  /\ nth k (std_copy src first (first + n) dst d_first) 0%Z
     = if ((d_first <=? Z.of_nat k) && (Z.of_nat k <? d_first + n))%Z
       then nth (Z.to_nat (first + (Z.of_nat k - d_first))) src 0%Z
       else nth k dst 0%Z.
Proof.
  intros Hd Hn Hlen. unfold std_copy.
  replace (first + n - first)%Z with n by lia.
  apply (fold_left_Zrange_inv
           (fun d i => list_set d (Z.to_nat (d_first + i))
                                (nth (Z.to_nat (first + i)) src 0%Z))
           (fun m d => length d = length dst
                       /\ nth k d 0%Z
                          = if ((d_first <=? Z.of_nat k)
                                && (Z.of_nat k <? d_first + m))%Z
                            then nth (Z.to_nat (first + (Z.of_nat k - d_first))) src 0%Z
                            else nth k dst 0%Z)); auto.
  - split; [reflexivity|].
    destruct (d_first <=? Z.of_nat k)%Z eqn:E1, (Z.of_nat k <? d_first + 0)%Z eqn:E2;
      cbn [andb]; auto; lia.
  - intros i d Hi [Hl Hk]. rewrite list_set_length. split; [exact Hl|].
    rewrite list_set_nth_cases, Hk.
    destruct (Nat.eqb (Z.to_nat (d_first + i)) k) eqn:Ek.
    + apply Nat.eqb_eq in Ek.
      replace (Z.to_nat (d_first + i) <? length d)%nat with true
        by (symmetry; apply Nat.ltb_lt; lia).
      cbn [andb].
      replace (d_first <=? Z.of_nat k)%Z with true by (symmetry; apply Z.leb_le; lia).
      replace (Z.of_nat k <? d_first + (i + 1))%Z with true
        by (symmetry; apply Z.ltb_lt; lia).
      cbn [andb]. f_equal. lia.
    + apply Nat.eqb_neq in Ek. cbn [andb].
      destruct (d_first <=? Z.of_nat k)%Z eqn:E1; cbn [andb]; auto.
      destruct (Z.of_nat k <? d_first + i)%Z eqn:E2, (Z.of_nat k <? d_first + (i + 1))%Z
        eqn:E3; auto; lia.
Qed.

(** A copy within a vector toward lower indices, the two ranges apart. *)
Lemma std_copy_within_nth (data : list Z) (first n d_first : Z) (k : nat) :
  (0 <= d_first)%Z -> (0 <= n)%Z -> (d_first + n <= first)%Z ->
  (first + n <= Z.of_nat (length data))%Z ->
  length (std_copy_within data first (first + n) d_first) = length data
  /\ nth k (std_copy_within data first (first + n) d_first) 0%Z
     = if ((d_first <=? Z.of_nat k) && (Z.of_nat k <? d_first + n))%Z
       then nth (Z.to_nat (first + (Z.of_nat k - d_first))) data 0%Z
       else nth k data 0%Z.
Proof.
  intros Hd Hn Hapart Hlen. unfold std_copy_within.
  replace (first + n - first)%Z with n by lia.
  pose proof (fold_left_Zrange_inv
           (fun d i => list_set d (Z.to_nat (d_first + i))
                                (nth (Z.to_nat (first + i)) d 0%Z))
           (fun m d => length d = length data
                       /\ forall j : nat,
                            nth j d 0%Z
                            = if ((d_first <=? Z.of_nat j)
                                  && (Z.of_nat j <? d_first + m))%Z
                              then nth (Z.to_nat (first + (Z.of_nat j - d_first)))
                                       data 0%Z
                              else nth j data 0%Z) data n Hn) as H.
  destruct H as [Hl Hk].
  - split; [reflexivity|]. intros j.
    destruct (d_first <=? Z.of_nat j)%Z eqn:E1, (Z.of_nat j <? d_first + 0)%Z eqn:E2;
      cbn [andb]; auto; lia.
  - intros i d Hi [Hl Hj]. rewrite list_set_length. split; [exact Hl|].
    intros j. rewrite list_set_nth_cases, !Hj.
    replace (Z.of_nat (Z.to_nat (first + i)) <? d_first + i)%Z with false
      by (symmetry; apply Z.ltb_ge; lia).
    rewrite andb_false_r.
    destruct (Nat.eqb (Z.to_nat (d_first + i)) j) eqn:Ek.
    + apply Nat.eqb_eq in Ek.
      replace (Z.to_nat (d_first + i) <? length d)%nat with true
        by (symmetry; apply Nat.ltb_lt; lia).
      cbn [andb].
      replace (d_first <=? Z.of_nat j)%Z with true by (symmetry; apply Z.leb_le; lia).
      replace (Z.of_nat j <? d_first + (i + 1))%Z with true
        by (symmetry; apply Z.ltb_lt; lia).
      cbn [andb]. f_equal. lia.
    + apply Nat.eqb_neq in Ek. cbn [andb].
      destruct (d_first <=? Z.of_nat j)%Z eqn:E1; cbn [andb]; auto.
      destruct (Z.of_nat j <? d_first + i)%Z eqn:E2, (Z.of_nat j <? d_first + (i + 1))%Z
        eqn:E3; auto; lia.
  - split; [exact Hl|apply Hk].
Qed.

Section Flip.

Variable img : TGAImage.
Hypothesis img_wf : TGAImage_wf img.

Let bpl : Z := (img_width img * img_bytespp img)%Z.

(** After [j] iterations the rows [0 .. j-1] and the [j] last rows have
    been exchanged. *)
Let flipped (j : Z) (st : list Z * list Z) : Prop :=
  length (fst st) = length (data img)
  /\ Z.of_nat (length (snd st)) = bpl
  /\ forall r c, (0 <= r < img_height img)%Z -> (0 <= c < bpl)%Z ->
       nth (Z.to_nat (r * bpl + c)) (fst st) 0%Z
       = if ((r <? j) || (img_height img - j <=? r))%Z
         then nth (Z.to_nat ((img_height img - 1 - r) * bpl + c)) (data img) 0%Z
         else nth (Z.to_nat (r * bpl + c)) (data img) 0%Z.

Lemma flip_line_flipped (j : Z) (st : list Z * list Z) :
  (0 <= j)%Z -> (2 * j + 2 <= img_height img)%Z -> flipped j st ->
  flipped (j + 1) (flip_line (img_height img) bpl st j).
Proof.
  intros Hj Hhalf [Hl [Hline Hrows]]. destruct st as [d line].
  cbn [fst snd] in *. unfold flip_line.
  destruct img_wf as [Hw [Hh [Hb Hlen]]].
  assert (Hbpl : (0 < bpl)%Z) by (unfold bpl; nia).
  assert (Hsize : Z.of_nat (length d) = (img_height img * bpl)%Z)
    by (rewrite Hl, Hlen; unfold bpl; lia).
  set (l1 := (j * bpl)%Z). set (l2 := ((img_height img - 1 - j) * bpl)%Z).
  assert (Hl12 : (0 <= l1 /\ l1 + bpl <= l2 /\ l2 + bpl <= Z.of_nat (length d))%Z)
    by (unfold l1, l2; nia).
  set (line' := std_copy d l1 (l1 + bpl) line 0).
  assert (Hline' : Z.of_nat (length line') = bpl
                   /\ forall c, (0 <= c < bpl)%Z ->
                        nth (Z.to_nat c) line' 0%Z = nth (Z.to_nat (l1 + c)) d 0%Z).
  { split.
    - destruct (std_copy_nth d line l1 bpl 0 0 ltac:(lia) ltac:(lia) ltac:(lia))
        as [E _]. unfold line'. now rewrite E.
    - intros c Hc.
      destruct (std_copy_nth d line l1 bpl 0 (Z.to_nat c)
                             ltac:(lia) ltac:(lia) ltac:(lia)) as [_ E].
      unfold line'. rewrite E.
      replace (0 <=? Z.of_nat (Z.to_nat c))%Z with true by (symmetry; apply Z.leb_le; lia).
      replace (Z.of_nat (Z.to_nat c) <? 0 + bpl)%Z with true
        by (symmetry; apply Z.ltb_lt; lia).
      cbn [andb]. f_equal. lia. }
  destruct Hline' as [Hll Hlc].
  set (d1 := std_copy_within d l2 (l2 + bpl) l1).
  assert (Hd1 : length d1 = length d
                /\ forall k : nat,
                     nth k d1 0%Z
                     = if ((l1 <=? Z.of_nat k) && (Z.of_nat k <? l1 + bpl))%Z
                       then nth (Z.to_nat (l2 + (Z.of_nat k - l1))) d 0%Z
                       else nth k d 0%Z).
  { split; [|intros k].
    - apply (std_copy_within_nth d l2 bpl l1 0%nat); lia.
    - apply (std_copy_within_nth d l2 bpl l1 k); lia. }
  destruct Hd1 as [Hl1 Hk1].
  rewrite Hll.
  change (std_copy line' 0 bpl d1 l2) with (std_copy line' 0 (0 + bpl) d1 l2).
  split; [|split].
  - cbn [fst].
    destruct (std_copy_nth line' d1 0 bpl l2 0 ltac:(lia) ltac:(lia) ltac:(lia))
      as [E _]. rewrite E. congruence.
  - cbn [snd]. exact Hll.
  - intros r c Hr Hc. cbn [fst].
    destruct (std_copy_nth line' d1 0 bpl l2 (Z.to_nat (r * bpl + c))
                           ltac:(lia) ltac:(lia) ltac:(lia)) as [_ E].
    rewrite E, Hk1. clear E.
    rewrite !Z2Nat.id by nia.
    destruct (Z.eq_dec r j) as [Erj|Erj];
      [|destruct (Z.eq_dec r (img_height img - 1 - j)) as [Erh|Erh]].
    + subst r. fold l1.
      replace (l2 <=? l1 + c)%Z with false by (symmetry; apply Z.leb_gt; lia).
      replace (l1 <=? l1 + c)%Z with true by (symmetry; apply Z.leb_le; lia).
      replace (l1 + c <? l1 + bpl)%Z with true by (symmetry; apply Z.ltb_lt; lia).
      replace (j <? j + 1)%Z with true by (symmetry; apply Z.ltb_lt; lia).
      cbn [andb orb].
      replace (l2 + (l1 + c - l1))%Z with ((img_height img - 1 - j) * bpl + c)%Z
        by (unfold l2; lia).
      rewrite (Hrows (img_height img - 1 - j)%Z c) by lia.
      replace (img_height img - 1 - j <? j)%Z with false
        by (symmetry; apply Z.ltb_ge; lia).
      replace (img_height img - j <=? img_height img - 1 - j)%Z with false
        by (symmetry; apply Z.leb_gt; lia).
      reflexivity.
    + subst r. fold l2.
      replace (l2 <=? l2 + c)%Z with true by (symmetry; apply Z.leb_le; lia).
      replace (l2 + c <? l2 + bpl)%Z with true by (symmetry; apply Z.ltb_lt; lia).
      cbn [andb].
      replace (0 + (l2 + c - l2))%Z with c by lia.
      rewrite Hlc by lia. unfold l1. rewrite (Hrows j c) by lia.
      replace (j <? j)%Z with false by (symmetry; apply Z.ltb_ge; lia).
      replace (img_height img - j <=? j)%Z with false by (symmetry; apply Z.leb_gt; lia).
      replace (img_height img - (j + 1) <=? img_height img - 1 - j)%Z with true
        by (symmetry; apply Z.leb_le; lia).
      rewrite orb_true_r. cbn [orb].
      replace (img_height img - 1 - (img_height img - 1 - j))%Z with j by lia.
      reflexivity.
    + assert (Hout2 : (r * bpl + c < l2 \/ l2 + bpl <= r * bpl + c)%Z)
        by (unfold l2; nia).
      assert (Hout1 : (r * bpl + c < l1 \/ l1 + bpl <= r * bpl + c)%Z)
        by (unfold l1; nia).
      replace ((l2 <=? r * bpl + c) && (r * bpl + c <? l2 + bpl))%Z with false.
      2:{ symmetry. apply andb_false_iff.
          destruct Hout2; [left; apply Z.leb_gt|right; apply Z.ltb_ge]; lia. }
      replace ((l1 <=? r * bpl + c) && (r * bpl + c <? l1 + bpl))%Z with false.
      2:{ symmetry. apply andb_false_iff.
          destruct Hout1; [left; apply Z.leb_gt|right; apply Z.ltb_ge]; lia. }
      pose proof (Hrows r c Hr Hc) as Hrc. rewrite Hrc.
      replace ((r <? j + 1) || (img_height img - (j + 1) <=? r))%Z
        with ((r <? j) || (img_height img - j <=? r))%Z; [reflexivity|].
      destruct (r <? j)%Z eqn:E1, (img_height img - j <=? r)%Z eqn:E2,
               (r <? j + 1)%Z eqn:E3, (img_height img - (j + 1) <=? r)%Z eqn:E4;
        cbn [orb]; auto; lia.
Qed.

(** The bytes of the flipped image: every row is found at the place of its
    mirror row. *)
Lemma flip_vertically_rows :
  TGAImage_wf (flip_vertically img)
  /\ img_width (flip_vertically img) = img_width img
  /\ img_height (flip_vertically img) = img_height img
  /\ img_bytespp (flip_vertically img) = img_bytespp img
  /\ forall r c, (0 <= r < img_height img)%Z -> (0 <= c < bpl)%Z ->
       nth (Z.to_nat (r * bpl + c)) (data (flip_vertically img)) 0%Z
       = nth (Z.to_nat ((img_height img - 1 - r) * bpl + c)) (data img) 0%Z.
Proof.
  destruct img_wf as [Hw [Hh [Hb Hlen]]].
  assert (Hne : Nat.eqb (length (data img)) 0 = false) by (apply Nat.eqb_neq; nia).
  unfold flip_vertically. rewrite Hne. fold bpl.
  rewrite Z.shiftr_div_pow2 by lia. change (2 ^ 1)%Z with 2%Z.
  set (half := (img_height img / 2)%Z).
  assert (Hhalf : (0 <= half /\ 2 * half <= img_height img < 2 * half + 2)%Z).
  { unfold half. pose proof (Z.div_mod (img_height img) 2 ltac:(lia)).
    pose proof (Z.mod_pos_bound (img_height img) 2 ltac:(lia)). lia. }
  pose proof (fold_left_Zrange_inv (flip_line (img_height img) bpl) flipped
                (data img, repeat 0%Z (Z.to_nat bpl)) half ltac:(lia)) as H.
  destruct H as [Hl [_ Hrows]].
  - split; [reflexivity|]. split.
    + cbn [snd]. rewrite repeat_length. unfold bpl. nia.
    + intros r c Hr Hc. cbn [fst].
      replace (r <? 0)%Z with false by (symmetry; apply Z.ltb_ge; lia).
      replace (img_height img - 0 <=? r)%Z with false by (symmetry; apply Z.leb_gt; lia).
      reflexivity.
  - intros j st Hj Hst. apply flip_line_flipped; auto; lia.
  - destruct (fold_left (flip_line (img_height img) bpl) (Zrange 0 half)
                        (data img, repeat 0%Z (Z.to_nat bpl))) as [d line].
    cbn [fst snd] in *. cbn [data img_width img_height img_bytespp].
    split; [unfold TGAImage_wf; cbn [data img_width img_height img_bytespp];
            rewrite Hl; auto|].
    repeat split. intros r c Hr Hc. rewrite Hrows by assumption.
    destruct ((r <? half) || (img_height img - half <=? r))%Z eqn:E; [reflexivity|].
    apply orb_false_iff in E. destruct E as [E1 E2].
    apply Z.ltb_ge in E1. apply Z.leb_gt in E2. f_equal. f_equal. nia.
Qed.

End Flip.

(** X25.  [flip_vertically] exchanges the rows of a well-formed image: the
    pixel (x, y) of the flipped image is the pixel (x, height - 1 - y) of
    the image, and flipping twice gives the image back. *)
Theorem flip_vertically_mirror (img : TGAImage) :
  TGAImage_wf img ->
  (forall x y, (0 <= x < img_width img)%Z -> (0 <= y < img_height img)%Z ->
     TGAImage_get (flip_vertically img) x y
     = TGAImage_get img x (img_height img - 1 - y))
  /\ flip_vertically (flip_vertically img) = img.
Proof.
  intros Hwf.
  destruct (flip_vertically_rows img Hwf) as [Hwf' [Ew [Eh [Eb Hrows]]]].
  pose proof Hwf as [Hw [Hh [Hb Hlen]]].
  split.
  - intros x y Hx Hy. unfold TGAImage_get.
    rewrite (inside_not_outside _ Hwf') by (rewrite ?Ew, ?Eh; lia).
    rewrite (inside_not_outside _ Hwf) by lia.
    rewrite Ew, Eb. unfold TGAColor_at. f_equal.
    apply map_ext_in. intros i Hi.
    destruct (i <? img_bytespp img)%Z eqn:E; [|reflexivity].
    apply Z.ltb_lt in E. assert (0 <= i)%Z by (cbn in Hi; lia).
    replace ((x + y * img_width img) * img_bytespp img + i)%Z
      with (y * (img_width img * img_bytespp img) + (x * img_bytespp img + i))%Z by lia.
    rewrite Hrows by nia. f_equal. lia.
  - destruct (flip_vertically_rows (flip_vertically img) Hwf')
      as [Hwf'' [Ew' [Eh' [Eb' Hrows']]]].
    rewrite Ew, Eb, Eh in *.
    assert (Ed : data (flip_vertically (flip_vertically img)) = data img).
    { destruct Hwf'' as [_ [_ [_ Hlen'']]]. rewrite Ew', Eh', Eb' in Hlen''.
      apply (nth_ext _ _ 0%Z 0%Z); [lia|].
      intros k Hk.
      set (bpl := (img_width img * img_bytespp img)%Z) in *.
      assert (Hbpl : (0 < bpl)%Z) by (unfold bpl; nia).
      pose proof (Z.div_mod (Z.of_nat k) bpl ltac:(lia)) as Hdm.
      pose proof (Z.mod_pos_bound (Z.of_nat k) bpl Hbpl) as Hmod.
      set (r := (Z.of_nat k / bpl)%Z) in *. set (c := (Z.of_nat k mod bpl)%Z) in *.
      assert (Hr : (0 <= r < img_height img)%Z) by nia.
      replace k with (Z.to_nat (r * bpl + c)) by lia.
      rewrite Hrows' by lia. rewrite Hrows by lia. f_equal. lia. }
    destruct (flip_vertically (flip_vertically img)) as [d w h b].
    cbn [data img_width img_height img_bytespp] in *.
    destruct img as [d0 w0 h0 b0]. cbn [data img_width img_height img_bytespp] in *.
    congruence.
Qed.

Lemma flip_vertically_mirror_witness :
  flip_vertically (flip_vertically ex_rows_image) = ex_rows_image.
Proof.
  refine (proj2 (flip_vertically_mirror ex_rows_image _)).
  unfold TGAImage_wf. vm_compute. repeat split; (reflexivity || discriminate).
Defined.

(** A colour read from an image has nothing beyond its [bpp] bytes. *)
Lemma TGAColor_at_stored (d : list Z) (p bpp : Z) :
  mkTGAColor (map (fun i => if (i <? bpp)%Z
                            then nth (Z.to_nat i) (bgra (TGAColor_at d p bpp)) 0%Z
                            else 0%Z) [0; 1; 2; 3]%Z) bpp
  = TGAColor_at d p bpp.
Proof.
  unfold TGAColor_at. cbn [bgra map nth Z.to_nat Pos.to_nat Pos.iter_op Nat.add].
  destruct (0 <? bpp)%Z, (1 <? bpp)%Z, (2 <? bpp)%Z, (3 <? bpp)%Z; reflexivity.
Qed.

Section FlipHorizontally.

Variable img : TGAImage.
Hypothesis img_wf : TGAImage_wf img.

Let same_sizes (f : TGAImage) : Prop :=
  TGAImage_wf f /\ img_width f = img_width img /\ img_height f = img_height img
  /\ img_bytespp f = img_bytespp img.

(** The pixels exchanged once the columns before [i] and the rows before
    [j] of the column [i] are done. *)
Let exchanged (i j x y : Z) : Prop :=
  (x < i \/ img_width img - i <= x
   \/ ((x = i \/ x = img_width img - 1 - i) /\ y < j))%Z.

Let mirrored (i j : Z) (f : TGAImage) : Prop :=
  same_sizes f
  /\ forall x y, (0 <= x < img_width img)%Z -> (0 <= y < img_height img)%Z ->
       (exchanged i j x y ->
        TGAImage_get f x y = TGAImage_get img (img_width img - 1 - x) y)
       /\ (~ exchanged i j x y -> TGAImage_get f x y = TGAImage_get img x y).

Lemma flip_pixel_mirrored (i j : Z) (f : TGAImage) :
  (0 <= i)%Z -> (2 * i + 2 <= img_width img)%Z -> (0 <= j < img_height img)%Z ->
  mirrored i j f -> mirrored i (j + 1) (flip_pixel i f j).
Proof.
  intros Hi Hhalf Hj [[Hwf [Ew [Eh Eb]]] Hget]. unfold flip_pixel.
  set (c1 := TGAImage_get f i j).
  set (c2 := TGAImage_get f (img_width f - 1 - i) j).
  set (f1 := TGAImage_set f i j c2).
  pose proof (TGAImage_set_wf f Hwf i j c2) as Hwf1. fold f1 in Hwf1.
  destruct (TGAImage_set_sizes f i j c2) as [Sw [Sh Sb]]. fold f1 in Sw, Sh, Sb.
  set (f2 := TGAImage_set f1 (img_width f1 - 1 - i) j c1).
  pose proof (TGAImage_set_wf f1 Hwf1 (img_width f1 - 1 - i) j c1) as Hwf2.
  destruct (TGAImage_set_sizes f1 (img_width f1 - 1 - i) j c1) as [Sw2 [Sh2 Sb2]].
  fold f2 in Hwf2, Sw2, Sh2, Sb2.
  assert (Hc1 : c1 = TGAImage_get img i j).
  { unfold c1. apply (Hget i j); unfold exchanged; lia. }
  assert (Hc2 : c2 = TGAImage_get img (img_width img - 1 - i) j).
  { unfold c2. rewrite Ew. apply (Hget (img_width img - 1 - i)%Z j);
      unfold exchanged; lia. }
  assert (Hs1 : forall x, (0 <= x < img_width img)%Z ->
                  mkTGAColor (map (fun k => if (k <? img_bytespp f)%Z
                                            then nth (Z.to_nat k)
                                                     (bgra (TGAImage_get img x j)) 0%Z
                                            else 0%Z) [0; 1; 2; 3]%Z) (img_bytespp f)
                  = TGAImage_get img x j).
  { intros x Hx. unfold TGAImage_get.
    rewrite (inside_not_outside img img_wf) by lia.
    rewrite Eb. apply TGAColor_at_stored. }
  split.
  - split; [exact Hwf2|]. repeat split; congruence.
  - intros x y Hx Hy.
    destruct (Z.eq_dec y j) as [Ey|Ey];
      [destruct (Z.eq_dec x (img_width img - 1 - i)) as [Ex|Ex];
       [|destruct (Z.eq_dec x i) as [Ex'|Ex']]|].
    + subst x y. fold f2.
      replace (img_width img - 1 - i)%Z with (img_width f1 - 1 - i)%Z by lia.
      unfold f2. rewrite (TGAImage_get_set_same f1 Hwf1) by lia.
      rewrite Sb, Hc1, Hs1 by lia.
      split; intros H; [f_equal; lia|].
      exfalso. apply H. unfold exchanged. lia.
    + subst x y. fold f2. unfold f2.
      rewrite (TGAImage_get_set_other f1 Hwf1)
        by (try lia; intros E; inversion E; lia).
      unfold f1. rewrite (TGAImage_get_set_same f Hwf) by lia.
      rewrite Hc2, Hs1 by lia.
      split; intros H; [reflexivity|].
      exfalso. apply H. unfold exchanged. lia.
    + subst y. fold f2. unfold f2.
      rewrite (TGAImage_get_set_other f1 Hwf1)
        by (try lia; intros E; inversion E; lia).
      unfold f1. rewrite (TGAImage_get_set_other f Hwf)
        by (try lia; intros E; inversion E; lia).
      destruct (Hget x j Hx Hy) as [G1 G2].
      split; intros H; [apply G1|apply G2]; unfold exchanged in *; lia.
    + fold f2. unfold f2.
      rewrite (TGAImage_get_set_other f1 Hwf1)
        by (try lia; intros E; inversion E; lia).
      unfold f1. rewrite (TGAImage_get_set_other f Hwf)
        by (try lia; intros E; inversion E; lia).
      destruct (Hget x y Hx Hy) as [G1 G2].
      split; intros H; [apply G1|apply G2]; unfold exchanged in *; lia.
Qed.

Lemma flip_column_mirrored (i : Z) (f : TGAImage) :
  (0 <= i)%Z -> (2 * i + 2 <= img_width img)%Z ->
  mirrored i 0 f ->
  mirrored (i + 1) 0 (fold_left (flip_pixel i) (Zrange 0 (img_height f)) f).
Proof.
  intros Hi Hhalf Hm.
  assert (Hh : img_height f = img_height img) by apply Hm.
  assert (H0 : (0 < img_height img)%Z) by apply img_wf.
  rewrite Hh.
  pose proof (fold_left_Zrange_inv (flip_pixel i) (mirrored i) f (img_height img)
                                   ltac:(lia) Hm) as H.
  destruct H as [Hs Hget].
  { intros j f' Hj Hf'. now apply flip_pixel_mirrored. }
  split; [exact Hs|].
  intros x y Hx Hy. destruct (Hget x y Hx Hy) as [G1 G2].
  split; intros H; [apply G1|apply G2]; unfold exchanged in *; lia.
Qed.

Lemma flip_horizontally_columns :
  TGAImage_wf (flip_horizontally img)
  /\ img_width (flip_horizontally img) = img_width img
  /\ img_height (flip_horizontally img) = img_height img
  /\ img_bytespp (flip_horizontally img) = img_bytespp img
  /\ forall x y, (0 <= x < img_width img)%Z -> (0 <= y < img_height img)%Z ->
       TGAImage_get (flip_horizontally img) x y
       = TGAImage_get img (img_width img - 1 - x) y.
Proof.
  pose proof img_wf as [Hw [Hh [Hb Hlen]]].
  assert (Hne : Nat.eqb (length (data img)) 0 = false) by (apply Nat.eqb_neq; nia).
  unfold flip_horizontally. rewrite Hne.
  rewrite Z.shiftr_div_pow2 by lia. change (2 ^ 1)%Z with 2%Z.
  set (half := (img_width img / 2)%Z).
  assert (Hhalf : (0 <= half /\ 2 * half <= img_width img < 2 * half + 2)%Z).
  { unfold half. pose proof (Z.div_mod (img_width img) 2 ltac:(lia)).
    pose proof (Z.mod_pos_bound (img_width img) 2 ltac:(lia)). lia. }
  pose proof (fold_left_Zrange_inv
                (fun f i => fold_left (flip_pixel i) (Zrange 0 (img_height f)) f)
                (fun i f => mirrored i 0 f) img half ltac:(lia)) as H.
  destruct H as [[Hwf' [Ew [Eh Eb]]] Hget].
  - split; [split; [exact img_wf|repeat split]|].
    intros x y Hx Hy. split; intros H; [|reflexivity].
    unfold exchanged in H. lia.
  - intros i f Hi Hf. apply flip_column_mirrored; auto; lia.
  - split; [exact Hwf'|]. repeat split; auto.
    intros x y Hx Hy. destruct (Hget x y Hx Hy) as [G1 G2].
    destruct (Z_lt_dec x half) as [L|L]; [apply G1; unfold exchanged; lia|].
    destruct (Z_le_dec (img_width img - half) x) as [L'|L'];
      [apply G1; unfold exchanged; lia|].
    rewrite G2 by (unfold exchanged; lia). f_equal. lia.
Qed.

End FlipHorizontally.

(** X26.  [flip_horizontally] mirrors the rows of a well-formed image: the
    pixel (x, y) of the result is the pixel (width - 1 - x, y) of the image,
    the sizes are kept, and a second flip gives every pixel back. *)
Theorem flip_horizontally_mirror (img : TGAImage) (x y : Z) :
  TGAImage_wf img ->
  (0 <= x < img_width img)%Z -> (0 <= y < img_height img)%Z ->
  TGAImage_get (flip_horizontally img) x y = TGAImage_get img (img_width img - 1 - x) y
  /\ TGAImage_get (flip_horizontally (flip_horizontally img)) x y = TGAImage_get img x y.
Proof.
  intros Hwf Hx Hy.
  destruct (flip_horizontally_columns img Hwf) as [Hwf' [Ew [Eh [Eb Hget]]]].
  destruct (flip_horizontally_columns (flip_horizontally img) Hwf')
    as [_ [_ [_ [_ Hget']]]].
  split; [apply Hget; assumption|].
  rewrite Hget' by (rewrite ?Ew, ?Eh; lia).
  rewrite Ew, Hget by lia.
  f_equal. lia.
Qed.

Lemma flip_horizontally_mirror_witness :
  TGAImage_get (flip_horizontally ex_row_image) 0 0 = TGAImage_get ex_row_image 2 0
  /\ TGAImage_get (flip_horizontally (flip_horizontally ex_row_image)) 0 0
     = TGAImage_get ex_row_image 0 0.
Proof.
  apply (flip_horizontally_mirror ex_row_image 0 0).
  - unfold TGAImage_wf. vm_compute. repeat split; (reflexivity || discriminate).
  - vm_compute. split; (reflexivity || discriminate).
  - vm_compute. split; (reflexivity || discriminate).
Defined.

(* ================================================================== *)
(** * The kernels on binary32 numbers *)

Module F32Theory.
Import F32.

(* ------------------------------------------------------------------ *)
(** ** Degenerate triangles *)

(** The [u.z] that [barycentric] tests is the denominator, at every point. *)
Lemma barycentric_near_zero (A B C P : Vec2f) :
  near_zero (bary_denominator A B C) = true ->
  barycentric A B C P = mkVec3f (SFopp one) zero zero.
Proof.
  intros Hd. unfold barycentric. cbn [cross z3 x3 y3].
  unfold bary_denominator in Hd. now rewrite Hd.
Qed.

Lemma sample_loop_rejects_all
      (Self : Type) (screenCoords : Vec4f * Vec4f * Vec4f) (shader : IShader Self)
      (width : Z) (d : list (spec_float * spec_float)) (cntSample x y : Z)
      (samples : list Z) :
  (forall i, sample_outside screenCoords d x y i = true) ->
  forall covered color r self,
    sample_loop Self screenCoords shader width d cntSample x y samples covered color
                r self = (r, self).
Proof.
  intros Hout. induction samples as [|i rest IH]; intros covered color r self;
    cbn [sample_loop]; auto.
  rewrite Hout. cbn [orb]. apply IH.
Qed.

Lemma fold_left_fixed {A B : Type} (f : A -> B -> A) (l : list B) (a : A) :
  (forall b, f a b = a) -> fold_left f l a = a.
Proof.
  intros Hf. induction l as [|b l IH]; cbn [fold_left]; auto. now rewrite Hf.
Qed.

(** C6 (amended).  When the denominator that [barycentric] computes, the
    binary32 [u.z] of its cross product, is below [1e-5] in magnitude,
    [barycentric] returns the sentinel weights (-1, 0, 0) at every point,
    and [triangle] returns with both buffers and the shader object as they
    were: every sample is rejected by the test on the sign of the weights,
    before the depth buffer is read. *)
Theorem degenerate_triangle_writes_nothing
        (Self : Type) (screenCoords : Vec4f * Vec4f * Vec4f) (shader : IShader Self)
        (width height : Z) (d : list (spec_float * spec_float)) (cntSample : Z)
        (r : Raster) (self : Self) :
  near_zero (bary_denominator (tri_A screenCoords) (tri_B screenCoords)
                              (tri_C screenCoords)) = true ->
  (forall P, barycentric (tri_A screenCoords) (tri_B screenCoords)
                         (tri_C screenCoords) P = mkVec3f (SFopp one) zero zero)
  /\ triangle Self screenCoords shader width height d cntSample r self = (r, self).
Proof.
  intros Hd.
  assert (Hb : forall P, barycentric (tri_A screenCoords) (tri_B screenCoords)
                                     (tri_C screenCoords) P
                         = mkVec3f (SFopp one) zero zero)
    by (intros P; now apply barycentric_near_zero).
  split; [exact Hb|].
  unfold triangle. apply fold_left_fixed. intros x.
  unfold column. apply fold_left_fixed. intros y.
  unfold pixel. cbn [fst snd]. apply sample_loop_rejects_all.
  intros i. unfold sample_outside, sample_bar. rewrite Hb. reflexivity.
Qed.

(* ------------------------------------------------------------------ *)
(** ** The rasteriser as a sequence of slot updates *)

Section SlotUpdates32.

Variable Self : Type.
Variable screenCoords : Vec4f * Vec4f * Vec4f.
Variable shader : IShader Self.
Variables width height : Z.
Variable d : list (spec_float * spec_float).
Variable cntSample : Z.

Hypothesis stateless : result_stateless shader.

(** The state in which the updates evaluate the fragments; any will do. *)
Variable self0 : Self.

Let update := sample_update screenCoords shader width d cntSample self0.
Let slot (s : Z * Z * Z) : nat :=
  let '(x, y, i) := s in Z.to_nat (sample_index width cntSample x y i).
Let verdict (x y : Z) : bool * Vec3f :=
  fst (fragment shader self0
         (barycentric (tri_A screenCoords) (tri_B screenCoords) (tri_C screenCoords)
                      (pixel_center x y))
         (mkVec3f zero zero zero)).
Let loop := sample_loop Self screenCoords shader width d cntSample.

Lemma rejected_pixel (x y : Z) (samples : list Z) (b : list Vec3f * list spec_float) :
  fst (verdict x y) = false ->
  fold_left update (map (fun i => (x, y, i)) samples) b = b.
Proof.
  intros Hv. induction samples as [|i rest IH]; cbn [map fold_left]; auto.
  replace (update b (x, y, i)) with b; auto.
  unfold update, sample_update.
  destruct (sample_outside _ _ _ _ _ || ltb _ _); auto.
  fold (verdict x y). destruct (verdict x y) as [[|] c]; auto.
  discriminate Hv.
Qed.

Lemma loop_covered (x y : Z) (color : Vec3f) (samples : list Z) :
  verdict x y = (true, color) ->
  forall r self,
    buffers (fst (loop x y samples true color r self))
    = fold_left update (map (fun i => (x, y, i)) samples) (buffers r)
    /\ snd (loop x y samples true color r self) = self.
Proof.
  intros Hv. unfold loop.
  induction samples as [|i rest IH]; intros r self;
    cbn [map fold_left sample_loop]; auto.
  unfold update at 2, sample_update. cbn [buffers snd].
  destruct (sample_outside _ _ _ _ _ || ltb _ _); [apply IH|].
  fold (verdict x y). rewrite Hv. apply IH.
Qed.

Lemma loop_fresh (x y : Z) (samples : list Z) (r : Raster) (self : Self) :
  buffers (fst (loop x y samples false (mkVec3f zero zero zero) r self))
  = fold_left update (map (fun i => (x, y, i)) samples) (buffers r).
Proof.
  unfold loop. revert r.
  induction samples as [|i rest IH]; intros r;
    cbn [map fold_left sample_loop]; auto.
  unfold update at 2, sample_update. cbn [buffers snd].
  destruct (sample_outside _ _ _ _ _ || ltb _ _); [apply IH|].
  fold (verdict x y).
  pose proof (stateless self self0
                (barycentric (tri_A screenCoords) (tri_B screenCoords)
                             (tri_C screenCoords) (pixel_center x y))
                (mkVec3f zero zero zero)) as Hs.
  fold (verdict x y) in Hs.
  destruct (fragment shader self _ _) as [[v c] self'].
  cbn [fst] in Hs. rewrite <- Hs.
  destruct v.
  - assert (Hv : verdict x y = (true, c)) by (symmetry; exact Hs).
    destruct (loop_covered x y c rest Hv (store r (sample_index width cntSample x y i)
                                                c (sample_depth screenCoords d x y i))
                           self') as [Hb _].
    unfold loop in Hb. rewrite Hb. reflexivity.
  - cbn [fst]. symmetry. apply rejected_pixel. now rewrite <- Hs.
Qed.

(** A traversal performs the slot updates of its samples. *)
Lemma traverse_updates (pixels : list (Z * Z)) (samples : Z * Z -> list Z)
      (r : Raster) (self : Self) :
  buffers (fst (triangle_traverse Self screenCoords shader width d cntSample
                                  pixels samples r self))
  = fold_left update (samples_in_order pixels samples) (buffers r).
Proof.
  unfold triangle_traverse, samples_in_order. rewrite fold_left_flat_map.
  revert r self. induction pixels as [|p pixels IH]; intros r self;
    cbn [fold_left]; auto.
  cbn [fst snd].
  destruct (sample_loop Self screenCoords shader width d cntSample (fst p) (snd p)
                        (samples p) false (mkVec3f zero zero zero) r self)
    as [r' self'] eqn:E.
  rewrite IH. f_equal.
  pose proof (loop_fresh (fst p) (snd p) (samples p) r self) as H.
  unfold loop in H. rewrite E in H. exact H.
Qed.

(** [triangle] is the traversal in the order of its own loops. *)
Lemma triangle_traverses (r : Raster) (self : Self) :
  triangle Self screenCoords shader width height d cntSample r self
  = triangle_traverse Self screenCoords shader width d cntSample
      (triangle_pixels screenCoords width height) (fun _ => Zrange 0 cntSample) r self.
Proof.
  unfold triangle, triangle_traverse, triangle_pixels.
  rewrite fold_left_flat_map. apply fold_left_ext_in. intros st x _.
  unfold column.
  generalize (Zrange (bboxmin_y screenCoords height) (bboxmax_y screenCoords height + 1)).
  intros ys. revert st. induction ys as [|y ys IH]; intros st; cbn [map fold_left]; auto.
Qed.

Lemma samples_by_pixel :
  triangle_samples screenCoords width height cntSample
  = samples_in_order (triangle_pixels screenCoords width height)
                     (fun _ => Zrange 0 cntSample).
Proof.
  unfold triangle_samples, samples_in_order, triangle_pixels.
  rewrite flat_map_flat_map. apply flat_map_ext. intros x.
  now rewrite flat_map_of_map.
Qed.

Lemma samples_permuted (pixels : list (Z * Z)) (samples : Z * Z -> list Z) :
  Permutation (triangle_pixels screenCoords width height) pixels ->
  (forall p, Permutation (Zrange 0 cntSample) (samples p)) ->
  Permutation (triangle_samples screenCoords width height cntSample)
              (samples_in_order pixels samples).
Proof.
  intros Hp Hs. rewrite samples_by_pixel. unfold samples_in_order.
  eapply Permutation_trans; [apply Permutation_flat_map; exact Hp|].
  apply Permutation_flat_map_pointwise. intros p.
  apply Permutation_map. apply Hs.
Qed.

(** Updates of different slots commute. *)
Lemma updates_commute (b : list Vec3f * list spec_float) (s1 s2 : Z * Z * Z) :
  slot s1 <> slot s2 -> update (update b s1) s2 = update (update b s2) s1.
Proof.
  intros Hs. destruct s1 as [[x1 y1] i1], s2 as [[x2 y2] i2].
  unfold slot in Hs. unfold update, sample_update.
  fold (verdict x1 y1) (verdict x2 y2).
  destruct (sample_outside _ _ x1 y1 i1), (sample_outside _ _ x2 y2 i2);
    cbn [orb]; auto.
  destruct (verdict x1 y1) as [b1 c1], (verdict x2 y2) as [b2 c2].
  destruct (ltb (sample_depth screenCoords d x1 y1 i1) _) eqn:T1;
    destruct (ltb (sample_depth screenCoords d x2 y2 i2) (nth _ (snd b) zero)) eqn:T2;
    destruct b1, b2; cbn [fst snd];
      rewrite ?list_set_nth_other by congruence;
      rewrite ?T1, ?T2; cbn [fst snd];
        rewrite ?list_set_nth_other by congruence;
        rewrite ?T1, ?T2; auto.
  f_equal; apply list_set_comm; congruence.
Qed.

Hypothesis width_pos : (1 <= width)%Z.
Hypothesis height_pos : (1 <= height)%Z.
Hypothesis slots_fit : (width * height * cntSample <= 2 ^ 32)%Z.

Lemma bbox_clamped (j extent : Z) :
  (0 <= fst (bbox_axis screenCoords j extent)
   /\ snd (bbox_axis screenCoords j extent) <= to_int (extent - 1))%Z.
Proof.
  unfold bbox_axis.
  destruct (fold_left _ _ _) as [lo hi]. cbn [fst snd]. lia.
Qed.

Lemma samples_on_screen (x y i : Z) :
  In (x, y, i) (triangle_samples screenCoords width height cntSample) ->
  (0 <= x <= width - 1 /\ 0 <= y <= height - 1 /\ 0 <= i < cntSample)%Z.
Proof.
  unfold triangle_samples. intros H.
  apply in_flat_map in H. destruct H as [x' [Hx H]].
  apply in_flat_map in H. destruct H as [y' [Hy H]].
  apply in_map_iff in H. destruct H as [i' [E Hi]].
  inversion E; subst x' y' i'.
  apply Zrange_In in Hx, Hy, Hi.
  destruct (bbox_clamped 0 width) as [Hx0 Hx1].
  destruct (bbox_clamped 1 height) as [Hy0 Hy1].
  pose proof (to_int_le (width - 1) ltac:(lia)).
  pose proof (to_int_le (height - 1) ltac:(lia)).
  unfold bboxmin_x, bboxmax_x, bboxmin_y, bboxmax_y in *. lia.
Qed.

(** Two samples of a call that share a slot are the same sample. *)
Lemma slots_distinct (s1 s2 : Z * Z * Z) :
  In s1 (triangle_samples screenCoords width height cntSample) ->
  In s2 (triangle_samples screenCoords width height cntSample) ->
  slot s1 = slot s2 -> s1 = s2.
Proof.
  destruct s1 as [[x1 y1] i1], s2 as [[x2 y2] i2]. intros H1 H2 E.
  apply samples_on_screen in H1. apply samples_on_screen in H2.
  unfold slot in E.
  rewrite !(sample_index_exact width height) in E by (auto; lia).
  pose proof (flat_index_bound width height cntSample x1 y1 i1
                ltac:(lia) ltac:(lia) ltac:(lia)).
  pose proof (flat_index_bound width height cntSample x2 y2 i2
                ltac:(lia) ltac:(lia) ltac:(lia)).
  apply (flat_index_injective width cntSample); try lia.
Qed.

Lemma samples_commute (s1 s2 : Z * Z * Z) :
  In s1 (triangle_samples screenCoords width height cntSample) ->
  In s2 (triangle_samples screenCoords width height cntSample) ->
  forall b, update (update b s1) s2 = update (update b s2) s1.
Proof.
  intros H1 H2 b.
  destruct (Nat.eq_dec (slot s1) (slot s2)) as [E|E].
  - apply slots_distinct in E; auto. now subst s2.
  - now apply updates_commute.
Qed.

(** The slot updates of a call, performed in any order, yield the buffers
    of [triangle]. *)
Lemma updates_in_any_order (order : list (Z * Z * Z)) (r : Raster) (self : Self) :
  Permutation (triangle_samples screenCoords width height cntSample) order ->
  fold_left update order (buffers r)
  = buffers (fst (triangle Self screenCoords shader width height d cntSample r self)).
Proof.
  intros Hp. rewrite triangle_traverses, traverse_updates, <- samples_by_pixel.
  symmetry. apply fold_left_permutation; auto.
  intros s1 s2 H1 H2 b. now apply samples_commute.
Qed.

End SlotUpdates32.

(* ------------------------------------------------------------------ *)
(** ** The depths when the colour depends on the state *)

Section DepthOnly32.

Variable Self : Type.
Variable screenCoords : Vec4f * Vec4f * Vec4f.
Variable shader : IShader Self.
Variables width height : Z.
Variable d : list (spec_float * spec_float).
Variable cntSample : Z.

Hypothesis verdict_only : verdict_stateless shader.

(** The shader with its colours erased: same verdicts, same changes of
    state. *)
Let erased : IShader Self :=
  mkIShader (fun s bar color =>
               let '(v, _, s') := fragment shader s bar color in
               (v, mkVec3f zero zero zero, s')).

Lemma erased_result_stateless : result_stateless erased.
Proof.
  intros s s' bar color. unfold erased. cbn [fragment].
  pose proof (verdict_only s s' bar color) as H.
  destruct (fragment shader s bar color) as [[v c] t].
  destruct (fragment shader s' bar color) as [[v' c'] t'].
  cbn [fst] in *. now subst v'.
Qed.

Lemma erased_depths_covered (x y : Z) (samples : list Z) :
  forall color color' r r' self,
    zBuffer r = zBuffer r' ->
    zBuffer (fst (sample_loop Self screenCoords shader width d cntSample
                              x y samples true color r self))
    = zBuffer (fst (sample_loop Self screenCoords erased width d cntSample
                                x y samples true color' r' self))
    /\ snd (sample_loop Self screenCoords shader width d cntSample
                        x y samples true color r self)
       = snd (sample_loop Self screenCoords erased width d cntSample
                          x y samples true color' r' self).
Proof.
  induction samples as [|i rest IH]; intros color color' r r' self Hz;
    cbn [sample_loop fst snd]; auto.
  rewrite Hz.
  destruct (sample_outside _ _ _ _ _ || ltb _ _); apply IH; auto.
  cbn [store zBuffer]. now rewrite Hz.
Qed.

Lemma erased_depths_fresh (x y : Z) (samples : list Z) :
  forall color r r' self,
    zBuffer r = zBuffer r' ->
    zBuffer (fst (sample_loop Self screenCoords shader width d cntSample
                              x y samples false color r self))
    = zBuffer (fst (sample_loop Self screenCoords erased width d cntSample
                                x y samples false color r' self))
    /\ snd (sample_loop Self screenCoords shader width d cntSample
                        x y samples false color r self)
       = snd (sample_loop Self screenCoords erased width d cntSample
                          x y samples false color r' self).
Proof.
  induction samples as [|i rest IH]; intros color r r' self Hz;
    cbn [sample_loop fst snd]; auto.
  rewrite Hz.
  destruct (sample_outside _ _ _ _ _ || ltb _ _); [now apply IH|].
  unfold erased at 1 3. cbn [fragment].
  destruct (fragment shader self _ color) as [[[|] c] self']; cbn [fst snd]; auto.
  apply erased_depths_covered. cbn [store zBuffer]. now rewrite Hz.
Qed.

Lemma erased_depths_traverse (pixels : list (Z * Z)) (samples : Z * Z -> list Z) :
  forall r r' self,
    zBuffer r = zBuffer r' ->
    zBuffer (fst (triangle_traverse Self screenCoords shader width d cntSample
                                    pixels samples r self))
    = zBuffer (fst (triangle_traverse Self screenCoords erased width d cntSample
                                      pixels samples r' self)).
Proof.
  unfold triangle_traverse.
  induction pixels as [|p pixels IH]; intros r r' self Hz; cbn [fold_left fst snd]; auto.
  destruct (erased_depths_fresh (fst p) (snd p) (samples p)
                                (mkVec3f zero zero zero) r r' self Hz) as [Hz' Hs].
  destruct (sample_loop Self screenCoords shader _ _ _ _ _ _ _ _ r self) as [r1 s1].
  destruct (sample_loop Self screenCoords erased _ _ _ _ _ _ _ _ r' self) as [r2 s2].
  cbn [fst snd] in *. subst s2. now apply IH.
Qed.

Hypothesis width_pos : (1 <= width)%Z.
Hypothesis height_pos : (1 <= height)%Z.
Hypothesis slots_fit : (width * height * cntSample <= 2 ^ 32)%Z.

(** With verdicts that do not depend on the state, the depths do not depend
    on the order of the traversal. *)
Lemma depths_in_any_order (pixels : list (Z * Z)) (samples : Z * Z -> list Z)
      (r : Raster) (self : Self) :
  Permutation (triangle_pixels screenCoords width height) pixels ->
  (forall p, Permutation (Zrange 0 cntSample) (samples p)) ->
  zBuffer (fst (triangle_traverse Self screenCoords shader width d cntSample
                                  pixels samples r self))
  = zBuffer (fst (triangle Self screenCoords shader width height d cntSample r self)).
Proof.
  intros Hp Hsam.
  rewrite (triangle_traverses Self screenCoords shader).
  rewrite (erased_depths_traverse pixels samples r r self eq_refl).
  rewrite (erased_depths_traverse (triangle_pixels screenCoords width height)
                                  (fun _ => Zrange 0 cntSample) r r self eq_refl).
  change (zBuffer ?a) with (snd (buffers a)).
  rewrite !(traverse_updates Self screenCoords erased width d cntSample
                             erased_result_stateless self).
  f_equal. symmetry.
  rewrite <- (samples_by_pixel screenCoords width height cntSample).
  apply fold_left_permutation.
  - now apply samples_permuted.
  - intros s1 s2 H1 H2 b.
    now apply (samples_commute Self screenCoords erased width height d cntSample).
Qed.

End DepthOnly32.

Lemma Raster_of_buffers (r r' : Raster) : buffers r = buffers r' -> r = r'.
Proof.
  destruct r as [c z], r' as [c' z']. unfold buffers. cbn [colorBuffer zBuffer].
  intros E. inversion E. reflexivity.
Qed.

(** C3 (amended).  The fragment stage is a method of the shader object and
    may change it.  For a shader whose verdict does not depend on what the
    earlier calls have left in the object, the depth buffer that [triangle]
    produces is the same whatever the order in which the pixels, and the
    samples inside each pixel, are visited.  For a shader whose verdict and
    colour do not depend on it, so is the colour buffer; the per-slot
    depth-test-and-overwrite updates of the samples, performed in any order
    at all, end in the buffers of the call, and any two of them commute.
    The flat index is an [unsigned]; the statement is for buffers of at most
    2^32 slots. *)
Theorem triangle_order_independent
        (Self : Type) (screenCoords : Vec4f * Vec4f * Vec4f) (shader : IShader Self)
        (width height : Z) (d : list (spec_float * spec_float)) (cntSample : Z)
        (r : Raster) (self : Self)
        (pixels : list (Z * Z)) (samples : Z * Z -> list Z) :
  (1 <= width)%Z -> (1 <= height)%Z ->
  (width * height * cntSample <= 2 ^ 32)%Z ->
  Permutation (triangle_pixels screenCoords width height) pixels ->
  (forall p, Permutation (Zrange 0 cntSample) (samples p)) ->
  let code := fst (triangle Self screenCoords shader width height d cntSample r self) in
  let other := fst (triangle_traverse Self screenCoords shader width d cntSample
                                      pixels samples r self) in
  let update := sample_update screenCoords shader width d cntSample self in
  (verdict_stateless shader -> zBuffer other = zBuffer code)
  /\ (result_stateless shader ->
      other = code
      /\ (forall order,
             Permutation (triangle_samples screenCoords width height cntSample) order ->
             fold_left update order (buffers r) = buffers code)
      /\ (forall s1 s2 b,
             In s1 (triangle_samples screenCoords width height cntSample) ->
             In s2 (triangle_samples screenCoords width height cntSample) ->
             update (update b s1) s2 = update (update b s2) s1)).
Proof.
  intros Hw Hh Hfit Hp Hsam code other update. split.
  - intros Hv. now apply depths_in_any_order.
  - intros Hres. split; [|split].
    + apply Raster_of_buffers. unfold other, code.
      rewrite (traverse_updates Self screenCoords shader width d cntSample Hres self).
      apply updates_in_any_order; auto.
      now apply samples_permuted.
    + intros order Ho. now apply updates_in_any_order.
    + intros s1 s2 b H1 H2.
      now apply (samples_commute Self screenCoords shader width height d cntSample).
Qed.

(* ------------------------------------------------------------------ *)
(** ** The shadow factor *)

(** Comparison and opposite. *)
Lemma SFcompare_opp (a b : spec_float) :
  SFcompare (SFopp a) (SFopp b) = SFcompare b a.
Proof.
  destruct a as [sa|sa| |sa ma ea], b as [sb|sb| |sb mb eb];
    cbn [SFcompare SFopp]; try destruct sa; try destruct sb; cbn [negb];
    try reflexivity.
  - rewrite (Z.compare_antisym ea eb).
    destruct (ea ?= eb)%Z; cbn [CompOpp]; try reflexivity.
    f_equal. symmetry. apply (Pos.compare_cont_antisym mb ma Eq).
  - rewrite (Z.compare_antisym ea eb).
    destruct (ea ?= eb)%Z; cbn [CompOpp]; try reflexivity.
    f_equal. apply (Pos.compare_cont_antisym ma mb Eq).
Qed.

(** A comparison does not see the sign of a zero. *)
Lemma SFcompare_zero (c : spec_float) (s s' : bool) :
  SFcompare c (S754_zero s) = SFcompare c (S754_zero s').
Proof. destruct c; reflexivity. Qed.

(** Rounding is symmetric. *)
Lemma binary_round_opp (s : bool) (m : positive) (e : Z) :
  binary_round 24 128 (negb s) m e = SFopp (binary_round 24 128 s m e).
Proof.
  unfold binary_round, binary_round_aux.
  destruct (shl_align _ _ _) as [mz ez].
  destruct (shr_fexp 24 128 (Z.pos mz) ez loc_Exact) as [mrs' e'].
  destruct (shr_fexp 24 128 _ e' loc_Exact) as [mrs'' e''].
  destruct (shr_m mrs''); try reflexivity.
  destruct (_ <=? _)%Z; reflexivity.
Qed.

(** Subtracting a positive number from the opposite is adding it, up to the
    sign of a zero. *)
Lemma compare_sub_opp (c z : spec_float) (mb : positive) (eb : Z) :
  SFcompare c (sub (SFopp z) (S754_finite false mb eb))
  = SFcompare c (SFopp (add z (S754_finite false mb eb))).
Proof.
  destruct z as [sz|sz| |sz mz ez]; try reflexivity.
  unfold sub, add, SFsub, SFadd. cbn [SFopp].
  set (ezz := Z.min ez eb).
  set (X := Z.pos (fst (shl_align mz ez ezz))).
  set (Y := Z.pos (fst (shl_align mb eb ezz))).
  assert (E : (cond_Zopp (negb sz) X - cond_Zopp false Y
               = - (cond_Zopp sz X + cond_Zopp false Y))%Z)
    by (destruct sz; cbn [cond_Zopp negb]; lia).
  rewrite E.
  destruct (cond_Zopp sz X + cond_Zopp false Y)%Z as [|p|p];
    cbn [Z.opp binary_normalize].
  - apply SFcompare_zero.
  - now rewrite (binary_round_opp false).
  - now rewrite <- (binary_round_opp true).
Qed.

(** The test of the code is the test of the specification. *)
Lemma shadow_test_on_depths (stored z : spec_float) :
  ltb (add z shadow_bias) stored = closer_than_depth_minus_bias stored z.
Proof.
  unfold closer_than_depth_minus_bias, light_depth, ltb, SFltb, shadow_bias.
  now rewrite compare_sub_opp, SFcompare_opp.
Qed.

Lemma float_to_int_in_range (f : spec_float) : (INT_MIN <= float_to_int f <= INT_MAX)%Z.
Proof.
  unfold float_to_int. destruct f as [s|s| |s m e];
    try (unfold INT_MIN, INT_MAX; lia).
  cbv zeta.
  destruct ((INT_MIN <=? _) && (_ <=? INT_MAX))%Z eqn:E.
  - apply andb_true_iff in E. lia.
  - unfold INT_MIN, INT_MAX. lia.
Qed.

(** Counting in [float] is exact up to sixteen. *)
Lemma count_up (a : Z) : (0 <= a < 16)%Z -> add (of_int a) one = of_int (a + 1).
Proof.
  intros Ha.
  assert (E : In a (Zrange 0 16)) by (apply Zrange_In; lia).
  vm_compute in E.
  repeat (destruct E as [E|E]; [subst a; vm_compute; reflexivity|]).
  destruct E.
Qed.

Section ShadowFactor32.

Variable uShadowBuffer : list spec_float.
Variables uShadowBufferWidth uShadowBufferHeight : Z.
Variable lightSpacePos : Vec3f.

Let in_bounds := pcf_in_bounds uShadowBufferWidth uShadowBufferHeight lightSpacePos.
Let stored := pcf_stored uShadowBuffer uShadowBufferWidth lightSpacePos.
Let hit (o : Z * Z) : bool :=
  closer_than_depth_minus_bias (stored o) (z3 lightSpacePos).

(** One neighbour of the filter, on the pair of [shadow] and [cntSample]. *)
Let step (acc : spec_float * Z) (o : Z * Z) : spec_float * Z :=
  if in_bounds o
  then ((if hit o then add (fst acc) one else fst acc), (snd acc + 1)%Z)
  else acc.

Lemma shadow_dy_is_step (dx dy : Z) (acc : spec_float * Z) :
  let sampleX := float_to_int (add (x3 lightSpacePos) (of_int dx)) in
  ((0 <=? sampleX) && (sampleX <? uShadowBufferWidth))%Z = true ->
  shadow_dy uShadowBuffer uShadowBufferWidth uShadowBufferHeight
            lightSpacePos sampleX acc dy
  = step acc (dx, dy).
Proof.
  intros sampleX Hx. unfold shadow_dy, step, in_bounds, hit, stored,
    pcf_in_bounds, pcf_stored, pcf_texel.
  cbn [fst snd]. fold sampleX.
  rewrite out_of_bounds_test by apply float_to_int_in_range.
  rewrite Hx. cbn [andb].
  rewrite shadow_test_on_depths.
  destruct ((0 <=? _) && (_ <? uShadowBufferHeight))%Z; cbn [negb];
    [destruct (closer_than_depth_minus_bias _ _)|]; reflexivity.
Qed.

Lemma step_outside_column (dx dy : Z) (acc : spec_float * Z) :
  let sampleX := float_to_int (add (x3 lightSpacePos) (of_int dx)) in
  ((0 <=? sampleX) && (sampleX <? uShadowBufferWidth))%Z = false ->
  step acc (dx, dy) = acc.
Proof.
  intros sampleX Hx. unfold step, in_bounds, pcf_in_bounds, pcf_texel.
  cbn [fst snd]. fold sampleX. now rewrite Hx.
Qed.

Lemma shadow_dx_is_steps (dx : Z) (acc : spec_float * Z) :
  shadow_dx uShadowBuffer uShadowBufferWidth uShadowBufferHeight
            lightSpacePos acc dx
  = fold_left step (map (fun dy => (dx, dy)) [-2; -1; 0; 1]%Z) acc.
Proof.
  unfold shadow_dx.
  rewrite out_of_bounds_test by apply float_to_int_in_range.
  change (Zrange (-2) 2) with [-2; -1; 0; 1]%Z.
  generalize [-2; -1; 0; 1]%Z. intros dys.
  destruct ((0 <=? _) && (_ <? uShadowBufferWidth))%Z eqn:Hx; cbn [negb];
    revert acc; induction dys as [|dy dys IH]; intros acc;
      cbn [map fold_left]; auto.
  - rewrite shadow_dy_is_step by exact Hx. apply IH.
  - rewrite step_outside_column by exact Hx. apply IH.
Qed.

Lemma shadow_loops_are_steps (acc : spec_float * Z) :
  fold_left (shadow_dx uShadowBuffer uShadowBufferWidth uShadowBufferHeight
                       lightSpacePos)
            (Zrange (-2) 2) acc
  = fold_left step pcf_offsets acc.
Proof.
  unfold pcf_offsets. rewrite fold_left_flat_map.
  change (Zrange (-2) 2) with [-2; -1; 0; 1]%Z.
  apply fold_left_ext_in. intros a dx _. apply shadow_dx_is_steps.
Qed.

(** The two counters after a run of at most sixteen steps. *)
Lemma steps_counted (os : list (Z * Z)) (a c : Z) :
  (0 <= a)%Z -> (a + Z.of_nat (length os) <= 16)%Z ->
  fold_left step os (of_int a, c)
  = (of_int (a + Z.of_nat (length (filter hit (filter in_bounds os)))),
     (c + Z.of_nat (length (filter in_bounds os)))%Z).
Proof.
  revert a c. induction os as [|o os IH]; intros a c Ha Hlen; cbn [fold_left filter].
  - cbn [length Z.of_nat]. now rewrite !Z.add_0_r.
  - cbn [length] in Hlen. unfold step at 2.
    destruct (in_bounds o); [|apply IH; lia].
    cbn [fst snd filter]. destruct (hit o).
    + rewrite count_up by lia. rewrite IH by lia. cbn [length].
      apply (f_equal2 pair); [apply (f_equal of_int)|]; lia.
    + rewrite IH by lia. cbn [length].
      apply (f_equal2 pair); [apply (f_equal of_int)|]; lia.
Qed.

End ShadowFactor32.

(** C5.  For every fragment that the Phong shader accepts, the shadow factor
    it computes is the number of the in-bounds neighbours, in the 4x4
    neighbourhood of offsets around the projected light-space position,
    whose depth stored in the shadow buffer is closer to the light than the
    depth of the fragment minus the bias, divided in [float] by the number
    of the in-bounds neighbours.  The depths of this sentence grow with the
    distance from the light; on the z values that the buffers hold, in which
    larger is closer, the test reads [z + 0.005f < stored]. *)
Theorem shadow_factor_is_pcf_ratio
        (uShadowBuffer : list spec_float) (uShadowBufferWidth uShadowBufferHeight : Z)
        (lightSpacePos : Vec3f) :
  fragment_shadow uShadowBuffer uShadowBufferWidth uShadowBufferHeight lightSpacePos
  = pcf_ratio uShadowBuffer uShadowBufferWidth uShadowBufferHeight
              closer_than_depth_minus_bias lightSpacePos
  /\ forall stored z,
       closer_than_depth_minus_bias stored z = ltb (add z shadow_bias) stored.
Proof.
  split; [|intros stored z; symmetry; apply shadow_test_on_depths].
  unfold fragment_shadow.
  rewrite (shadow_loops_are_steps uShadowBuffer uShadowBufferWidth uShadowBufferHeight).
  change (zero, 0%Z) with (of_int 0, 0%Z).
  rewrite (steps_counted uShadowBuffer uShadowBufferWidth uShadowBufferHeight)
    by (vm_compute; discriminate).
  reflexivity.
Qed.

End F32Theory.

(* ------------------------------------------------------------------ *)
(** ** The binary32 kernels on the sample inputs *)

Lemma degenerate_triangle_writes_nothing_witness :
  F32.triangle unit F32.ex_flat_triangle F32.ex_shader 4 4 F32.D_MSAA 4
               (F32.ex_raster 64) tt
  = (F32.ex_raster 64, tt).
Proof.
  refine (proj2 (F32Theory.degenerate_triangle_writes_nothing
                   unit F32.ex_flat_triangle F32.ex_shader 4 4 F32.D_MSAA 4
                   (F32.ex_raster 64) tt _)).
  vm_compute. reflexivity.
Defined.

(** C6, as stated, fails: the three vertices of [ex_collinear_triangle] lie
    on one line, a triangle of zero projected area, but the denominator
    that [barycentric] computes for it is -2^-12, which is not near zero,
    and [triangle] writes a depth. *)
Lemma collinear_triangle_is_drawn :
  bary_denominator (Vec2f_value (F32.tri_A F32.ex_collinear_triangle))
                   (Vec2f_value (F32.tri_B F32.ex_collinear_triangle))
                   (Vec2f_value (F32.tri_C F32.ex_collinear_triangle)) == 0
  /\ F32.bary_denominator (F32.tri_A F32.ex_collinear_triangle)
                          (F32.tri_B F32.ex_collinear_triangle)
                          (F32.tri_C F32.ex_collinear_triangle)
     = S754_finite true 8388608 (-35)
  /\ F32.barycentric (F32.tri_A F32.ex_collinear_triangle)
                     (F32.tri_B F32.ex_collinear_triangle)
                     (F32.tri_C F32.ex_collinear_triangle)
                     (F32.sample_point F32.D_NonMSAA 7 21 0)
     = F32.mkVec3f F32.one (S754_zero true) (S754_zero true)
  /\ nth 175 (F32.zBuffer
                (fst (F32.triangle unit F32.ex_collinear_triangle F32.ex_shader 8 22
                                   F32.D_NonMSAA 1 (F32.ex_raster 176) tt))) F32.zero
     <> nth 175 (F32.zBuffer (F32.ex_raster 176)) F32.zero.
Proof.
  split; [vm_compute; reflexivity|]. split; [vm_compute; reflexivity|].
  split; [vm_compute; reflexivity|]. vm_compute. discriminate.
Qed.

Lemma triangle_order_independent_witness :
  fst (F32.triangle_traverse unit F32.ex_triangle F32.ex_shader 2 F32.D_NonMSAA 1
                             (rev (F32.triangle_pixels F32.ex_triangle 2 1))
                             (fun _ => Zrange 0 1) (F32.ex_raster 2) tt)
  = fst (F32.triangle unit F32.ex_triangle F32.ex_shader 2 1 F32.D_NonMSAA 1
                      (F32.ex_raster 2) tt).
Proof.
  refine (proj1 (proj2 (F32Theory.triangle_order_independent
                          unit F32.ex_triangle F32.ex_shader 2 1 F32.D_NonMSAA 1
                          (F32.ex_raster 2) tt
                          (rev (F32.triangle_pixels F32.ex_triangle 2 1))
                          (fun _ => Zrange 0 1) _ _ _ _ _) _)).
  - lia.
  - lia.
  - vm_compute. discriminate.
  - apply Permutation_rev.
  - intros p. apply Permutation_refl.
  - intros s s' bar color. reflexivity.
Defined.

(** C3, as stated, fails: [light_shader] renormalises its light at every
    call, as [Shader::fragment] does, and in binary32 the normalisation of
    (1, 1, 1) is not a fixed point of the normalisation.  The two pixels
    of [ex_triangle] therefore receive different colours, and visiting
    them in the other order exchanges the colours. *)
Lemma colours_depend_on_the_order :
  snd (F32.Shader_light_step (snd (F32.Shader_light_step F32.lightPos)))
  <> snd (F32.Shader_light_step F32.lightPos)
  /\ Permutation (F32.triangle_pixels F32.ex_triangle 2 1)
                 (rev (F32.triangle_pixels F32.ex_triangle 2 1))
  /\ F32.colorBuffer
       (fst (F32.triangle_traverse F32.Vec3f F32.ex_triangle F32.light_shader 2
                                   F32.D_NonMSAA 1
                                   (rev (F32.triangle_pixels F32.ex_triangle 2 1))
                                   (fun _ => Zrange 0 1) (F32.ex_raster 2) F32.lightPos))
     <> F32.colorBuffer
          (fst (F32.triangle F32.Vec3f F32.ex_triangle F32.light_shader 2 1
                             F32.D_NonMSAA 1 (F32.ex_raster 2) F32.lightPos)).
Proof.
  split; [vm_compute; discriminate|]. split; [apply Permutation_rev|].
  vm_compute. discriminate.
Qed.

(* ------------------------------------------------------------------ *)
(** ** The inverse of a matrix *)

Module MatrixTheory.
Import boot algebra.
Import GRing.Theory.
Import MatrixModel.
Local Open Scope ring_scope.
Set Implicit Arguments.
Unset Strict Implicit.

Section Inverse.

Variable T : fieldType.

Lemma dot_sum n (u v : 'rV[T]_n) : dot u v = \sum_i u 0 i * v 0 i.
Proof. by rewrite /dot (perm_big (enum 'I_n)) /= ?perm_rev // big_enum. Qed.

Lemma get_minor_rowcol n (A : 'M[T]_n.+1) i j : get_minor A i j = row' i (col' j A).
Proof. by apply/matrixP => a b; rewrite !mxE. Qed.

Lemma sign_parity (k : nat) : (if odd k then -1 else 1) = (-1) ^+ k :> T.
Proof. by rewrite -signr_odd; case: (odd k); rewrite ?expr1 ?expr0. Qed.

(** The recursive expansion along the first row computes the determinant. *)
Lemma det_determinant n (A : 'M[T]_n.+1) : det A = \det A.
Proof.
  elim: n A => [|n IH] A /=.
    by rewrite [A in RHS]mx11_scalar det_scalar1.
  rewrite (perm_big (enum 'I_n.+2)) /= ?perm_rev // big_enum /=.
  rewrite (expand_det_row A 0); apply: eq_bigr => i _.
  by rewrite /matrix.cofactor IH get_minor_rowcol sign_parity [_ * (-1) ^+ _]mulrC.
Qed.

Lemma cofactor_matrix n (A : 'M[T]_n.+2) i j : cofactor A i j = matrix.cofactor A i j.
Proof.
  by rewrite /cofactor /matrix.cofactor det_determinant get_minor_rowcol
             sign_parity mulrC.
Qed.

Lemma mat_mul_mulmx r1 c1 c2 (A : 'M[T]_(r1, c1)) (B : 'M[T]_(c1, c2)) :
  mat_mul A B = A *m B.
Proof.
  by apply/matrixP => i j; rewrite !mxE dot_sum; apply: eq_bigr => k _; rewrite !mxE.
Qed.

(** [invert] is the transposed cofactor matrix divided by the determinant. *)
Lemma invert_adj n (A : 'M[T]_n.+2) : invert A = (\det A)^-1 *: \adj A.
Proof.
  apply/matrixP => i j; rewrite !mxE dot_sum.
  rewrite (expand_det_row A 0) cofactor_matrix mulrC; congr (_^-1 * _).
  by apply: eq_bigr => k _; rewrite !mxE cofactor_matrix mulrC.
Qed.

End Inverse.

(** C7.  For every square matrix [M] over a field whose determinant is not
    zero, [M] multiplied by [invert M] is the identity matrix, where
    [invert] is computed as in the header: the cofactor matrix by recursive
    expansion, divided by the determinant and transposed. *)
Theorem invert_is_inverse (T : fieldType) (n : nat) (M : 'M[T]_n.+2) :
  det M != 0 -> mat_mul M (invert M) = identity T n.+2.
Proof.
  rewrite det_determinant => nz.
  rewrite mat_mul_mulmx invert_adj -scalemxAr mul_mx_adj.
  apply/matrixP => i j; rewrite !mxE.
  by case: (i == j); rewrite ?mulr1n ?mulr0n ?mulr0 // mulVf.
Qed.

Lemma ex_matrix_det : det ex_matrix = 1.
Proof.
  rewrite det_determinant (expand_det_row _ 0) !big_ord_recl big_ord0.
  rewrite /matrix.cofactor !det_mx11 !mxE.
  rewrite -!val_eqE /= /bump /= !addn0 expr0 expr1.
  by rewrite addr0 !mul1r mulr1 mulN1r.
Qed.

Lemma invert_is_inverse_witness : mat_mul ex_matrix (invert ex_matrix) = identity rat 2.
Proof. apply: invert_is_inverse. by rewrite ex_matrix_det oner_neq0. Defined.

Section Products.

Variable T : fieldType.

Lemma mat_vec_mulmx r c (A : 'M[T]_(r, c)) (v : 'rV[T]_c) : mat_vec A v = v *m A^T.
Proof.
  apply/rowP => j; rewrite !mxE dot_sum.
  by apply: eq_bigr => k _; rewrite !mxE mulrC.
Qed.

Lemma dot_mulmx n (u v : 'rV[T]_n) : dot u v = (u *m v^T) 0 0.
Proof. by rewrite dot_sum mxE; apply: eq_bigr => k _; rewrite !mxE. Qed.

(** [invert_transpose] is the cofactor matrix divided by the determinant. *)
Lemma invert_transpose_adj n (A : 'M[T]_n.+2) :
  invert_transpose A = (\det A)^-1 *: (\adj A)^T.
Proof.
  apply/matrixP => i j; rewrite !mxE dot_sum.
  rewrite (expand_det_row A 0) cofactor_matrix mulrC; congr (_^-1 * _).
  by apply: eq_bigr => k _; rewrite !mxE cofactor_matrix mulrC.
Qed.

End Products.

(** X22.  [invert M] is also a left inverse of [M]: multiplied by [M] on
    the right it gives the identity matrix. *)
Theorem invert_is_left_inverse (T : fieldType) (n : nat) (M : 'M[T]_n.+2) :
  det M != 0 -> mat_mul (invert M) M = identity T n.+2.
Proof.
  rewrite det_determinant => nz.
  rewrite mat_mul_mulmx invert_adj -scalemxAl mul_adj_mx.
  apply/matrixP => i j; rewrite !mxE.
  by case: (i == j); rewrite ?mulr1n ?mulr0n ?mulr0 // mulVf.
Qed.

Lemma invert_is_left_inverse_witness :
  mat_mul (invert ex_matrix) ex_matrix = identity rat 2.
Proof. apply: invert_is_left_inverse. by rewrite ex_matrix_det oner_neq0. Defined.

(** X23.  The determinant computed by the recursive expansion is
    multiplicative: the determinant of a product of two matrices is the
    product of their determinants. *)
Theorem det_mat_mul (T : fieldType) (n : nat) (A B : 'M[T]_n.+1) :
  det (mat_mul A B) = det A * det B.
Proof.
  rewrite !det_determinant.
  by rewrite mat_mul_mulmx det_mulmx.
Qed.

(** X24.  A normal transformed by [invert_transpose M] keeps its dot
    product with every vector transformed by [M]: a normal stays
    perpendicular to the surface it belongs to. *)
Theorem invert_transpose_keeps_dot (T : fieldType) (n : nat) (M : 'M[T]_n.+2)
        (normal v : 'rV[T]_n.+2) :
  det M != 0 ->
  dot (mat_vec (invert_transpose M) normal) (mat_vec M v) = dot normal v.
Proof.
  rewrite det_determinant => nz.
  rewrite !dot_mulmx !mat_vec_mulmx invert_transpose_adj.
  rewrite trmx_mul !trmxK linearZ /= trmxK.
  rewrite -mulmxA [_ *m (M *m _)]mulmxA -scalemxAl mul_adj_mx.
  by rewrite scale_scalar_mx mulVf // mul1mx.
Qed.

Lemma invert_transpose_keeps_dot_witness :
  dot (mat_vec (invert_transpose ex_matrix) (const_mx 1)) (mat_vec ex_matrix (const_mx 1))
  = dot (const_mx 1 : 'rV[rat]_2) (const_mx 1).
Proof. apply: invert_transpose_keeps_dot. by rewrite ex_matrix_det oner_neq0. Defined.

End MatrixTheory.
